(** * The ball simulation of [logic.py] and its window, embedded in Rocq

    The engine owns a list of active balls, an inventory list and an
    optional reference to the ball being dragged.  Python objects are
    mutable and shared by reference, so the embedding keeps an explicit
    object store ([heap]) addressed by locations; the lists and the
    dragged reference hold locations.

    Numbers.  Python [float] values are modelled as real numbers ([R]):
    rounding and overflow are ignored (so is the OverflowError of [**] on
    floats whose square is out of range), [math.sqrt] is [sqrt], [abs] is
    [Rabs] and [v ** 0.5] is [sqrt v].  Colour channels and identifiers
    are Python [int]s and are modelled as [Z].

    Randomness.  Every call of the ambient generator is an explicit
    argument: [random.random()] draws are reals of the unit interval and
    [random.randint(a, b)] draws are integers between [a] and [b].

    The window.  The event handlers and the main loop of [game.py] and the
    start-up of [main.py] are embedded on top of the engine; rendering is
    left out. *)

From Stdlib Require Import Reals Lra Lia ZArith List Bool Psatz.
From Stdlib Require String.
Import String.StringSyntax.
Delimit Scope string_scope with string.
Import ListNotations.

Open Scope R_scope.

(** ** Comparisons on floats, as booleans *)

Definition Rlt_b (a c : R) : bool := if Rlt_dec a c then true else false.
Definition Rle_b (a c : R) : bool := if Rle_dec a c then true else false.
Definition Rgt_b (a c : R) : bool := Rlt_b c a.
Definition Rge_b (a c : R) : bool := Rle_b c a.

(** [int(v)] on a float: truncation toward zero. *)
Definition int_of_float (v : R) : Z :=
  if Rle_dec 0 v then Int_part v else (- Int_part (- v))%Z.

(** [random.uniform(a, c)] is [a + (c - a) * random()]. *)
Definition uniform (a c u : R) : R := a + (c - a) * u.

Definition unit_draw (u : R) : Prop := 0 <= u <= 1.

(** ** BallState *)

Inductive BallState : Type :=
| FREE
| IN_INVENTORY
| BEING_DRAGGED.

Definition BallState_eq_dec (s1 s2 : BallState) : {s1 = s2} + {s1 <> s2}.
Proof. decide equality. Defined.

Definition is_FREE (st : BallState) : bool :=
  match st with FREE => true | _ => false end.

Definition is_BEING_DRAGGED (st : BallState) : bool :=
  match st with BEING_DRAGGED => true | _ => false end.

(** ** Color *)

Record Color : Type := mkColor { r : Z; g : Z; b : Z }.

(** The dataclass constructor followed by [__post_init__]: every channel
    is clamped to 0..255. *)
Definition clamp_channel (v : Z) : Z := Z.max 0 (Z.min 255 v).

Definition Color_init (r0 g0 b0 : Z) : Color :=
  {| r := clamp_channel r0; g := clamp_channel g0; b := clamp_channel b0 |}.

(** Channels of every colour the constructor can return. *)
Definition channel_ok (v : Z) : Prop := (0 <= v <= 255)%Z.

Definition Color_ok (c : Color) : Prop :=
  channel_ok (r c) /\ channel_ok (g c) /\ channel_ok (b c).

(** [int((a + c) / 2)]: the float quotient is exact for sums of this size
    and [int] truncates toward zero, which is [Z.quot]. *)
Definition half_sum (a c : Z) : Z := Z.quot (a + c) 2.

Definition mix_with (self other : Color) : Color :=
  Color_init (half_sum (r self) (r other))
             (half_sum (g self) (g other))
             (half_sum (b self) (b other)).

Definition max3 (a c d : Z) : Z := Z.max (Z.max a c) d.
Definition min3 (a c d : Z) : Z := Z.min (Z.min a c) d.

Definition get_brightness (self : Color) : R :=
  IZR (r self + g self + b self) / IZR (3 * 255).

Definition is_white (self : Color) : bool :=
  (200 <? r self)%Z && (200 <? g self)%Z && (200 <? b self)%Z.

Definition get_saturation (self : Color) : R :=
  let max_component := max3 (r self) (g self) (b self) in
  let min_component := min3 (r self) (g self) (b self) in
  if (0 <? max_component)%Z
  then IZR (max_component - min_component) / 255
  else 0.

Definition Color_eq_dec (c1 c2 : Color) : {c1 = c2} + {c1 <> c2}.
Proof. decide equality; apply Z.eq_dec. Defined.

(** ** Ball *)

Record Ball : Type := mkBall {
  x : R;
  y : R;
  vx : R;
  vy : R;
  radius : R;
  color : Color;
  state : BallState;
  id : Z
}.

(** The dataclass constructor followed by [__post_init__]: an identifier
    of 0 is replaced by [random.randint(1000, 9999)], here [rnd_id]. *)
Definition Ball_init (x0 y0 vx0 vy0 radius0 : R) (color0 : Color)
    (state0 : BallState) (id0 : Z) (rnd_id : Z) : Ball :=
  {| x := x0; y := y0; vx := vx0; vy := vy0; radius := radius0;
     color := color0; state := state0;
     id := if (id0 =? 0)%Z then rnd_id else id0 |}.

(** The generated [__eq__] of the dataclass compares all fields. *)
Definition Ball_eq_dec (b1 b2 : Ball) : {b1 = b2} + {b1 <> b2}.
Proof.
  decide equality;
    first [ apply Z.eq_dec | apply BallState_eq_dec
          | apply Color_eq_dec | apply Req_EM_T ].
Defined.

Definition Ball_eqb (b1 b2 : Ball) : bool :=
  if Ball_eq_dec b1 b2 then true else false.

Definition with_x (v : R) (o : Ball) : Ball :=
  mkBall v (y o) (vx o) (vy o) (radius o) (color o) (state o) (id o).
Definition with_y (v : R) (o : Ball) : Ball :=
  mkBall (x o) v (vx o) (vy o) (radius o) (color o) (state o) (id o).
Definition with_vx (v : R) (o : Ball) : Ball :=
  mkBall (x o) (y o) v (vy o) (radius o) (color o) (state o) (id o).
Definition with_vy (v : R) (o : Ball) : Ball :=
  mkBall (x o) (y o) (vx o) v (radius o) (color o) (state o) (id o).
Definition with_color (v : Color) (o : Ball) : Ball :=
  mkBall (x o) (y o) (vx o) (vy o) (radius o) v (state o) (id o).
Definition with_state (v : BallState) (o : Ball) : Ball :=
  mkBall (x o) (y o) (vx o) (vy o) (radius o) (color o) v (id o).

(** ** The object store *)

Definition loc : Type := nat.

Definition Heap : Type := loc -> Ball.

Definition upd (h : Heap) (l : loc) (o : Ball) : Heap :=
  fun l' => if Nat.eqb l' l then o else h l'.

(** ** GameLogic *)

Record GameLogic : Type := mkGame {
  screen_width : R;
  screen_height : R;
  heap : Heap;
  next_loc : loc;
  balls : list loc;
  inventory : list loc;
  dragged_ball : option loc;
  drag_offset_x : R;
  drag_offset_y : R;
  delete_zone_y : R;
  delete_zone_height : R;
  friction : R;
  bounce_damping : R;
  gravity : R;
  min_color_value : Z;
  max_color_value : Z
}.

Definition default_ball : Ball :=
  mkBall 0 0 0 0 0 (mkColor 0 0 0) FREE 0.

Definition GameLogic_init (screen_width0 screen_height0 : R) : GameLogic :=
  {| screen_width := screen_width0;
     screen_height := screen_height0;
     heap := fun _ => default_ball;
     next_loc := O;
     balls := [];
     inventory := [];
     dragged_ball := None;
     drag_offset_x := 0;
     drag_offset_y := 0;
     delete_zone_y := screen_height0 - 50;
     delete_zone_height := 50;
     friction := 0.98;
     bounce_damping := 0.8;
     gravity := 0.2;
     min_color_value := 50;
     max_color_value := 255 |}.

Definition with_heap (h : Heap) (s : GameLogic) : GameLogic :=
  mkGame (screen_width s) (screen_height s) h (next_loc s) (balls s)
    (inventory s) (dragged_ball s) (drag_offset_x s) (drag_offset_y s)
    (delete_zone_y s) (delete_zone_height s) (friction s)
    (bounce_damping s) (gravity s) (min_color_value s) (max_color_value s).

Definition with_next_loc (n : loc) (s : GameLogic) : GameLogic :=
  mkGame (screen_width s) (screen_height s) (heap s) n (balls s)
    (inventory s) (dragged_ball s) (drag_offset_x s) (drag_offset_y s)
    (delete_zone_y s) (delete_zone_height s) (friction s)
    (bounce_damping s) (gravity s) (min_color_value s) (max_color_value s).

Definition with_balls (ls : list loc) (s : GameLogic) : GameLogic :=
  mkGame (screen_width s) (screen_height s) (heap s) (next_loc s) ls
    (inventory s) (dragged_ball s) (drag_offset_x s) (drag_offset_y s)
    (delete_zone_y s) (delete_zone_height s) (friction s)
    (bounce_damping s) (gravity s) (min_color_value s) (max_color_value s).

Definition with_inventory (ls : list loc) (s : GameLogic) : GameLogic :=
  mkGame (screen_width s) (screen_height s) (heap s) (next_loc s) (balls s)
    ls (dragged_ball s) (drag_offset_x s) (drag_offset_y s)
    (delete_zone_y s) (delete_zone_height s) (friction s)
    (bounce_damping s) (gravity s) (min_color_value s) (max_color_value s).

Definition with_dragged_ball (d : option loc) (s : GameLogic) : GameLogic :=
  mkGame (screen_width s) (screen_height s) (heap s) (next_loc s) (balls s)
    (inventory s) d (drag_offset_x s) (drag_offset_y s)
    (delete_zone_y s) (delete_zone_height s) (friction s)
    (bounce_damping s) (gravity s) (min_color_value s) (max_color_value s).

Definition with_drag_offset (ox oy : R) (s : GameLogic) : GameLogic :=
  mkGame (screen_width s) (screen_height s) (heap s) (next_loc s) (balls s)
    (inventory s) (dragged_ball s) ox oy
    (delete_zone_y s) (delete_zone_height s) (friction s)
    (bounce_damping s) (gravity s) (min_color_value s) (max_color_value s).

(** [ball.field = v] on the object at [l]. *)
Definition modify (l : loc) (f : Ball -> Ball) (s : GameLogic) : GameLogic :=
  with_heap (upd (heap s) l (f (heap s l))) s.

(** The object a reference points to. *)
Definition deref (s : GameLogic) (l : loc) : Ball := heap s l.

(** ** Lists of references

    [v in ls] and [ls.remove(v)] compare elements with [==], which for
    balls is the field-wise equality of the dataclass. *)

Fixpoint list_contains (h : Heap) (v : Ball) (ls : list loc) : bool :=
  match ls with
  | [] => false
  | l :: rest => if Ball_eqb (h l) v then true else list_contains h v rest
  end.

(** [None] stands for the [ValueError] of [list.remove] on a missing
    element. *)
Fixpoint list_remove (h : Heap) (v : Ball) (ls : list loc)
  : option (list loc) :=
  match ls with
  | [] => None
  | l :: rest =>
      if Ball_eqb (h l) v then Some rest
      else match list_remove h v rest with
           | Some rest' => Some (l :: rest')
           | None => None
           end
  end.

(** [ls.pop(i)] for an index inside the list: the list without position
    [i]. *)
Definition list_pop (i : nat) (ls : list loc) : list loc :=
  firstn i ls ++ skipn (S i) ls.

(** ** Spawning *)

Record AddDraws : Type := mkAddDraws {
  draw_r : Z;
  draw_g : Z;
  draw_b : Z;
  draw_target : R;
  draw_vx : R;
  draw_vy : R;
  draw_id : Z
}.

Definition generate_random_color (s : GameLogic)
    (min_brightness max_brightness : R) (d : AddDraws) : Color :=
  let color0 := Color_init (draw_r d) (draw_g d) (draw_b d) in
  let current_brightness := get_brightness color0 in
  if Rlt_b current_brightness min_brightness
     || Rgt_b current_brightness max_brightness
  then
    let target_brightness :=
      uniform min_brightness max_brightness (draw_target d) in
    let scale_factor := target_brightness / current_brightness in
    let new_r := int_of_float (IZR (r color0) * scale_factor) in
    let new_g := int_of_float (IZR (g color0) * scale_factor) in
    let new_b := int_of_float (IZR (b color0) * scale_factor) in
    Color_init new_r new_g new_b
  else color0.

(** The draws the generator can produce inside [add_ball]. *)
Definition valid_add_draws (s : GameLogic) (d : AddDraws) : Prop :=
  (min_color_value s <= draw_r d <= max_color_value s)%Z /\
  (min_color_value s <= draw_g d <= max_color_value s)%Z /\
  (min_color_value s <= draw_b d <= max_color_value s)%Z /\
  unit_draw (draw_target d) /\ unit_draw (draw_vx d) /\
  unit_draw (draw_vy d) /\ (1000 <= draw_id d <= 9999)%Z.

Definition add_ball (s : GameLogic) (x0 y0 radius0 : R) (d : AddDraws)
  : loc * GameLogic :=
  let color0 := generate_random_color s 0.4 0.9 d in
  let ball :=
    Ball_init x0 y0 (uniform (-3) 3 (draw_vx d)) (uniform (-3) 3 (draw_vy d))
      radius0 color0 FREE 0 (draw_id d) in
  let l := next_loc s in
  (l, with_balls (balls s ++ [l])
        (with_next_loc (S l) (with_heap (upd (heap s) l ball) s))).

(** ** One frame *)

Definition update_ball_physics (s : GameLogic) (ball : loc) (dt : R)
  : GameLogic :=
  let s1 := modify ball (fun o => with_vy (vy o + gravity s * dt) o) s in
  let s2 := modify ball (fun o => with_x (x o + vx o * dt) o) s1 in
  let s3 := modify ball (fun o => with_y (y o + vy o * dt) o) s2 in
  let s4 := modify ball (fun o => with_vx (vx o * friction s) o) s3 in
  modify ball (fun o => with_vy (vy o * friction s) o) s4.

Definition mix_ball_colors (s : GameLogic) (ball1 ball2 : loc) : GameLogic :=
  let mixed_color :=
    mix_with (color (deref s ball1)) (color (deref s ball2)) in
  let s1 := modify ball1 (with_color mixed_color) s in
  modify ball2 (with_color mixed_color) s1.

Definition distance_to (o : Ball) (px py : R) : R :=
  sqrt ((x o - px) ^ 2 + (y o - py) ^ 2).

(** The body of the loop of [_check_collisions] for one [other]. *)
Definition collide_with (ball : loc) (s : GameLogic) (other : loc)
  : GameLogic :=
  if Ball_eqb (deref s other) (deref s ball)
     || negb (is_FREE (state (deref s other)))
  then s
  else
    let distance :=
      distance_to (deref s ball) (x (deref s other)) (y (deref s other)) in
    let min_distance := radius (deref s ball) + radius (deref s other) in
    if Rlt_b distance min_distance && Rgt_b distance 0 then
      let s1 := mix_ball_colors s ball other in
      let overlap := min_distance - distance in
      let separation_x :=
        (x (deref s1 ball) - x (deref s1 other)) / distance * overlap * 0.5 in
      let separation_y :=
        (y (deref s1 ball) - y (deref s1 other)) / distance * overlap * 0.5 in
      let s2 := modify ball (fun o => with_x (x o + separation_x) o) s1 in
      let s3 := modify ball (fun o => with_y (y o + separation_y) o) s2 in
      let s4 := modify other (fun o => with_x (x o - separation_x) o) s3 in
      modify other (fun o => with_y (y o - separation_y) o) s4
    else s.

Definition check_collisions (s : GameLogic) (ball : loc) : GameLogic :=
  fold_left (collide_with ball) (balls s) s.

(** The first [if]/[elif] of [_check_boundaries]: left and right walls. *)
Definition bounce_x (s : GameLogic) (ball : loc) : GameLogic :=
  if Rlt_b (x (deref s ball) - radius (deref s ball)) 0 then
    let s' := modify ball (fun o => with_x (radius o) o) s in
    modify ball (fun o => with_vx (Rabs (vx o) * bounce_damping s) o) s'
  else if Rgt_b (x (deref s ball) + radius (deref s ball)) (screen_width s)
  then
    let s' := modify ball (fun o => with_x (screen_width s - radius o) o) s in
    modify ball (fun o => with_vx (- Rabs (vx o) * bounce_damping s) o) s'
  else s.

(** The second [if]/[elif]: top and bottom walls. *)
Definition bounce_y (s : GameLogic) (ball : loc) : GameLogic :=
  if Rlt_b (y (deref s ball) - radius (deref s ball)) 0 then
    let s' := modify ball (fun o => with_y (radius o) o) s in
    modify ball (fun o => with_vy (Rabs (vy o) * bounce_damping s) o) s'
  else if Rgt_b (y (deref s ball) + radius (deref s ball)) (screen_height s)
  then
    let s' := modify ball (fun o => with_y (screen_height s - radius o) o) s in
    modify ball (fun o => with_vy (- Rabs (vy o) * bounce_damping s) o) s'
  else s.

Definition check_boundaries (s : GameLogic) (ball : loc) : GameLogic :=
  bounce_y (bounce_x s ball) ball.

(** The body of the loop of [update] for one [ball]. *)
Definition update_one (dt : R) (s : GameLogic) (ball : loc) : GameLogic :=
  if is_FREE (state (deref s ball)) then
    let s1 := update_ball_physics s ball dt in
    let s2 := check_collisions s1 ball in
    check_boundaries s2 ball
  else s.

Definition update (s : GameLogic) (dt : R) : GameLogic :=
  fold_left (update_one dt) (balls s) s.

(** ** Drag lifecycle *)

(** The test of the loop of [start_drag] for one ball. *)
Definition grabbable (h : Heap) (mouse_x mouse_y : R) (l : loc) : bool :=
  is_FREE (state (h l))
  && Rle_b (distance_to (h l) mouse_x mouse_y) (radius (h l)).

(** The first ball of [ls] that passes the test. *)
Fixpoint first_grabbable (h : Heap) (mouse_x mouse_y : R) (ls : list loc)
  : option loc :=
  match ls with
  | [] => None
  | l :: rest =>
      if grabbable h mouse_x mouse_y l then Some l
      else first_grabbable h mouse_x mouse_y rest
  end.

Definition start_drag (s : GameLogic) (mouse_x mouse_y : R)
  : GameLogic * bool :=
  match first_grabbable (heap s) mouse_x mouse_y (rev (balls s)) with
  | Some ball =>
      let s1 := with_dragged_ball (Some ball) s in
      let s2 := modify ball (with_state BEING_DRAGGED) s1 in
      let s3 :=
        with_drag_offset (x (deref s2 ball) - mouse_x)
                         (y (deref s2 ball) - mouse_y) s2 in
      (s3, true)
  | None => (s, false)
  end.

Definition drag_ball (s : GameLogic) (mouse_x mouse_y : R) : GameLogic :=
  match dragged_ball s with
  | Some ball =>
      if is_BEING_DRAGGED (state (deref s ball)) then
        let s1 := modify ball (with_x (mouse_x + drag_offset_x s)) s in
        modify ball (with_y (mouse_y + drag_offset_y s)) s1
      else s
  | None => s
  end.

Definition is_in_delete_zone (s : GameLogic) (px py : R) : bool :=
  Rge_b py (delete_zone_y s)
  && Rle_b py (delete_zone_y s + delete_zone_height s).

(** [None] is the [ValueError] of [self.balls.remove(ball)]. *)
Definition add_to_inventory (s : GameLogic) (ball : loc)
  : option GameLogic :=
  let s1 := modify ball (with_state IN_INVENTORY) s in
  match list_remove (heap s1) (deref s1 ball) (balls s1) with
  | Some rest =>
      let s2 := with_balls rest s1 in
      Some (with_inventory (inventory s2 ++ [ball]) s2)
  | None => None
  end.

Definition delete_ball (s : GameLogic) (ball : loc) : GameLogic :=
  let s1 :=
    if list_contains (heap s) (deref s ball) (balls s) then
      match list_remove (heap s) (deref s ball) (balls s) with
      | Some rest => with_balls rest s
      | None => s
      end
    else s in
  if list_contains (heap s1) (deref s1 ball) (inventory s1) then
    match list_remove (heap s1) (deref s1 ball) (inventory s1) with
    | Some rest => with_inventory rest s1
    | None => s1
    end
  else s1.

(** [None] is an exception escaping [end_drag]; otherwise the new state
    and the returned boolean. *)
Definition end_drag (s : GameLogic) (mouse_x mouse_y : R)
  : option (GameLogic * bool) :=
  match dragged_ball s with
  | None => Some (s, false)
  | Some ball =>
      if is_in_delete_zone s mouse_x mouse_y then
        let s1 := delete_ball s ball in
        Some (with_dragged_ball None s1, true)
      else
        let inventory_x := screen_width s - 100 in
        let inventory_y := 50 in
        let inventory_radius := 30 in
        let distance_to_inventory :=
          sqrt ((mouse_x - inventory_x) ^ 2 + (mouse_y - inventory_y) ^ 2) in
        if Rle_b distance_to_inventory inventory_radius then
          match add_to_inventory s ball with
          | Some s1 => Some (with_dragged_ball None s1, true)
          | None => None
          end
        else
          let s1 := modify ball (with_state FREE) s in
          let s2 :=
            modify ball (fun o => with_vx ((mouse_x - x o) * 0.1) o) s1 in
          let s3 :=
            modify ball (fun o => with_vy ((mouse_y - y o) * 0.1) o) s2 in
          Some (with_dragged_ball None s3, false)
  end.

(** ** Inventory *)

Record EjectDraws : Type := mkEjectDraws {
  eject_x : R;
  eject_y : R;
  eject_vx : R;
  eject_vy : R
}.

Definition valid_eject_draws (d : EjectDraws) : Prop :=
  unit_draw (eject_x d) /\ unit_draw (eject_y d) /\
  unit_draw (eject_vx d) /\ unit_draw (eject_vy d).

Definition index_in_range (inventory_index : Z) (ls : list loc) : bool :=
  (0 <=? inventory_index)%Z && (inventory_index <? Z.of_nat (length ls))%Z.

Definition eject_ball_from_inventory (s : GameLogic) (inventory_index : Z)
    (d : EjectDraws) : GameLogic * bool :=
  if index_in_range inventory_index (inventory s) then
    let i := Z.to_nat inventory_index in
    let ball := nth i (inventory s) O in
    let s1 := with_inventory (list_pop i (inventory s)) s in
    let s2 := modify ball (with_state FREE) s1 in
    let s3 :=
      modify ball
        (with_x (uniform 50 (screen_width s - 50) (eject_x d))) s2 in
    let s4 := modify ball (with_y (uniform 50 150 (eject_y d))) s3 in
    let s5 := modify ball (with_vx (uniform (-2) 2 (eject_vx d))) s4 in
    let s6 := modify ball (with_vy (uniform (-2) 2 (eject_vy d))) s5 in
    (with_balls (balls s6 ++ [ball]) s6, true)
  else (s, false).

Definition clear_all_balls (s : GameLogic) : GameLogic :=
  with_dragged_ball None (with_inventory [] (with_balls [] s)).

(** ** get_ball_quality_score *)

Definition quality_of_color (c : Color) : R :=
  let brightness := get_brightness c in
  let saturation := get_saturation c in
  if is_white c then 0
  else if Rlt_b saturation 0.1 then 0.1
  else
    let quality := brightness * sqrt saturation in
    let balance :=
      1 - IZR (Z.abs (max3 (r c) (g c) (b c) - min3 (r c) (g c) (b c))) / 255 in
    let quality' := quality * (0.7 + 0.3 * balance) in
    Rmin 1 quality'.

Definition get_ball_quality_score (s : GameLogic) (ball : Ball) : R :=
  quality_of_color (color ball).

(** ** The engine as a transition system *)

Inductive Command : Type :=
| AddBall (x0 y0 radius0 : R) (d : AddDraws)
| Update (dt : R)
| StartDrag (mouse_x mouse_y : R)
| DragBall (mouse_x mouse_y : R)
| EndDrag (mouse_x mouse_y : R)
| Eject (inventory_index : Z) (d : EjectDraws)
| ClearAll.

(** The state after a call; [None] when the call raises the [ValueError]
    of [list.remove], the one exception of the model. *)
Definition exec (s : GameLogic) (c : Command) : option GameLogic :=
  match c with
  | AddBall x0 y0 radius0 d => Some (snd (add_ball s x0 y0 radius0 d))
  | Update dt => Some (update s dt)
  | StartDrag mx my => Some (fst (start_drag s mx my))
  | DragBall mx my => Some (drag_ball s mx my)
  | EndDrag mx my =>
      match end_drag s mx my with
      | Some (s', _) => Some s'
      | None => None
      end
  | Eject i d => Some (fst (eject_ball_from_inventory s i d))
  | ClearAll => Some (clear_all_balls s)
  end.

(** The draws of a call are ones the generator can return. *)
Definition valid_command (s : GameLogic) (c : Command) : Prop :=
  match c with
  | AddBall _ _ _ d => valid_add_draws s d
  | Eject _ d => valid_eject_draws d
  | _ => True
  end.

(** The caller's side of the drag protocol: [start_drag] is only called
    while nothing is dragged. *)
Definition press_only_when_idle (s : GameLogic) (c : Command) : Prop :=
  match c with
  | StartDrag _ _ => dragged_ball s = None
  | _ => True
  end.

(** States the engine reaches from a fresh [GameLogic] by any calls. *)
Inductive reachable (w h : R) : GameLogic -> Prop :=
| reach_init : reachable w h (GameLogic_init w h)
| reach_step s c s' :
    reachable w h s -> valid_command s c -> exec s c = Some s' ->
    reachable w h s'.

(** States reached when the caller keeps to the drag protocol. *)
Inductive reachable_idle_press (w h : R) : GameLogic -> Prop :=
| reach_ip_init : reachable_idle_press w h (GameLogic_init w h)
| reach_ip_step s c s' :
    reachable_idle_press w h s -> valid_command s c ->
    press_only_when_idle s c -> exec s c = Some s' ->
    reachable_idle_press w h s'.

(** ** Frames and invariants *)

(** The lists, the dragged reference and the allocation counter are the
    same in both states. *)
Definition frame_kept (s s' : GameLogic) : Prop :=
  balls s' = balls s /\ inventory s' = inventory s /\
  dragged_ball s' = dragged_ball s /\ next_loc s' = next_loc s.

(** What a frame of physics may do: it keeps the frame, every object's
    state, identifier and radius, and every object that is not FREE. *)
Definition physics_only (s s' : GameLogic) : Prop :=
  frame_kept s s' /\
  forall l,
    state (heap s' l) = state (heap s l) /\
    id (heap s' l) = id (heap s l) /\
    radius (heap s' l) = radius (heap s l) /\
    (state (heap s l) <> FREE -> heap s' l = heap s l).

(** A field assignment that touches neither state, identifier nor
    radius. *)
Definition motion_update (f : Ball -> Ball) : Prop :=
  forall o, state (f o) = state o /\ id (f o) = id o /\
            radius (f o) = radius o.

(** Every object keeps its state, and the frame is kept. *)
Definition states_kept (s s' : GameLogic) : Prop :=
  frame_kept s s' /\ forall l, state (heap s' l) = state (heap s l).

(** Every object keeps its identifier. *)
Definition ids_kept (s s' : GameLogic) : Prop :=
  forall l, id (heap s' l) = id (heap s l).

(** Every listed reference points to an allocated object, and the dragged
    ball is an active one. *)
Definition alloc_inv (s : GameLogic) : Prop :=
  (forall l, In l (balls s ++ inventory s) -> (l < next_loc s)%nat)
  /\ (forall d, dragged_ball s = Some d -> In d (balls s)).

(** The drag protocol: the lists are duplicate-free and disjoint, stored
    balls are IN_INVENTORY, and the active balls are FREE except for the
    dragged one, which is active and BEING_DRAGGED. *)
Definition drag_inv (s : GameLogic) : Prop :=
  NoDup (balls s) /\ NoDup (inventory s)
  /\ (forall l, In l (balls s) -> ~ In l (inventory s))
  /\ (forall l, In l (inventory s) -> state (heap s l) = IN_INVENTORY)
  /\ match dragged_ball s with
     | None => forall l, In l (balls s) -> state (heap s l) = FREE
     | Some d =>
         In d (balls s) /\ state (heap s d) = BEING_DRAGGED
         /\ forall l, In l (balls s) -> l <> d -> state (heap s l) = FREE
     end.

(** The test of [end_drag] for the inventory target. *)
Definition in_inventory_target (s : GameLogic) (mouse_x mouse_y : R) : bool :=
  Rle_b (sqrt ((mouse_x - (screen_width s - 100)) ^ 2 + (mouse_y - 50) ^ 2))
        30.

(** ** Sample states *)

Definition demo_ball : Ball :=
  mkBall 100 100 1 2 20 (mkColor 255 0 0) FREE 1234.

(** A fresh 800 x 600 engine holding the objects of [objs] (at locations
    0, 1, ...) with the given lists. *)
Fixpoint heap_of_list (objs : list Ball) : Heap :=
  match objs with
  | [] => fun _ => default_ball
  | o :: rest =>
      fun l => match l with O => o | S l' => heap_of_list rest l' end
  end.

Definition sample_game (objs : list Ball) (active stored : list loc)
  : GameLogic :=
  with_inventory stored
    (with_balls active
       (with_next_loc (length objs)
          (with_heap (heap_of_list objs) (GameLogic_init 800 600)))).

(** One FREE ball in the middle of the arena. *)
Definition demo_game : GameLogic := sample_game [demo_ball] [O] [].

(** A FREE ball at rest that overlaps the left wall. *)
Definition resting_ball : Ball :=
  mkBall 10 300 0 0 20 (mkColor 255 0 0) FREE 1234.

(** A FREE ball wider than the arena: it overlaps all four walls. *)
Definition wide_ball : Ball :=
  mkBall 400 300 (-1) 0 500 (mkColor 255 0 0) FREE 1234.

(** Two FREE balls of radius 20 whose centres are 30 apart. *)
Definition red_ball : Ball :=
  mkBall 100 100 0 0 20 (mkColor 255 0 0) FREE 1234.
Definition blue_ball : Ball :=
  mkBall 130 100 0 0 20 (mkColor 0 0 255) FREE 5678.
Definition overlapping_game : GameLogic :=
  sample_game [red_ball; blue_ball] [0%nat; 1%nat] [].

(** Two [add_ball] calls for which the generator returns the same values. *)
Definition twin_draws : AddDraws := mkAddDraws 200 100 50 0.5 0.5 0.5 1234.

Definition one_ball_game : GameLogic :=
  snd (add_ball (GameLogic_init 800 600) 0 0 20 twin_draws).

Definition twin_game : GameLogic :=
  snd (add_ball one_ball_game 100 0 20 twin_draws).

(** A press on the second ball of [twin_game], then a press on the first
    one without a release in between. *)
Definition first_drag_game : GameLogic := fst (start_drag twin_game 100 0).

Definition second_drag_game : GameLogic :=
  fst (start_drag first_drag_game 0 0).




(** One ball in the inventory, and the draws of one [eject] call. *)
Definition stored_ball : Ball :=
  mkBall 700 50 0 0 20 (mkColor 255 0 0) IN_INVENTORY 1234.

Definition stocked_game : GameLogic := sample_game [stored_ball] [] [O].

Definition middle_draws : EjectDraws := mkEjectDraws 0.5 0.5 0.5 0.5.

(** ** Hue *)

(** [a % m] on floats for a positive [m]: the remainder of the floored
    quotient. *)
Definition float_mod (a m : R) : R := a - m * IZR (Int_part (a / m)).

Definition Rmax3 (a c d : R) : R := Rmax (Rmax a c) d.
Definition Rmin3 (a c d : R) : R := Rmin (Rmin a c) d.

(** The angle [get_hue] computes before it is wrapped into 0..360. *)
Definition raw_hue (self : Color) : R :=
  let r' := IZR (r self) / 255 in
  let g' := IZR (g self) / 255 in
  let b' := IZR (b self) / 255 in
  let max_val := Rmax3 r' g' b' in
  let min_val := Rmin3 r' g' b' in
  let diff := max_val - min_val in
  if Req_EM_T max_val r' then 60 * ((g' - b') / diff)
  else if Req_EM_T max_val g' then 60 * (2 + (b' - r') / diff)
  else 60 * (4 + (r' - g') / diff).

Definition get_hue (self : Color) : R :=
  let r' := IZR (r self) / 255 in
  let g' := IZR (g self) / 255 in
  let b' := IZR (b self) / 255 in
  let max_val := Rmax3 r' g' b' in
  let min_val := Rmin3 r' g' b' in
  let diff := max_val - min_val in
  if Req_EM_T diff 0 then 0
  else float_mod (raw_hue self + 360) 360.

(** ** Relations between two states *)

(** The second state differs from the first in the object store only. *)
Definition heap_only (s s' : GameLogic) : Prop := s' = with_heap (heap s') s.

(** Every object of the second state is related by [K] to the object at
    the same location of the first. *)
Definition kept (K : Ball -> Ball -> Prop) (s s' : GameLogic) : Prop :=
  forall l, K (heap s l) (heap s' l).

(** Objects outside [ls] are the same in both states. *)
Definition untouched_outside (ls : list loc) (s s' : GameLogic) : Prop :=
  forall l, ~ In l ls -> heap s' l = heap s l.

(** Relations on objects used with [kept]. *)
Definition same_velocity (o o' : Ball) : Prop :=
  vx o' = vx o /\ vy o' = vy o.

Definition same_identity (o o' : Ball) : Prop :=
  state o' = state o /\ id o' = id o /\ radius o' = radius o.

Definition color_stays_ok (o o' : Ball) : Prop :=
  Color_ok (color o) -> Color_ok (color o').

(** The fixed parameters of the engine are the same in both states. *)
Definition same_params (s s' : GameLogic) : Prop :=
  screen_width s' = screen_width s
  /\ screen_height s' = screen_height s
  /\ delete_zone_y s' = delete_zone_y s
  /\ delete_zone_height s' = delete_zone_height s
  /\ friction s' = friction s
  /\ bounce_damping s' = bounce_damping s
  /\ gravity s' = gravity s
  /\ min_color_value s' = min_color_value s
  /\ max_color_value s' = max_color_value s.

(** What holds of the two lists whatever the caller does: no reference
    occurs twice or in both lists, stored balls are IN_INVENTORY, active
    balls are FREE or BEING_DRAGGED, and the dragged reference is an active
    ball that is BEING_DRAGGED. *)
Definition store_inv (s : GameLogic) : Prop :=
  NoDup (balls s) /\ NoDup (inventory s)
  /\ (forall l, In l (balls s) -> ~ In l (inventory s))
  /\ (forall l, In l (inventory s) -> state (heap s l) = IN_INVENTORY)
  /\ (forall l, In l (balls s) ->
        state (heap s l) = FREE \/ state (heap s l) = BEING_DRAGGED)
  /\ (forall d, dragged_ball s = Some d ->
        In d (balls s) /\ state (heap s d) = BEING_DRAGGED).

(** ** Read accessors *)

(** [BallState.value]. *)
Definition BallState_value (st : BallState) : String.string :=
  match st with
  | FREE => "free"%string
  | IN_INVENTORY => "in_inventory"%string
  | BEING_DRAGGED => "being_dragged"%string
  end.

(** The dictionaries of [get_inventory_info], one field per key. *)
Record InventoryInfo : Type := mkInventoryInfo {
  info_index : nat;
  info_color : Z * Z * Z;
  info_quality : R;
  info_radius : R
}.

(** The dictionaries of [get_balls_info], one field per key. *)
Record BallInfo : Type := mkBallInfo {
  info_id : Z;
  info_x : R;
  info_y : R;
  info_vx : R;
  info_vy : R;
  info_ball_radius : R;
  info_ball_color : Z * Z * Z;
  info_state : String.string;
  info_ball_quality : R
}.

(** [enumerate(ls)] counting from [n]. *)
Fixpoint enumerate_from (n : nat) (ls : list loc) : list (nat * loc) :=
  match ls with
  | [] => []
  | l :: rest => (n, l) :: enumerate_from (S n) rest
  end.

Definition color_tuple (c : Color) : Z * Z * Z := (r c, g c, b c).

Definition get_inventory_info (s : GameLogic) : list InventoryInfo :=
  map (fun p : nat * loc =>
         let ball := deref s (snd p) in
         mkInventoryInfo (fst p) (color_tuple (color ball))
           (get_ball_quality_score s ball) (radius ball))
      (enumerate_from 0 (inventory s)).

Definition get_balls_info (s : GameLogic) : list BallInfo :=
  map (fun l : loc =>
         let ball := deref s l in
         mkBallInfo (id ball) (x ball) (y ball) (vx ball) (vy ball)
           (radius ball) (color_tuple (color ball))
           (BallState_value (state ball)) (get_ball_quality_score s ball))
      (balls s).

(** The dictionary of [get_delete_zone_info]: keys y, height, width. *)
Definition get_delete_zone_info (s : GameLogic) : R * R * R :=
  (delete_zone_y s, delete_zone_height s, screen_width s).

(** ** The window: [BallGame] of [game.py]

    Rendering and the pygame calls have no effect on the engine and are
    left out.  The events of [pygame.event.get()] are an explicit list;
    each event comes with the values the random generator returns while it
    is handled.  An exception that escapes a handler is [None]. *)

(** The statement [import random] of [game.py] sits under
    [if __name__ == "__main__"]: the name [random] is a global of the
    module when [game.py] is the script that is run, and it is unbound when
    the module is imported, as [main.py] does.  Evaluating [random.uniform]
    with the name unbound raises NameError. *)
Inductive Loaded : Type := as_script | as_module.

Definition random_bound (m : Loaded) : bool :=
  match m with
  | as_script => true
  | as_module => false
  end.

Inductive Key : Type := K_r | K_ESCAPE | K_SPACE | K_other.

Inductive Event : Type :=
| QUIT
| KEYDOWN (key : Key)
| MOUSEBUTTONDOWN (button : Z) (pos : Z * Z)
| MOUSEBUTTONUP (button : Z) (pos : Z * Z)
| MOUSEMOTION (pos : Z * Z)
| OTHER_EVENT.

(** The draws of one event: for a restart the radius draw and the
    [add_ball] draws of each initial ball; for the space key the two
    position draws and the [add_ball] draws. *)
Record EventDraws : Type := mkEventDraws {
  restart_draws : nat -> R * AddDraws;
  space_x : R;
  space_y : R;
  space_ball : AddDraws
}.

(** The field [dragged_ball] of [BallGame] is [ui_dragged_ball] here; the
    name is taken by the field of [GameLogic]. *)
Record BallGame : Type := mkBallGame {
  width : Z;
  height : Z;
  game_logic : GameLogic;
  fps : Z;
  initial_balls : nat;
  is_dragging : bool;
  ui_dragged_ball : option loc
}.

Definition with_game_logic (gl : GameLogic) (g : BallGame) : BallGame :=
  mkBallGame (width g) (height g) gl (fps g) (initial_balls g)
    (is_dragging g) (ui_dragged_ball g).

Definition with_dragging (flag : bool) (d : option loc) (g : BallGame)
  : BallGame :=
  mkBallGame (width g) (height g) (game_logic g) (fps g) (initial_balls g)
    flag d.

(** The position of the [i]-th initial ball. *)
Definition spawn_x (g : BallGame) (i : nat) : Z :=
  (width g / 2 + (Z.of_nat i - Z.of_nat (initial_balls g) / 2) * 60)%Z.

Definition spawn_y (i : nat) : Z := (150 + (Z.of_nat i mod 3) * 80)%Z.

(** The body of the loop of [initialize_game]. *)
Definition spawn_initial (g : BallGame) (draws : nat -> R * AddDraws)
    (gl : GameLogic) (i : nat) : GameLogic :=
  snd (add_ball gl (IZR (spawn_x g i)) (IZR (spawn_y i))
         (uniform 18 25 (fst (draws i))) (snd (draws i))).

(** The window [initialize_game] leaves when every round of its loop finds
    the name [random]. *)
Definition initialize_game_body (g : BallGame)
    (draws : nat -> R * AddDraws) : BallGame :=
  let gl := clear_all_balls (game_logic g) in
  with_game_logic
    (fold_left (spawn_initial g draws) (seq 0 (initial_balls g)) gl) g.

(** [initialize_game] in a module loaded as [m].  Every round of the loop
    evaluates [random.uniform(18, 25)]: with the name unbound the first
    round raises, and only a loop of no rounds returns. *)
Definition initialize_game (m : Loaded) (g : BallGame)
    (draws : nat -> R * AddDraws) : option BallGame :=
  if random_bound m || (initial_balls g =? 0)%nat
  then Some (initialize_game_body g draws)
  else None.

(** The fields [__init__] assigns before it calls [initialize_game]. *)
Definition BallGame_fields (width0 height0 : Z) : BallGame :=
  mkBallGame width0 height0
    (GameLogic_init (IZR width0) (IZR (height0 - 100)))
    60 8 false None.

(** [BallGame(width, height)] in a module loaded as [m]. *)
Definition BallGame_init (m : Loaded) (width0 height0 : Z)
    (draws : nat -> R * AddDraws) : option BallGame :=
  initialize_game m (BallGame_fields width0 height0) draws.

(** The window the constructor returns, when it returns. *)
Definition BallGame_built (width0 height0 : Z)
    (draws : nat -> R * AddDraws) : BallGame :=
  initialize_game_body (BallGame_fields width0 height0) draws.

Definition handle_mouse_down (g : BallGame) (pos : Z * Z) : BallGame :=
  let mouse_x := IZR (fst pos) in
  let mouse_y := IZR (snd pos) in
  let res := start_drag (game_logic g) mouse_x mouse_y in
  let g1 := with_game_logic (fst res) g in
  if snd res then with_dragging true (dragged_ball (game_logic g1)) g1
  else g1.

Definition handle_mouse_up (g : BallGame) (pos : Z * Z) : option BallGame :=
  if is_dragging g then
    let mouse_x := IZR (fst pos) in
    let mouse_y := IZR (snd pos) in
    match end_drag (game_logic g) mouse_x mouse_y with
    | Some (gl, _) => Some (with_dragging false None (with_game_logic gl g))
    | None => None
    end
  else Some g.

Definition handle_mouse_drag (g : BallGame) (pos : Z * Z) : BallGame :=
  if is_dragging g then
    let mouse_x := IZR (fst pos) in
    let mouse_y := IZR (snd pos) in
    with_game_logic (drag_ball (game_logic g) mouse_x mouse_y) g
  else g.

(** The body of the loop of [handle_events] for one event: the new window
    state and [false] when the handler returns [False] at this event. *)
Definition handle_event (m : Loaded) (g : BallGame)
    (ev : Event * EventDraws) : option (BallGame * bool) :=
  let d := snd ev in
  match fst ev with
  | QUIT => Some (g, false)
  | KEYDOWN K_r =>
      match initialize_game m g (restart_draws d) with
      | Some g' => Some (g', true)
      | None => None
      end
  | KEYDOWN K_ESCAPE => Some (g, false)
  | KEYDOWN K_SPACE =>
      if random_bound m then
        let x0 := uniform 100 (IZR (width g) - 100) (space_x d) in
        let y0 := uniform 100 200 (space_y d) in
        Some (with_game_logic
                (snd (add_ball (game_logic g) x0 y0 20 (space_ball d))) g,
              true)
      else None
  | KEYDOWN K_other => Some (g, true)
  | MOUSEBUTTONDOWN button pos =>
      if (button =? 1)%Z then Some (handle_mouse_down g pos, true)
      else Some (g, true)
  | MOUSEBUTTONUP button pos =>
      if (button =? 1)%Z then
        match handle_mouse_up g pos with
        | Some g' => Some (g', true)
        | None => None
        end
      else Some (g, true)
  | MOUSEMOTION pos =>
      if is_dragging g then Some (handle_mouse_drag g pos, true)
      else Some (g, true)
  | OTHER_EVENT => Some (g, true)
  end.

Fixpoint handle_events (m : Loaded) (g : BallGame)
    (events : list (Event * EventDraws)) : option (BallGame * bool) :=
  match events with
  | [] => Some (g, true)
  | ev :: rest =>
      match handle_event m g ev with
      | Some (g', true) => handle_events m g' rest
      | Some (g', false) => Some (g', false)
      | None => None
      end
  end.

(** One turn of the loop of [run]: the events, then one engine frame of
    [1 / fps]. *)
Definition run_frame (m : Loaded) (g : BallGame)
    (events : list (Event * EventDraws)) : option (BallGame * bool) :=
  match handle_events m g events with
  | Some (g', running) =>
      Some (with_game_logic
              (update (game_logic g') (1 / IZR (fps g'))) g', running)
  | None => None
  end.

(** The loop of [run] over the event lists of successive frames; it stops
    after the frame in which [handle_events] returned [False].  The calls
    [pygame.quit()] and [sys.exit()] that follow the loop end the process
    and are left out. *)
Fixpoint run (m : Loaded) (g : BallGame)
    (frames : list (list (Event * EventDraws))) : option BallGame :=
  match frames with
  | [] => Some g
  | events :: rest =>
      match run_frame m g events with
      | Some (g', true) => run m g' rest
      | Some (g', false) => Some g'
      | None => None
      end
  end.

(** Building a window and running it: the body of the [try] of [main.py]
    and the script part of [game.py]. *)
Definition play (m : Loaded) (width0 height0 : Z)
    (draws : nat -> R * AddDraws)
    (frames : list (list (Event * EventDraws))) : option BallGame :=
  match BallGame_init m width0 height0 draws with
  | Some g => run m g frames
  | None => None
  end.

Inductive Outcome : Type :=
| loop_ended (g : BallGame)
| error_reported.

(** [main.py] imports [game], builds [BallGame()] with the default size
    1000 by 700 and runs it; an exception is caught and reported with the
    message of the [except Exception] clause. *)
Definition main_py (draws : nat -> R * AddDraws)
    (frames : list (list (Event * EventDraws))) : Outcome :=
  match play as_module 1000 700 draws frames with
  | Some g => loop_ended g
  | None => error_reported
  end.

(** The inventory circle as [draw_ui] draws it. *)
Definition ui_inventory_x (g : BallGame) : Z := (width g - 80)%Z.
Definition ui_inventory_y : Z := 20%Z.
Definition ui_inventory_radius : R := 30.

(** The pixels [pygame.draw.circle] fills for the inventory. *)
Definition in_drawn_inventory (g : BallGame) (px py : R) : bool :=
  Rle_b (sqrt ((px - IZR (ui_inventory_x g)) ^ 2
               + (py - IZR ui_inventory_y) ^ 2))
        ui_inventory_radius.

(** What the window keeps: the engine's lists are well formed and the flag
    [is_dragging] is set whenever the engine drags a ball. *)
Definition window_inv (g : BallGame) : Prop :=
  alloc_inv (game_logic g) /\ store_inv (game_logic g)
  /\ (forall d, dragged_ball (game_logic g) = Some d -> is_dragging g = true).

Definition is_left_press (e : Event) : bool :=
  match e with
  | MOUSEBUTTONDOWN button _ => (button =? 1)%Z
  | _ => false
  end.

(** Left presses arrive only while the window is not dragging. *)
Fixpoint presses_while_idle (m : Loaded) (g : BallGame)
    (events : list (Event * EventDraws)) : Prop :=
  match events with
  | [] => True
  | ev :: rest =>
      (is_left_press (fst ev) = true -> is_dragging g = false)
      /\ match handle_event m g ev with
         | Some (g', true) => presses_while_idle m g' rest
         | _ => True
         end
  end.

Fixpoint frames_press_while_idle (m : Loaded) (g : BallGame)
    (frames : list (list (Event * EventDraws))) : Prop :=
  match frames with
  | [] => True
  | events :: rest =>
      presses_while_idle m g events
      /\ match run_frame m g events with
         | Some (g', true) => frames_press_while_idle m g' rest
         | _ => True
         end
  end.

(** A window of the default size whose generator returns the same values
    at every call, and one frame with a left press on the centre of the
    ball spawned last, at [(680, 230)]. *)
Definition steady_draws : nat -> R * AddDraws := fun _ => (0.5, twin_draws).

Definition steady_window : BallGame := BallGame_built 1000 700 steady_draws.

Definition steady_event_draws : EventDraws :=
  mkEventDraws steady_draws 0.5 0.5 twin_draws.

Definition press_frames : list (list (Event * EventDraws)) :=
  [[(MOUSEBUTTONDOWN 1 (680, 230)%Z, steady_event_draws)]].

(** ** The engine calls behind an event *)

(** A sequence of calls; [None] as soon as one raises. *)
Fixpoint exec_list (s : GameLogic) (cs : list Command) : option GameLogic :=
  match cs with
  | [] => Some s
  | c :: rest =>
      match exec s c with
      | Some s' => exec_list s' rest
      | None => None
      end
  end.

Definition spawn_command (g : BallGame) (draws : nat -> R * AddDraws)
    (i : nat) : Command :=
  AddBall (IZR (spawn_x g i)) (IZR (spawn_y i))
    (uniform 18 25 (fst (draws i))) (snd (draws i)).

(** The engine calls a window handler makes for one event. *)
Definition event_commands (g : BallGame) (ev : Event * EventDraws)
  : list Command :=
  let d := snd ev in
  match fst ev with
  | KEYDOWN K_r =>
      ClearAll
        :: map (spawn_command g (restart_draws d)) (seq 0 (initial_balls g))
  | KEYDOWN K_SPACE =>
      [AddBall (uniform 100 (IZR (width g) - 100) (space_x d))
         (uniform 100 200 (space_y d)) 20 (space_ball d)]
  | MOUSEBUTTONDOWN button pos =>
      if (button =? 1)%Z then [StartDrag (IZR (fst pos)) (IZR (snd pos))]
      else []
  | MOUSEBUTTONUP button pos =>
      if (button =? 1)%Z && is_dragging g
      then [EndDrag (IZR (fst pos)) (IZR (snd pos))]
      else []
  | MOUSEMOTION pos =>
      if is_dragging g then [DragBall (IZR (fst pos)) (IZR (snd pos))]
      else []
  | _ => []
  end.

Definition not_a_press (c : Command) : Prop :=
  match c with
  | StartDrag _ _ => False
  | _ => True
  end.

(** * Properties *)

(** ** Boolean comparisons *)

Lemma Rlt_b_true (a c : R) : Rlt_b a c = true <-> a < c.
Proof. unfold Rlt_b; destruct (Rlt_dec a c); split; intros; easy. Qed.

Lemma Rlt_b_false (a c : R) : Rlt_b a c = false <-> ~ a < c.
Proof. unfold Rlt_b; destruct (Rlt_dec a c); split; intros; easy. Qed.

Lemma Rle_b_true (a c : R) : Rle_b a c = true <-> a <= c.
Proof. unfold Rle_b; destruct (Rle_dec a c); split; intros; easy. Qed.

Lemma Rle_b_false (a c : R) : Rle_b a c = false <-> ~ a <= c.
Proof. unfold Rle_b; destruct (Rle_dec a c); split; intros; easy. Qed.

Lemma Ball_eqb_refl (o : Ball) : Ball_eqb o o = true.
Proof. unfold Ball_eqb; destruct (Ball_eq_dec o o); congruence. Qed.

Lemma Ball_eqb_true (o1 o2 : Ball) : Ball_eqb o1 o2 = true <-> o1 = o2.
Proof. unfold Ball_eqb; destruct (Ball_eq_dec o1 o2); split; intros; easy. Qed.

Lemma Ball_eqb_false (o1 o2 : Ball) : Ball_eqb o1 o2 = false <-> o1 <> o2.
Proof. unfold Ball_eqb; destruct (Ball_eq_dec o1 o2); split; intros; easy. Qed.

Lemma upd_same (h : Heap) (l : loc) (o : Ball) : upd h l o l = o.
Proof. unfold upd; now rewrite Nat.eqb_refl. Qed.

Lemma upd_other (h : Heap) (l l' : loc) (o : Ball) :
  l' <> l -> upd h l o l' = h l'.
Proof.
  intros Hne; unfold upd.
  destruct (Nat.eqb_spec l' l); [contradiction | reflexivity].
Qed.

(** ** Colours *)

Lemma clamp_channel_ok (v : Z) : channel_ok (clamp_channel v).
Proof. unfold channel_ok, clamp_channel; lia. Qed.

Lemma clamp_channel_id (v : Z) : channel_ok v -> clamp_channel v = v.
Proof. unfold channel_ok, clamp_channel; lia. Qed.

Lemma Color_init_ok (r0 g0 b0 : Z) : Color_ok (Color_init r0 g0 b0).
Proof. repeat split; apply clamp_channel_ok. Qed.

Lemma half_sum_floor (a c : Z) :
  channel_ok a -> channel_ok c -> half_sum a c = ((a + c) / 2)%Z.
Proof.
  unfold channel_ok, half_sum; intros Ha Hc.
  apply Z.quot_div_nonneg; lia.
Qed.

Lemma half_sum_ok (a c : Z) :
  channel_ok a -> channel_ok c -> channel_ok (half_sum a c).
Proof.
  intros Ha Hc; rewrite half_sum_floor by assumption.
  unfold channel_ok in *.
  split; [apply Z.div_pos; lia | ].
  apply Z.div_le_upper_bound; lia.
Qed.

Lemma half_sum_comm (a c : Z) : half_sum a c = half_sum c a.
Proof. unfold half_sum; now rewrite Z.add_comm. Qed.

Lemma mix_with_ok (a c : Color) : Color_ok (mix_with a c).
Proof. apply Color_init_ok. Qed.

(** C6. For all colours [a] and [c] (channels in 0..255), every channel of
    [mix_with a c] is the integer average of the two channels, truncated:
    it is [(a + c) / 2] rounded down, that is, twice the result is the sum
    or the sum minus one.  So [mix_with] is commutative, and mixing pure
    red with pure blue gives (127, 0, 127). *)
Theorem mix_with_truncating_average (a c : Color) :
  Color_ok a -> Color_ok c ->
  mix_with a c =
    mkColor ((r a + r c) / 2) ((g a + g c) / 2) ((b a + b c) / 2)
  /\ (2 * r (mix_with a c) <= r a + r c <= 2 * r (mix_with a c) + 1)%Z
  /\ (2 * g (mix_with a c) <= g a + g c <= 2 * g (mix_with a c) + 1)%Z
  /\ (2 * b (mix_with a c) <= b a + b c <= 2 * b (mix_with a c) + 1)%Z
  /\ mix_with a c = mix_with c a
  /\ mix_with (Color_init 255 0 0) (Color_init 0 0 255) = Color_init 127 0 127.
Proof.
  intros (Har & Hag & Hab) (Hcr & Hcg & Hcb).
  assert (Heq : mix_with a c =
    mkColor ((r a + r c) / 2) ((g a + g c) / 2) ((b a + b c) / 2)).
  { unfold mix_with, Color_init.
    rewrite !clamp_channel_id by (apply half_sum_ok; assumption).
    now rewrite !half_sum_floor by assumption. }
  split; [exact Heq | ].
  rewrite Heq; cbn [r g b].
  repeat split;
    try (pose proof (Z.div_mod (r a + r c) 2);
         pose proof (Z.mod_pos_bound (r a + r c) 2); lia);
    try (pose proof (Z.div_mod (g a + g c) 2);
         pose proof (Z.mod_pos_bound (g a + g c) 2); lia);
    try (pose proof (Z.div_mod (b a + b c) 2);
         pose proof (Z.mod_pos_bound (b a + b c) 2); lia).
  unfold mix_with.
  now rewrite (half_sum_comm (r c)), (half_sum_comm (g c)),
    (half_sum_comm (b c)).
Qed.

Lemma mix_with_truncating_average_witness :
  Color_ok (mkColor 255 0 0) /\ Color_ok (mkColor 0 0 255) /\
  mix_with (mkColor 255 0 0) (mkColor 0 0 255) = mkColor 127 0 127.
Proof.
  assert (H1 : Color_ok (mkColor 255 0 0))
    by (unfold Color_ok, channel_ok; cbn; lia).
  assert (H2 : Color_ok (mkColor 0 0 255))
    by (unfold Color_ok, channel_ok; cbn; lia).
  split; [exact H1 | split; [exact H2 | ]].
  exact (proj1 (mix_with_truncating_average _ _ H1 H2)).
Defined.

(** ** Quality score *)

Lemma is_white_spec (c : Color) :
  is_white c = true <-> (200 < r c /\ 200 < g c /\ 200 < b c)%Z.
Proof.
  unfold is_white; rewrite !andb_true_iff, !Z.ltb_lt; tauto.
Qed.

Lemma spread_range (c : Color) :
  Color_ok c ->
  (0 <= max3 (r c) (g c) (b c) - min3 (r c) (g c) (b c) <= 255)%Z.
Proof. unfold Color_ok, channel_ok, max3, min3; lia. Qed.

Lemma get_brightness_range (c : Color) :
  Color_ok c -> 0 <= get_brightness c <= 1.
Proof.
  intros (Hr & Hg & Hb); unfold channel_ok in *.
  unfold get_brightness.
  assert (H0 : 0 <= IZR (r c + g c + b c)) by (apply IZR_le; lia).
  assert (H1 : IZR (r c + g c + b c) <= IZR (3 * 255)) by (apply IZR_le; lia).
  assert (Hd : 0 < IZR (3 * 255)) by (apply IZR_lt; lia).
  split.
  - apply Rmult_le_pos; [exact H0 | left; now apply Rinv_0_lt_compat].
  - apply (Rmult_le_reg_r (IZR (3 * 255))); [exact Hd | ].
    unfold Rdiv; rewrite Rmult_assoc, Rinv_l by lra; lra.
Qed.

Lemma get_saturation_range (c : Color) :
  Color_ok c -> 0 <= get_saturation c <= 1.
Proof.
  intros Hc; pose proof (spread_range c Hc) as [H0 H1].
  unfold get_saturation.
  destruct (0 <? max3 (r c) (g c) (b c))%Z; [ | lra].
  apply IZR_le in H0, H1.
  set (d := IZR (max3 (r c) (g c) (b c) - min3 (r c) (g c) (b c))) in *.
  lra.
Qed.

(** The balance bonus of a colour: [1 - (max - min) / 255]. *)
Lemma balance_range (c : Color) :
  Color_ok c ->
  0 <= 1 - IZR (max3 (r c) (g c) (b c) - min3 (r c) (g c) (b c)) / 255 <= 1.
Proof.
  intros Hc; pose proof (spread_range c Hc) as [H0 H1].
  apply IZR_le in H0, H1.
  set (d := IZR (max3 (r c) (g c) (b c) - min3 (r c) (g c) (b c))) in *.
  lra.
Qed.

(** C8. For every colour (channels in 0..255) the quality score lies in
    [0, 1]; the colour is near-white exactly when all channels exceed 200
    and then the score is 0; a colour that is not near-white and has
    saturation below 0.1 scores 0.1; every other colour scores
    [brightness * sqrt saturation * (0.7 + 0.3 * balance)] capped at 1,
    with [balance = 1 - (max - min) / 255]. *)
Theorem quality_score_cases (s : GameLogic) (ball : Ball) :
  Color_ok (color ball) ->
  let c := color ball in
  let balance :=
    1 - IZR (max3 (r c) (g c) (b c) - min3 (r c) (g c) (b c)) / 255 in
  0 <= get_ball_quality_score s ball <= 1
  /\ (is_white c = true <-> (200 < r c /\ 200 < g c /\ 200 < b c)%Z)
  /\ (is_white c = true -> get_ball_quality_score s ball = 0)
  /\ (is_white c = false -> get_saturation c < 0.1 ->
      get_ball_quality_score s ball = 0.1)
  /\ (is_white c = false -> ~ get_saturation c < 0.1 ->
      get_ball_quality_score s ball =
        Rmin 1 (get_brightness c * sqrt (get_saturation c)
                * (0.7 + 0.3 * balance))).
Proof.
  intros Hc c balance.
  assert (Habs : Z.abs (max3 (r c) (g c) (b c) - min3 (r c) (g c) (b c))
                 = (max3 (r c) (g c) (b c) - min3 (r c) (g c) (b c))%Z).
  { apply Z.abs_eq. pose proof (spread_range c Hc); lia. }
  assert (Hbody : 0 <= get_brightness c * sqrt (get_saturation c)
                       * (0.7 + 0.3 * balance)).
  { pose proof (get_brightness_range c Hc) as [Hb0 _].
    pose proof (sqrt_pos (get_saturation c)) as Hs0.
    pose proof (balance_range c Hc) as [Hbal0 _].
    fold balance in Hbal0.
    apply Rmult_le_pos; [apply Rmult_le_pos; assumption | lra]. }
  unfold get_ball_quality_score, quality_of_color; fold c.
  rewrite Habs; fold balance.
  split; [ | split; [apply is_white_spec | ]].
  - destruct (is_white c); [lra | ].
    destruct (Rlt_b (get_saturation c) 0.1); [lra | ].
    split.
    + apply Rmin_glb; [lra | exact Hbody].
    + apply Rmin_l.
  - repeat split.
    + intros ->; reflexivity.
    + intros -> Hs. apply Rlt_b_true in Hs; now rewrite Hs.
    + intros -> Hs. apply Rlt_b_false in Hs; now rewrite Hs.
Qed.

Lemma quality_score_cases_witness :
  get_ball_quality_score (GameLogic_init 800 600)
    (mkBall 0 0 0 0 20 (mkColor 220 230 240) FREE 1000) = 0
  /\ get_ball_quality_score (GameLogic_init 800 600)
       (mkBall 0 0 0 0 20 (mkColor 100 100 100) FREE 1000) = 0.1.
Proof.
  split.
  - assert (Hc : Color_ok (mkColor 220 230 240))
      by (unfold Color_ok, channel_ok; cbn; lia).
    apply (quality_score_cases (GameLogic_init 800 600)
             (mkBall 0 0 0 0 20 (mkColor 220 230 240) FREE 1000) Hc).
    reflexivity.
  - assert (Hc : Color_ok (mkColor 100 100 100))
      by (unfold Color_ok, channel_ok; cbn; lia).
    apply (quality_score_cases (GameLogic_init 800 600)
             (mkBall 0 0 0 0 20 (mkColor 100 100 100) FREE 1000) Hc).
    + reflexivity.
    + cbn. unfold get_saturation; cbn. lra.
Defined.

(** ** Calls without a drag in progress *)

(** C10. With no ball being dragged, [drag_ball] returns the state it was
    given and [end_drag] returns [False] together with the state it was
    given: no ball, list or reference changes. *)
Theorem no_drag_calls_are_noops (s : GameLogic) (mouse_x mouse_y : R) :
  dragged_ball s = None ->
  drag_ball s mouse_x mouse_y = s
  /\ end_drag s mouse_x mouse_y = Some (s, false).
Proof.
  intros Hnone; unfold drag_ball, end_drag; now rewrite Hnone.
Qed.

Lemma no_drag_calls_are_noops_witness :
  drag_ball (GameLogic_init 800 600) 10 10 = GameLogic_init 800 600
  /\ end_drag (GameLogic_init 800 600) 10 10
     = Some (GameLogic_init 800 600, false).
Proof.
  apply (no_drag_calls_are_noops (GameLogic_init 800 600) 10 10).
  reflexivity.
Defined.

(** ** Ejecting from the inventory *)

Lemma index_in_range_spec (i : Z) (ls : list loc) :
  index_in_range i ls = true <-> (0 <= i < Z.of_nat (length ls))%Z.
Proof.
  unfold index_in_range; rewrite andb_true_iff, Z.leb_le, Z.ltb_lt; tauto.
Qed.

Lemma uniform_between (a c u : R) :
  unit_draw u -> Rmin a c <= uniform a c u <= Rmax a c.
Proof.
  unfold unit_draw, uniform; intros [H0 H1].
  unfold Rmin, Rmax; destruct (Rle_dec a c); split; nra.
Qed.

Lemma uniform_in_band (a c u : R) :
  a <= c -> unit_draw u -> a <= uniform a c u <= c.
Proof. unfold unit_draw, uniform; intros; split; nra. Qed.

Lemma list_pop_length (i : nat) (ls : list loc) :
  (i < length ls)%nat -> length (list_pop i ls) = Nat.pred (length ls).
Proof.
  intros Hi; unfold list_pop.
  rewrite length_app, length_firstn, length_skipn; lia.
Qed.

(** C7. [eject_ball_from_inventory] returns [True] exactly when the index
    satisfies [0 <= index < len(inventory)].  Then the inventory loses the
    position [index], the ball that was there is appended to the active
    list, its state is FREE, its position is the drawn point of the spawn
    band (x between 50 and width - 50, y in 50..150), its velocity the
    drawn one (components in -2..2), its radius, colour and identifier are
    kept and no other object changes.  For any other index the call returns
    [False] and the state it was given. *)
Theorem eject_ball_from_inventory_spec
    (s : GameLogic) (inventory_index : Z) (d : EjectDraws) :
  valid_eject_draws d ->
  let res := eject_ball_from_inventory s inventory_index d in
  let i := Z.to_nat inventory_index in
  let ball := nth i (inventory s) O in
  (snd res = true <->
     (0 <= inventory_index < Z.of_nat (length (inventory s)))%Z)
  /\ ((0 <= inventory_index < Z.of_nat (length (inventory s)))%Z ->
      inventory (fst res) = firstn i (inventory s) ++ skipn (S i) (inventory s)
      /\ length (inventory (fst res)) = Nat.pred (length (inventory s))
      /\ nth_error (inventory s) i = Some ball
      /\ balls (fst res) = balls s ++ [ball]
      /\ dragged_ball (fst res) = dragged_ball s
      /\ state (heap (fst res) ball) = FREE
      /\ x (heap (fst res) ball)
         = uniform 50 (screen_width s - 50) (eject_x d)
      /\ Rmin 50 (screen_width s - 50) <= x (heap (fst res) ball)
         <= Rmax 50 (screen_width s - 50)
      /\ y (heap (fst res) ball) = uniform 50 150 (eject_y d)
      /\ 50 <= y (heap (fst res) ball) <= 150
      /\ vx (heap (fst res) ball) = uniform (-2) 2 (eject_vx d)
      /\ -2 <= vx (heap (fst res) ball) <= 2
      /\ vy (heap (fst res) ball) = uniform (-2) 2 (eject_vy d)
      /\ -2 <= vy (heap (fst res) ball) <= 2
      /\ radius (heap (fst res) ball) = radius (heap s ball)
      /\ color (heap (fst res) ball) = color (heap s ball)
      /\ id (heap (fst res) ball) = id (heap s ball)
      /\ (forall l, l <> ball -> heap (fst res) l = heap s l))
  /\ (~ (0 <= inventory_index < Z.of_nat (length (inventory s)))%Z ->
      res = (s, false)).
Proof.
  intros (Hx & Hy & Hvx & Hvy) res i ball.
  subst res; unfold eject_ball_from_inventory.
  fold i; fold ball.
  pose proof (index_in_range_spec inventory_index (inventory s)) as Hspec.
  destruct (index_in_range inventory_index (inventory s)) eqn:Hin.
  - assert (Hrange : (0 <= inventory_index
                      < Z.of_nat (length (inventory s)))%Z)
      by now apply Hspec.
    assert (Hi : (i < length (inventory s))%nat) by (subst i; lia).
    split; [cbn [snd]; tauto | ].
    split; [ | intros Hn; contradiction].
    intros _.
    cbn [fst balls inventory dragged_ball heap with_balls with_inventory
         modify with_heap deref].
    rewrite !upd_same.
    cbn [x y vx vy radius color state id with_x with_y with_vx with_vy
         with_state].
    repeat split.
    + now apply list_pop_length.
    + subst ball; now apply nth_error_nth'.
    + apply (uniform_between 50 (screen_width s - 50) _ Hx).
    + apply (uniform_between 50 (screen_width s - 50) _ Hx).
    + apply (uniform_in_band 50 150); [lra | exact Hy].
    + apply (uniform_in_band 50 150); [lra | exact Hy].
    + apply (uniform_in_band (-2) 2); [lra | exact Hvx].
    + apply (uniform_in_band (-2) 2); [lra | exact Hvx].
    + apply (uniform_in_band (-2) 2); [lra | exact Hvy].
    + apply (uniform_in_band (-2) 2); [lra | exact Hvy].
    + intros l Hl. now rewrite !upd_other by exact Hl.
  - split; [cbn [snd]; split; [discriminate | ] | ].
    + intros Hr; apply Hspec in Hr; discriminate.
    + split; [ | reflexivity].
      intros Hr; apply Hspec in Hr; discriminate.
Qed.

Lemma eject_ball_from_inventory_spec_witness :
  valid_eject_draws middle_draws
  /\ snd (eject_ball_from_inventory stocked_game 0 middle_draws) = true
  /\ eject_ball_from_inventory stocked_game 1 middle_draws
     = (stocked_game, false).
Proof.
  assert (Hd : valid_eject_draws middle_draws)
    by (unfold valid_eject_draws, unit_draw; cbn; repeat split; lra).
  split; [exact Hd | split].
  - apply (eject_ball_from_inventory_spec stocked_game 0 middle_draws Hd).
    cbn; lia.
  - apply (eject_ball_from_inventory_spec stocked_game 1 middle_draws Hd).
    cbn; lia.
Defined.

(** ** Frames of physics *)

Lemma physics_only_refl (s : GameLogic) : physics_only s s.
Proof. repeat split. Qed.

Lemma physics_only_trans (s1 s2 s3 : GameLogic) :
  physics_only s1 s2 -> physics_only s2 s3 -> physics_only s1 s3.
Proof.
  intros [(Hb1 & Hi1 & Hd1 & Hn1) H1] [(Hb2 & Hi2 & Hd2 & Hn2) H2].
  split; [repeat split; congruence | ].
  intros l; destruct (H1 l) as (Hs1 & Hid1 & Hr1 & Hk1).
  destruct (H2 l) as (Hs2 & Hid2 & Hr2 & Hk2).
  repeat split; try congruence.
  intros Hnf. rewrite Hk2 by congruence. now apply Hk1.
Qed.

Lemma modify_physics_only (s : GameLogic) (l : loc) (f : Ball -> Ball) :
  motion_update f -> state (heap s l) = FREE ->
  physics_only s (modify l f s).
Proof.
  intros Hf Hfree; split; [repeat split | ].
  intros l'; cbn [modify with_heap heap].
  destruct (Nat.eq_dec l' l) as [-> | Hne].
  - rewrite upd_same. destruct (Hf (heap s l)) as (Hs & Hid & Hr).
    repeat split; try assumption. intros Hnf; congruence.
  - rewrite upd_other by exact Hne. repeat split.
Qed.

Lemma motion_with_x (v : Ball -> R) : motion_update (fun o => with_x (v o) o).
Proof. intros o; repeat split. Qed.
Lemma motion_with_y (v : Ball -> R) : motion_update (fun o => with_y (v o) o).
Proof. intros o; repeat split. Qed.
Lemma motion_with_vx (v : Ball -> R) :
  motion_update (fun o => with_vx (v o) o).
Proof. intros o; repeat split. Qed.
Lemma motion_with_vy (v : Ball -> R) :
  motion_update (fun o => with_vy (v o) o).
Proof. intros o; repeat split. Qed.
Lemma motion_with_color (c : Color) : motion_update (with_color c).
Proof. intros o; repeat split. Qed.

Create HintDb motion.

#[local] Hint Resolve motion_with_x motion_with_y motion_with_vx
  motion_with_vy motion_with_color : motion.

Lemma physics_only_state (s s' : GameLogic) (l : loc) :
  physics_only s s' -> state (heap s' l) = state (heap s l).
Proof. intros [_ H]; apply H. Qed.

(** A chain of assignments on one FREE object. *)
Ltac physics_chain :=
  repeat (eapply physics_only_trans;
          [ | apply modify_physics_only; [auto with motion | ] ]);
  try apply physics_only_refl;
  cbn [modify with_heap heap]; rewrite ?upd_same;
  cbn [state with_x with_y with_vx with_vy with_color]; try assumption.

Lemma update_ball_physics_only (s : GameLogic) (ball : loc) (dt : R) :
  state (heap s ball) = FREE ->
  physics_only s (update_ball_physics s ball dt).
Proof. intros Hfree; unfold update_ball_physics; physics_chain. Qed.

Lemma mix_ball_colors_only (s : GameLogic) (ball1 ball2 : loc) :
  state (heap s ball1) = FREE -> state (heap s ball2) = FREE ->
  physics_only s (mix_ball_colors s ball1 ball2).
Proof.
  intros H1 H2; unfold mix_ball_colors.
  eapply physics_only_trans;
    [ apply modify_physics_only; [auto with motion | exact H1] | ].
  apply modify_physics_only; [auto with motion | ].
  erewrite physics_only_state;
    [exact H2 | apply modify_physics_only; [auto with motion | exact H1]].
Qed.

Lemma modify_chain4 (s : GameLogic) (l1 l2 : loc) (f1 f2 f3 f4 : Ball -> Ball) :
  motion_update f1 -> motion_update f2 -> motion_update f3 ->
  motion_update f4 ->
  state (heap s l1) = FREE -> state (heap s l2) = FREE ->
  physics_only s
    (modify l2 f4 (modify l2 f3 (modify l1 f2 (modify l1 f1 s)))).
Proof.
  intros M1 M2 M3 M4 H1 H2.
  assert (P1 : physics_only s (modify l1 f1 s))
    by (apply modify_physics_only; assumption).
  assert (P2 : physics_only s (modify l1 f2 (modify l1 f1 s))).
  { eapply physics_only_trans; [exact P1 | ].
    apply modify_physics_only; [assumption | ].
    now rewrite (physics_only_state _ _ l1 P1). }
  assert (P3 : physics_only s
                 (modify l2 f3 (modify l1 f2 (modify l1 f1 s)))).
  { eapply physics_only_trans; [exact P2 | ].
    apply modify_physics_only; [assumption | ].
    now rewrite (physics_only_state _ _ l2 P2). }
  eapply physics_only_trans; [exact P3 | ].
  apply modify_physics_only; [assumption | ].
  now rewrite (physics_only_state _ _ l2 P3).
Qed.

Lemma collide_with_only (ball : loc) (s : GameLogic) (other : loc) :
  state (heap s ball) = FREE ->
  physics_only s (collide_with ball s other).
Proof.
  intros Hfree; unfold collide_with.
  destruct (Ball_eqb (deref s other) (deref s ball)); cbn [orb];
    [apply physics_only_refl | ].
  destruct (state (deref s other)) eqn:Hst; cbn [is_FREE negb];
    try apply physics_only_refl.
  match goal with |- context [if ?c then _ else _] => destruct c end;
    [ | apply physics_only_refl].
  assert (Pm : physics_only s (mix_ball_colors s ball other))
    by (apply mix_ball_colors_only; assumption).
  eapply physics_only_trans; [exact Pm | ].
  apply modify_chain4; auto with motion.
  - now rewrite (physics_only_state _ _ ball Pm).
  - now rewrite (physics_only_state _ _ other Pm).
Qed.

Lemma fold_collide_only (ball : loc) (ls : list loc) (s : GameLogic) :
  state (heap s ball) = FREE ->
  physics_only s (fold_left (collide_with ball) ls s).
Proof.
  revert s; induction ls as [ | other rest IH]; intros s Hfree; cbn.
  - apply physics_only_refl.
  - pose proof (collide_with_only ball s other Hfree) as P.
    eapply physics_only_trans; [exact P | ].
    apply IH. now rewrite (physics_only_state _ _ ball P).
Qed.

Lemma check_collisions_only (s : GameLogic) (ball : loc) :
  state (heap s ball) = FREE ->
  physics_only s (check_collisions s ball).
Proof.
  intros H; unfold check_collisions.
  exact (fold_collide_only ball (balls s) s H).
Qed.

Lemma bounce_x_only (s : GameLogic) (ball : loc) :
  state (heap s ball) = FREE -> physics_only s (bounce_x s ball).
Proof.
  intros Hfree; unfold bounce_x.
  destruct (Rlt_b _ 0); [physics_chain | ].
  destruct (Rgt_b _ _); [physics_chain | apply physics_only_refl].
Qed.

Lemma bounce_y_only (s : GameLogic) (ball : loc) :
  state (heap s ball) = FREE -> physics_only s (bounce_y s ball).
Proof.
  intros Hfree; unfold bounce_y.
  destruct (Rlt_b _ 0); [physics_chain | ].
  destruct (Rgt_b _ _); [physics_chain | apply physics_only_refl].
Qed.

Lemma check_boundaries_only (s : GameLogic) (ball : loc) :
  state (heap s ball) = FREE ->
  physics_only s (check_boundaries s ball).
Proof.
  intros Hfree; unfold check_boundaries.
  pose proof (bounce_x_only s ball Hfree) as P1.
  eapply physics_only_trans; [exact P1 | ].
  apply bounce_y_only. now rewrite (physics_only_state _ _ ball P1).
Qed.

Lemma update_one_only (dt : R) (s : GameLogic) (ball : loc) :
  physics_only s (update_one dt s ball).
Proof.
  unfold update_one.
  destruct (state (deref s ball)) eqn:Hst; cbn [is_FREE];
    try apply physics_only_refl.
  unfold deref in Hst.
  pose proof (update_ball_physics_only s ball dt Hst) as P1.
  assert (H1 : state (heap (update_ball_physics s ball dt) ball) = FREE)
    by now rewrite (physics_only_state _ _ ball P1).
  pose proof (check_collisions_only _ ball H1) as P2.
  assert (H2 : state (heap (check_collisions
                 (update_ball_physics s ball dt) ball) ball) = FREE)
    by now rewrite (physics_only_state _ _ ball P2).
  pose proof (check_boundaries_only _ ball H2) as P3.
  eapply physics_only_trans; [exact P1 | ].
  eapply physics_only_trans; [exact P2 | exact P3].
Qed.

Lemma fold_update_one_only (dt : R) (ls : list loc) (s : GameLogic) :
  physics_only s (fold_left (update_one dt) ls s).
Proof.
  revert s; induction ls as [ | ball rest IH]; intros s; cbn.
  - apply physics_only_refl.
  - eapply physics_only_trans; [apply update_one_only | apply IH].
Qed.

Lemma update_only (s : GameLogic) (dt : R) : physics_only s (update s dt).
Proof. unfold update; exact (fold_update_one_only dt (balls s) s). Qed.

(** ** Integration *)

Ltac heap_simpl :=
  cbn [modify with_heap heap deref with_balls with_inventory
       with_dragged_ball with_drag_offset with_next_loc balls inventory
       dragged_ball screen_width screen_height bounce_damping friction
       gravity next_loc drag_offset_x drag_offset_y delete_zone_y
       delete_zone_height min_color_value max_color_value];
  rewrite ?upd_same;
  cbn [x y vx vy radius color state id with_x with_y with_vx with_vy
       with_color with_state].

Lemma update_ball_physics_ball (s : GameLogic) (ball : loc) (dt : R) :
  heap (update_ball_physics s ball dt) ball =
    let o := heap s ball in
    let vy1 := vy o + gravity s * dt in
    mkBall (x o + vx o * dt) (y o + vy1 * dt) (vx o * friction s)
      (vy1 * friction s) (radius o) (color o) (state o) (id o).
Proof. unfold update_ball_physics; heap_simpl; reflexivity. Qed.

Lemma update_ball_physics_other (s : GameLogic) (ball l : loc) (dt : R) :
  l <> ball -> heap (update_ball_physics s ball dt) l = heap s l.
Proof.
  intros Hne; unfold update_ball_physics; heap_simpl.
  now rewrite !upd_other by exact Hne.
Qed.

Lemma check_collisions_alone (s : GameLogic) (ball : loc) :
  balls s = [ball] -> check_collisions s ball = s.
Proof.
  intros Hb; unfold check_collisions; rewrite Hb; cbn [fold_left].
  unfold collide_with. now rewrite Ball_eqb_refl.
Qed.

(** C4. [_update_ball_physics] on a ball adds [gravity * dt] to [vy], then
    moves [x] by the unchanged [vx * dt] and [y] by the new [vy * dt], and
    only then multiplies both velocity components by the friction; nothing
    else of the ball and no other object changes.  [update] runs this, then
    the collision pass, then the boundary pass, for each active ball that is
    FREE at its turn and skips every other ball, so an object that is not
    FREE is the same after [update]. *)
Theorem update_integration_order (s : GameLogic) (dt : R) (ball : loc) :
  let o := heap s ball in
  let s1 := update_ball_physics s ball dt in
  let o1 := heap s1 ball in
  let vy1 := vy o + gravity s * dt in
  x o1 = x o + vx o * dt
  /\ y o1 = y o + vy1 * dt
  /\ vx o1 = vx o * friction s
  /\ vy o1 = vy1 * friction s
  /\ radius o1 = radius o /\ color o1 = color o
  /\ state o1 = state o /\ id o1 = id o
  /\ (forall l, l <> ball -> heap s1 l = heap s l)
  /\ (state o = FREE ->
      update_one dt s ball
      = check_boundaries (check_collisions s1 ball) ball)
  /\ (state o <> FREE -> update_one dt s ball = s)
  /\ update s dt = fold_left (update_one dt) (balls s) s
  /\ (forall l, state (heap s l) <> FREE -> heap (update s dt) l = heap s l)
  /\ (balls s = [ball] -> state o = FREE ->
      update s dt = check_boundaries s1 ball).
Proof.
  intros o s1 o1 vy1.
  assert (Ho1 : o1 = mkBall (x o + vx o * dt) (y o + vy1 * dt)
                       (vx o * friction s) (vy1 * friction s) (radius o)
                       (color o) (state o) (id o))
    by apply update_ball_physics_ball.
  rewrite Ho1; cbn [x y vx vy radius color state id].
  repeat split.
  - intros l Hne; now apply update_ball_physics_other.
  - intros Hfree; unfold update_one, deref; fold o; now rewrite Hfree.
  - intros Hnf; unfold update_one, deref; fold o.
    destruct (state o); [congruence | reflexivity | reflexivity].
  - intros l Hnf. destruct (update_only s dt) as [_ H].
    now apply (H l).
  - intros Hb Hfree. unfold update; rewrite Hb; cbn [fold_left].
    unfold update_one, deref; fold o; rewrite Hfree; cbn [is_FREE].
    fold s1. rewrite check_collisions_alone; [reflexivity | ].
    destruct (update_ball_physics_only s ball dt Hfree) as [(Hbs & _) _].
    subst s1; now rewrite Hbs.
Qed.

Lemma update_integration_order_witness :
  update demo_game 1
  = check_boundaries (update_ball_physics demo_game O 1) O.
Proof.
  apply (update_integration_order demo_game 1 O); reflexivity.
Defined.

(** ** Walls *)

Lemma bounce_x_params (s : GameLogic) (ball : loc) :
  screen_height (bounce_x s ball) = screen_height s
  /\ bounce_damping (bounce_x s ball) = bounce_damping s.
Proof.
  unfold bounce_x.
  destruct (Rlt_b _ 0); [split; reflexivity | ].
  destruct (Rgt_b _ _); split; reflexivity.
Qed.

Lemma bounce_x_ball (s : GameLogic) (ball : loc) :
  let o := heap s ball in
  heap (bounce_x s ball) ball =
    if Rlt_b (x o - radius o) 0
    then with_vx (Rabs (vx o) * bounce_damping s) (with_x (radius o) o)
    else if Rgt_b (x o + radius o) (screen_width s)
    then with_vx (- Rabs (vx o) * bounce_damping s)
           (with_x (screen_width s - radius o) o)
    else o.
Proof.
  intros o; unfold bounce_x, deref; fold o.
  destruct (Rlt_b _ 0); [heap_simpl; reflexivity | ].
  destruct (Rgt_b _ _); [heap_simpl; reflexivity | reflexivity].
Qed.

Lemma bounce_y_ball (s : GameLogic) (ball : loc) :
  let o := heap s ball in
  heap (bounce_y s ball) ball =
    if Rlt_b (y o - radius o) 0
    then with_vy (Rabs (vy o) * bounce_damping s) (with_y (radius o) o)
    else if Rgt_b (y o + radius o) (screen_height s)
    then with_vy (- Rabs (vy o) * bounce_damping s)
           (with_y (screen_height s - radius o) o)
    else o.
Proof.
  intros o; unfold bounce_y, deref; fold o.
  destruct (Rlt_b _ 0); [heap_simpl; reflexivity | ].
  destruct (Rgt_b _ _); [heap_simpl; reflexivity | reflexivity].
Qed.

Lemma bounce_x_other (s : GameLogic) (ball l : loc) :
  l <> ball -> heap (bounce_x s ball) l = heap s l.
Proof.
  intros Hne; unfold bounce_x.
  destruct (Rlt_b _ 0);
    [heap_simpl; now rewrite !upd_other by exact Hne | ].
  destruct (Rgt_b _ _); [ | reflexivity].
  heap_simpl; now rewrite !upd_other by exact Hne.
Qed.

Lemma bounce_y_other (s : GameLogic) (ball l : loc) :
  l <> ball -> heap (bounce_y s ball) l = heap s l.
Proof.
  intros Hne; unfold bounce_y.
  destruct (Rlt_b _ 0);
    [heap_simpl; now rewrite !upd_other by exact Hne | ].
  destruct (Rgt_b _ _); [ | reflexivity].
  heap_simpl; now rewrite !upd_other by exact Hne.
Qed.

(** The ball after the whole boundary pass. *)
Lemma check_boundaries_ball (s : GameLogic) (ball : loc) :
  let o := heap s ball in
  let ox := heap (bounce_x s ball) ball in
  heap (check_boundaries s ball) ball =
    if Rlt_b (y ox - radius ox) 0
    then with_vy (Rabs (vy ox) * bounce_damping s) (with_y (radius ox) ox)
    else if Rgt_b (y ox + radius ox) (screen_height s)
    then with_vy (- Rabs (vy ox) * bounce_damping s)
           (with_y (screen_height s - radius ox) ox)
    else ox.
Proof.
  intros o ox; unfold check_boundaries.
  rewrite bounce_y_ball; cbv zeta; fold ox.
  destruct (bounce_x_params s ball) as [-> ->]; reflexivity.
Qed.

Lemma bounce_x_keeps_y (s : GameLogic) (ball : loc) :
  let o := heap s ball in
  let ox := heap (bounce_x s ball) ball in
  y ox = y o /\ vy ox = vy o /\ radius ox = radius o /\
  color ox = color o /\ state ox = state o /\ id ox = id o.
Proof.
  intros o ox; subst ox; rewrite bounce_x_ball; cbv zeta; fold o.
  destruct (Rlt_b _ 0); [repeat split | ].
  destruct (Rgt_b _ _); repeat split.
Qed.

Lemma bounce_y_keeps_x (s : GameLogic) (ball : loc) :
  let o := heap s ball in
  let oy := heap (bounce_y s ball) ball in
  x oy = x o /\ vx oy = vx o /\ radius oy = radius o /\
  color oy = color o /\ state oy = state o /\ id oy = id o.
Proof.
  intros o oy; subst oy; rewrite bounce_y_ball; cbv zeta; fold o.
  destruct (Rlt_b _ 0); [repeat split | ].
  destruct (Rgt_b _ _); repeat split.
Qed.

Lemma Rabs_scaled_sign (v k : R) :
  0 < k -> 0 <= Rabs v * k /\ (v <> 0 -> 0 < Rabs v * k).
Proof.
  intros Hk; split.
  - apply Rmult_le_pos; [apply Rabs_pos | lra].
  - intros Hv; apply Rmult_lt_0_compat; [now apply Rabs_pos_lt | exact Hk].
Qed.

Lemma Rabs_minus_one : Rabs (-1) = 1.
Proof. unfold Rabs; destruct (Rcase_abs (-1)); lra. Qed.

(** C5, as the code has it.  The boundary pass tests the left wall before
    the right one and the top wall before the bottom one, and handles at
    most one wall per axis.  A ball with [x - radius < 0] gets [x = radius]
    and [vx = abs(vx) * bounce_damping], which is never negative and is
    positive as soon as [vx] is not 0, whatever the sign of [vx] was;
    otherwise a ball with [x + radius > screen_width] gets
    [x = screen_width - radius] and [vx = - abs(vx) * bounce_damping];
    otherwise [x] and [vx] are kept.  The same holds for [y], [vy] and the
    height.  Radius, colour, state and identifier are kept and no other
    object changes. *)
Theorem check_boundaries_spec (s : GameLogic) (ball : loc) :
  0 < bounce_damping s ->
  let o := heap s ball in
  let o' := heap (check_boundaries s ball) ball in
  let k := bounce_damping s in
  (x o - radius o < 0 ->
     x o' = radius o /\ vx o' = Rabs (vx o) * k
     /\ 0 <= vx o' /\ (vx o <> 0 -> 0 < vx o'))
  /\ (~ x o - radius o < 0 -> x o + radius o > screen_width s ->
     x o' = screen_width s - radius o /\ vx o' = - Rabs (vx o) * k
     /\ vx o' <= 0 /\ (vx o <> 0 -> vx o' < 0))
  /\ (~ x o - radius o < 0 -> ~ x o + radius o > screen_width s ->
     x o' = x o /\ vx o' = vx o)
  /\ (y o - radius o < 0 ->
     y o' = radius o /\ vy o' = Rabs (vy o) * k
     /\ 0 <= vy o' /\ (vy o <> 0 -> 0 < vy o'))
  /\ (~ y o - radius o < 0 -> y o + radius o > screen_height s ->
     y o' = screen_height s - radius o /\ vy o' = - Rabs (vy o) * k
     /\ vy o' <= 0 /\ (vy o <> 0 -> vy o' < 0))
  /\ (~ y o - radius o < 0 -> ~ y o + radius o > screen_height s ->
     y o' = y o /\ vy o' = vy o)
  /\ radius o' = radius o /\ color o' = color o
  /\ state o' = state o /\ id o' = id o
  /\ (forall l, l <> ball -> heap (check_boundaries s ball) l = heap s l).
Proof.
  intros Hk o o' k.
  set (ox := heap (bounce_x s ball) ball).
  destruct (bounce_y_keeps_x (bounce_x s ball) ball)
    as (Kx & Kvx & Kr & Kc & Ks & Ki).
  fold ox in Kx, Kvx, Kr, Kc, Ks, Ki.
  change (heap (bounce_y (bounce_x s ball) ball) ball) with o'
    in Kx, Kvx, Kr, Kc, Ks, Ki.
  destruct (bounce_x_keeps_y s ball) as (Ly & Lvy & Lr & Lc & Ls & Li).
  fold ox in Ly, Lvy, Lr, Lc, Ls, Li; fold o in Ly, Lvy, Lr, Lc, Ls, Li.
  pose proof (bounce_x_ball s ball) as Bx; cbv zeta in Bx.
  fold o in Bx; fold ox in Bx; fold k in Bx.
  pose proof (check_boundaries_ball s ball) as By; cbv zeta in By.
  fold ox in By; fold o' in By; fold k in By.
  rewrite Ly, Lvy, Lr in By.
  pose proof (Rabs_scaled_sign (vx o) k Hk) as [Sx0 Sx1].
  pose proof (Rabs_scaled_sign (vy o) k Hk) as [Sy0 Sy1].
  rewrite Kx, Kvx, Kr, Kc, Ks, Ki, Lr, Lc, Ls, Li.
  split; [ | split; [ | split]].
  - intros Hl. apply Rlt_b_true in Hl. rewrite Hl in Bx.
    rewrite Bx; cbn [x vx with_x with_vx]. auto.
  - intros Hl Hr. apply Rlt_b_false in Hl. apply Rlt_b_true in Hr.
    unfold Rgt_b in Bx. rewrite Hl, Hr in Bx.
    rewrite Bx; cbn [x vx with_x with_vx].
    repeat split; [lra | ]. intros Hv; specialize (Sx1 Hv); lra.
  - intros Hl Hr. apply Rlt_b_false in Hl. apply Rlt_b_false in Hr.
    unfold Rgt_b in Bx. rewrite Hl, Hr in Bx. now rewrite Bx.
  - split; [ | split; [ | split]].
    + intros Hl. apply Rlt_b_true in Hl. rewrite Hl in By.
      rewrite By; cbn [y vy with_y with_vy]. auto.
    + intros Hl Hr. apply Rlt_b_false in Hl. apply Rlt_b_true in Hr.
      unfold Rgt_b in By. rewrite Hl, Hr in By.
      rewrite By; cbn [y vy with_y with_vy].
      repeat split; [lra | ]. intros Hv; specialize (Sy1 Hv); lra.
    + intros Hl Hr. apply Rlt_b_false in Hl. apply Rlt_b_false in Hr.
      unfold Rgt_b in By. rewrite Hl, Hr in By.
      rewrite By. now rewrite Ly, Lvy.
    + repeat split. intros l Hne. unfold check_boundaries.
      rewrite bounce_y_other by exact Hne. now apply bounce_x_other.
Qed.

Lemma check_boundaries_spec_witness :
  0 < bounce_damping (sample_game [wide_ball] [O] [])
  /\ x (heap (check_boundaries (sample_game [wide_ball] [O] []) O) O) = 500
  /\ vx (heap (check_boundaries (sample_game [wide_ball] [O] []) O) O)
     = Rabs (-1) * 0.8.
Proof.
  assert (Hk : 0 < bounce_damping (sample_game [wide_ball] [O] []))
    by (cbn; lra).
  split; [exact Hk | ].
  assert (Hl : x (heap (sample_game [wide_ball] [O] []) O)
               - radius (heap (sample_game [wide_ball] [O] []) O) < 0)
    by (cbn; lra).
  destruct (check_boundaries_spec (sample_game [wide_ball] [O] []) O Hk)
    as (H & _).
  destruct (H Hl) as (H1 & H2 & _).
  split; [exact H1 | exact H2].
Defined.

(** C5 as stated fails at two inputs.  A FREE ball at rest that overlaps
    the left wall keeps [vx = 0], which is not positive.  A FREE ball wider
    than the arena overlaps the right wall too, but is put at [x = radius],
    not at [screen_width - radius], and is sent to the right. *)
Lemma check_boundaries_not_every_wall :
  (let s := sample_game [resting_ball] [O] [] in
   state (heap s O) = FREE
   /\ x (heap s O) - radius (heap s O) < 0
   /\ vx (heap (check_boundaries s O) O) = 0
   /\ ~ 0 < vx (heap (check_boundaries s O) O))
  /\ (let s := sample_game [wide_ball] [O] [] in
      state (heap s O) = FREE
      /\ x (heap s O) + radius (heap s O) > screen_width s
      /\ x (heap (check_boundaries s O) O) = 500
      /\ x (heap (check_boundaries s O) O)
         <> screen_width s - radius (heap s O)
      /\ 0 < vx (heap (check_boundaries s O) O)).
Proof.
  split.
  - cbv zeta.
    destruct (bounce_y_keeps_x
                (bounce_x (sample_game [resting_ball] [O] []) O) O)
      as (Kx & Kvx & _).
    change (heap (bounce_y (bounce_x (sample_game [resting_ball] [O] []) O)
                    O) O)
      with (heap (check_boundaries (sample_game [resting_ball] [O] []) O) O)
      in Kx, Kvx.
    rewrite Kvx, bounce_x_ball; cbv zeta.
    assert (Hl : Rlt_b (x (heap (sample_game [resting_ball] [O] []) O)
                        - radius (heap (sample_game [resting_ball] [O] []) O))
                   0 = true) by (apply Rlt_b_true; cbn; lra).
    rewrite Hl.
    cbn [sample_game heap_of_list with_inventory with_balls with_next_loc
         with_heap heap resting_ball x vx radius state with_x with_vx
         bounce_damping GameLogic_init].
    rewrite Rabs_R0.
    repeat split; lra.
  - cbv zeta.
    destruct (bounce_y_keeps_x
                (bounce_x (sample_game [wide_ball] [O] []) O) O)
      as (Kx & Kvx & _).
    change (heap (bounce_y (bounce_x (sample_game [wide_ball] [O] []) O)
                    O) O)
      with (heap (check_boundaries (sample_game [wide_ball] [O] []) O) O)
      in Kx, Kvx.
    rewrite Kx, Kvx, bounce_x_ball; cbv zeta.
    assert (Hl : Rlt_b (x (heap (sample_game [wide_ball] [O] []) O)
                        - radius (heap (sample_game [wide_ball] [O] []) O))
                   0 = true) by (apply Rlt_b_true; cbn; lra).
    rewrite Hl.
    cbn [sample_game heap_of_list with_inventory with_balls with_next_loc
         with_heap heap wide_ball x vx radius state with_x with_vx
         bounce_damping screen_width GameLogic_init].
    rewrite Rabs_minus_one.
    repeat split; lra.
Qed.

(** ** Collisions *)

Lemma distance_to_self (o : Ball) : distance_to o (x o) (y o) = 0.
Proof.
  unfold distance_to.
  replace ((x o - x o) ^ 2 + (y o - y o) ^ 2) with 0 by ring.
  apply sqrt_0.
Qed.

Lemma distance_to_nonneg (o : Ball) (px py : R) : 0 <= distance_to o px py.
Proof. apply sqrt_pos. Qed.




Lemma collide_with_self (s : GameLogic) (ball : loc) :
  collide_with ball s ball = s.
Proof. unfold collide_with; now rewrite Ball_eqb_refl. Qed.




(** ** Lists of references *)

Section RemoveByValue.

Variable h : Heap.
Variable v : Ball.

Lemma list_remove_incl (ls ls' : list loc) :
  list_remove h v ls = Some ls' -> incl ls' ls.
Proof.
  revert ls'; induction ls as [ | l rest IH]; intros ls' H; cbn in H.
  - discriminate.
  - destruct (Ball_eqb (h l) v).
    + injection H as <-. apply incl_tl, incl_refl.
    + destruct (list_remove h v rest) as [rest' | ]; [ | discriminate].
      injection H as <-. intros a [-> | Ha]; [now left | right].
      now apply (IH rest').
Qed.

(** When [d] is the only element of [ls] whose object equals [v], the
    element that [ls.remove(v)] drops is [d]. *)
Lemma list_remove_unique (d : loc) (ls : list loc) :
  NoDup ls -> In d ls -> h d = v ->
  (forall l, In l ls -> l <> d -> h l <> v) ->
  list_remove h v ls = Some (remove Nat.eq_dec d ls).
Proof.
  intros Hnd; induction Hnd as [ | l rest Hnotin Hnd IH];
    intros Hin Hd Hothers; [contradiction | ].
  cbn [list_remove remove].
  destruct (Nat.eq_dec d l) as [-> | Hne].
  - rewrite Hd, Ball_eqb_refl. now rewrite notin_remove.
  - destruct Hin as [-> | Hin]; [contradiction | ].
    assert (Hl : Ball_eqb (h l) v = false).
    { apply Ball_eqb_false, Hothers; [now left | congruence]. }
    rewrite Hl, IH; try assumption; [reflexivity | ].
    intros l' Hl' Hne'; apply Hothers; [now right | exact Hne'].
Qed.

Lemma list_contains_present (d : loc) (ls : list loc) :
  In d ls -> h d = v -> list_contains h v ls = true.
Proof.
  intros Hin Hd; induction ls as [ | l rest IH]; [contradiction | ].
  cbn. destruct (Ball_eqb (h l) v) eqn:E; [reflexivity | ].
  destruct Hin as [-> | Hin]; [ | now apply IH].
  rewrite Hd, Ball_eqb_refl in E; discriminate.
Qed.

Lemma list_contains_absent (ls : list loc) :
  (forall l, In l ls -> h l <> v) -> list_contains h v ls = false.
Proof.
  induction ls as [ | l rest IH]; intros H; [reflexivity | ].
  cbn. assert (E : Ball_eqb (h l) v = false)
    by (apply Ball_eqb_false, H; now left).
  rewrite E. apply IH. intros l' Hl'; apply H; now right.
Qed.

End RemoveByValue.

Lemma NoDup_remove_loc (d : loc) (ls : list loc) :
  NoDup ls -> NoDup (remove Nat.eq_dec d ls).
Proof.
  induction 1 as [ | l rest Hnotin Hnd IH]; cbn; [constructor | ].
  destruct (Nat.eq_dec d l); [exact IH | ].
  constructor; [ | exact IH].
  intros Hin; apply in_remove in Hin; tauto.
Qed.

Lemma list_pop_split (i : nat) (ls : list loc) :
  (i < length ls)%nat ->
  ls = firstn i ls ++ nth i ls O :: skipn (S i) ls.
Proof.
  revert i; induction ls as [ | l rest IH]; intros i Hi; cbn in Hi; [lia | ].
  destruct i as [ | i]; [reflexivity | ].
  cbn [firstn nth skipn app]. f_equal. apply IH; lia.
Qed.

Lemma list_pop_NoDup (i : nat) (ls : list loc) :
  (i < length ls)%nat -> NoDup ls ->
  NoDup (list_pop i ls) /\ ~ In (nth i ls O) (list_pop i ls).
Proof.
  intros Hi Hnd; unfold list_pop.
  rewrite (list_pop_split i ls Hi) in Hnd at 1.
  now apply NoDup_remove.
Qed.

Lemma list_pop_incl (i : nat) (ls : list loc) : incl (list_pop i ls) ls.
Proof.
  unfold list_pop; intros a Ha; apply in_app_or in Ha.
  destruct Ha as [Ha | Ha].
  - rewrite <- (firstn_skipn i ls); apply in_or_app; now left.
  - rewrite <- (firstn_skipn (S i) ls); apply in_or_app; now right.
Qed.

Lemma first_grabbable_some (h : Heap) (mx my : R) (ls : list loc) (l : loc) :
  first_grabbable h mx my ls = Some l ->
  In l ls /\ state (h l) = FREE
  /\ distance_to (h l) mx my <= radius (h l).
Proof.
  induction ls as [ | l0 rest IH]; cbn; [discriminate | ].
  destruct (grabbable h mx my l0) eqn:G.
  - intros [= <-]. unfold grabbable in G.
    apply andb_true_iff in G as [G1 G2].
    apply Rle_b_true in G2.
    split; [now left | split; [ | exact G2]].
    destruct (state (h l0)); [reflexivity | discriminate | discriminate].
  - intros H; destruct (IH H) as (H1 & H2 & H3).
    split; [now right | split; assumption].
Qed.

(** ** Releasing the dragged ball *)

Lemma is_in_delete_zone_spec (s : GameLogic) (px py : R) :
  is_in_delete_zone s px py = true
  <-> delete_zone_y s <= py <= delete_zone_y s + delete_zone_height s.
Proof.
  unfold is_in_delete_zone, Rge_b.
  rewrite andb_true_iff, !Rle_b_true; tauto.
Qed.

Lemma delete_ball_dragged (s : GameLogic) (d : loc) :
  drag_inv s -> dragged_ball s = Some d ->
  delete_ball s d = with_balls (remove Nat.eq_dec d (balls s)) s.
Proof.
  intros (Hnd & _ & _ & Hinv & Hdrag) Hd; rewrite Hd in Hdrag.
  destruct Hdrag as (Hin & Hst & Hfree).
  unfold delete_ball, deref.
  rewrite (list_contains_present (heap s) (heap s d) d (balls s) Hin eq_refl).
  rewrite (list_remove_unique (heap s) (heap s d) d (balls s) Hnd Hin eq_refl).
  - cbn [heap with_balls inventory].
    rewrite list_contains_absent; [reflexivity | ].
    intros l Hl Heq. apply Hinv in Hl. rewrite Heq in Hl. congruence.
  - intros l Hl Hne Heq. specialize (Hfree l Hl Hne).
    rewrite Heq in Hfree. congruence.
Qed.

Lemma add_to_inventory_dragged (s : GameLogic) (d : loc) :
  drag_inv s -> dragged_ball s = Some d ->
  add_to_inventory s d =
    Some (with_inventory (inventory s ++ [d])
            (with_balls (remove Nat.eq_dec d (balls s))
               (modify d (with_state IN_INVENTORY) s))).
Proof.
  intros (Hnd & _ & _ & Hinv & Hdrag) Hd; rewrite Hd in Hdrag.
  destruct Hdrag as (Hin & Hst & Hfree).
  unfold add_to_inventory, deref.
  cbn [modify with_heap heap balls].
  rewrite (list_remove_unique _ _ d (balls s) Hnd Hin eq_refl);
    [reflexivity | ].
  intros l Hl Hne. rewrite upd_same, upd_other by exact Hne.
  intros Heq. specialize (Hfree l Hl Hne).
  rewrite Heq in Hfree. cbn in Hfree. congruence.
Qed.


(** ** What each call keeps *)

Lemma physics_only_states_kept (s s' : GameLogic) :
  physics_only s s' -> states_kept s s'.
Proof. intros [Hf H]; split; [exact Hf | intros l; apply H]. Qed.

Lemma physics_only_ids_kept (s s' : GameLogic) :
  physics_only s s' -> ids_kept s s'.
Proof. intros [_ H] l; apply H. Qed.

Lemma delete_ball_heap (s : GameLogic) (ball : loc) :
  heap (delete_ball s ball) = heap s.
Proof.
  unfold delete_ball.
  destruct (list_contains (heap s) (deref s ball) (balls s)).
  - destruct (list_remove (heap s) (deref s ball) (balls s));
      cbn [heap with_balls inventory deref];
      match goal with |- context [list_contains ?h ?v ?ls] =>
        destruct (list_contains h v ls) end;
      try reflexivity;
      match goal with |- context [list_remove ?h ?v ?ls] =>
        destruct (list_remove h v ls) end; reflexivity.
  - destruct (list_contains (heap s) (deref s ball) (inventory s));
      [ | reflexivity].
    destruct (list_remove (heap s) (deref s ball) (inventory s));
      reflexivity.
Qed.

Lemma delete_ball_lists (s : GameLogic) (ball : loc) :
  incl (balls (delete_ball s ball)) (balls s)
  /\ incl (inventory (delete_ball s ball)) (inventory s)
  /\ next_loc (delete_ball s ball) = next_loc s.
Proof.
  unfold delete_ball.
  set (s1 := if list_contains (heap s) (deref s ball) (balls s)
             then _ else s).
  assert (H1 : incl (balls s1) (balls s) /\ inventory s1 = inventory s
               /\ next_loc s1 = next_loc s).
  { subst s1. destruct (list_contains (heap s) (deref s ball) (balls s));
      [ | repeat split; apply incl_refl].
    destruct (list_remove (heap s) (deref s ball) (balls s)) eqn:E;
      [ | repeat split; apply incl_refl].
    repeat split. cbn [balls with_balls].
    now apply (list_remove_incl (heap s) (deref s ball)). }
  destruct H1 as (Hb & Hi & Hn).
  destruct (list_contains (heap s1) (deref s1 ball) (inventory s1));
    [ | rewrite Hi, Hn; repeat split; [exact Hb | apply incl_refl]].
  destruct (list_remove (heap s1) (deref s1 ball) (inventory s1)) eqn:E;
    [ | rewrite Hi, Hn; repeat split; [exact Hb | apply incl_refl]].
  cbn [balls inventory next_loc with_inventory].
  repeat split; [exact Hb | | exact Hn].
  rewrite <- Hi. now apply (list_remove_incl (heap s1) (deref s1 ball)).
Qed.

Lemma add_to_inventory_some (s s1 : GameLogic) (ball : loc) :
  add_to_inventory s ball = Some s1 ->
  heap s1 = upd (heap s) ball (with_state IN_INVENTORY (heap s ball))
  /\ incl (balls s1) (balls s)
  /\ inventory s1 = inventory s ++ [ball]
  /\ next_loc s1 = next_loc s.
Proof.
  unfold add_to_inventory.
  destruct (list_remove _ _ _) eqn:E; [ | discriminate].
  intros [= <-]. cbn [heap balls inventory next_loc with_inventory
                      with_balls modify with_heap].
  repeat split. cbn [modify with_heap balls] in E.
  now apply list_remove_incl in E.
Qed.

(** No call other than [add_ball] changes an identifier, and [add_ball]
    only writes the fresh location. *)
Lemma exec_ids (s s' : GameLogic) (c : Command) :
  exec s c = Some s' ->
  forall l, (forall x0 y0 r0 d, c = AddBall x0 y0 r0 d -> l <> next_loc s) ->
            id (heap s' l) = id (heap s l).
Proof.
  intros Hexec l Hfresh.
  destruct c as [x0 y0 r0 d | dt | mx my | mx my | mx my | i d | ];
    cbn [exec] in Hexec.
  - injection Hexec as <-. cbn [add_ball snd heap with_balls with_next_loc
                                 with_heap].
    apply f_equal, upd_other, (Hfresh x0 y0 r0 d eq_refl).
  - injection Hexec as <-. apply physics_only_ids_kept, update_only.
  - injection Hexec as <-. unfold start_drag.
    destruct (first_grabbable _ _ _ _); [ | reflexivity].
    cbn [fst]; heap_simpl.
    unfold upd; destruct (Nat.eqb l l0) eqn:E; [ | reflexivity].
    apply Nat.eqb_eq in E; now subst.
  - injection Hexec as <-. unfold drag_ball.
    destruct (dragged_ball s) as [ball | ]; [ | reflexivity].
    destruct (is_BEING_DRAGGED _); [ | reflexivity].
    heap_simpl. unfold upd; destruct (Nat.eqb l ball) eqn:E; [ | reflexivity].
    apply Nat.eqb_eq in E; now subst.
  - unfold end_drag in Hexec.
    destruct (dragged_ball s) as [ball | ]; [ | now injection Hexec as <-].
    destruct (is_in_delete_zone s mx my).
    + injection Hexec as <-. cbn [heap with_dragged_ball].
      now rewrite delete_ball_heap.
    + destruct (Rle_b _ 30).
      * destruct (add_to_inventory s ball) as [s1 | ] eqn:E; [ | discriminate].
        injection Hexec as <-. cbn [heap with_dragged_ball].
        apply add_to_inventory_some in E as (-> & _).
        unfold upd; destruct (Nat.eqb l ball) eqn:E; [ | reflexivity].
        apply Nat.eqb_eq in E; now subst.
      * injection Hexec as <-. heap_simpl.
        unfold upd; destruct (Nat.eqb l ball) eqn:E; [ | reflexivity].
        apply Nat.eqb_eq in E; now subst.
  - injection Hexec as <-. unfold eject_ball_from_inventory.
    destruct (index_in_range i (inventory s)); [ | reflexivity].
    cbn [fst]; heap_simpl.
    unfold upd; destruct (Nat.eqb l _) eqn:E; [ | reflexivity].
    apply Nat.eqb_eq in E; now subst.
  - injection Hexec as <-. reflexivity.
Qed.

(** ** Allocation *)

Lemma alloc_inv_init (w h : R) : alloc_inv (GameLogic_init w h).
Proof. split; [intros l [] | discriminate]. Qed.

Lemma nth_in_range (i : Z) (ls : list loc) :
  index_in_range i ls = true -> In (nth (Z.to_nat i) ls O) ls.
Proof.
  intros H; apply index_in_range_spec in H. apply nth_In; lia.
Qed.

Lemma exec_alloc_inv (s s' : GameLogic) (c : Command) :
  alloc_inv s -> exec s c = Some s' -> alloc_inv s'.
Proof.
  intros [Hmem Hdrag] Hexec.
  destruct c as [x0 y0 r0 d | dt | mx my | mx my | mx my | i d | ];
    cbn [exec] in Hexec.
  - injection Hexec as <-.
    cbn [add_ball snd]; split; heap_simpl.
    + intros l Hl. rewrite <- app_assoc in Hl. apply in_app_or in Hl.
      destruct Hl as [Hl | Hl].
      * apply Nat.lt_lt_succ_r, Hmem, in_or_app; now left.
      * cbn in Hl. destruct Hl as [<- | Hl]; [lia | ].
        apply Nat.lt_lt_succ_r, Hmem, in_or_app; now right.
    + intros d0 Hd0. apply in_or_app; left; now apply Hdrag.
  - injection Hexec as <-.
    destruct (update_only s dt) as [(Hb & Hi & Hd & Hn) _].
    split; rewrite ?Hb, ?Hi, ?Hd, ?Hn; assumption.
  - injection Hexec as <-. unfold start_drag.
    destruct (first_grabbable _ _ _ _) as [ball | ] eqn:E; cbn [fst];
      [ | split; assumption].
    split; heap_simpl; [exact Hmem | ].
    intros d0 [= <-]. apply first_grabbable_some in E as (Hin & _).
    now apply in_rev in Hin.
  - injection Hexec as <-. unfold drag_ball.
    destruct (dragged_ball s) as [ball | ] eqn:E;
      [ | split; [assumption | now rewrite E]].
    destruct (is_BEING_DRAGGED _); [ | split; [assumption | now rewrite E]].
    split; heap_simpl; [exact Hmem | now rewrite E].
  - unfold end_drag in Hexec.
    destruct (dragged_ball s) as [ball | ] eqn:E;
      [ | injection Hexec as <-; split; [assumption | now rewrite E]].
    destruct (is_in_delete_zone s mx my).
    + injection Hexec as <-.
      destruct (delete_ball_lists s ball) as (Hb & Hi & Hn).
      split; cbn [balls inventory dragged_ball next_loc with_dragged_ball];
        [ | discriminate].
      intros l Hl. rewrite Hn. apply Hmem.
      apply in_app_or in Hl; apply in_or_app.
      destruct Hl; [left; now apply Hb | right; now apply Hi].
    + destruct (Rle_b _ 30).
      * destruct (add_to_inventory s ball) as [s1 | ] eqn:E1;
          [ | discriminate].
        injection Hexec as <-.
        apply add_to_inventory_some in E1 as (_ & Hb & Hi & Hn).
        split;
          cbn [balls inventory dragged_ball next_loc with_dragged_ball];
          [ | discriminate].
        intros l Hl. rewrite Hn. rewrite Hi in Hl.
        apply in_app_or in Hl. destruct Hl as [Hl | Hl].
        -- apply Hmem, in_or_app; left; now apply Hb.
        -- apply in_app_or in Hl. destruct Hl as [Hl | [<- | []]].
           ++ apply Hmem, in_or_app; now right.
           ++ apply Hmem, in_or_app; left; now apply Hdrag.
      * injection Hexec as <-.
        split; heap_simpl; [exact Hmem | discriminate].
  - injection Hexec as <-. unfold eject_ball_from_inventory.
    destruct (index_in_range i (inventory s)) eqn:E; cbn [fst];
      [ | split; assumption].
    split; heap_simpl.
    + intros l Hl. rewrite <- app_assoc in Hl. apply in_app_or in Hl.
      destruct Hl as [Hl | Hl]; [apply Hmem, in_or_app; now left | ].
      cbn in Hl. destruct Hl as [<- | Hl].
      * apply Hmem, in_or_app; right. now apply nth_in_range.
      * apply Hmem, in_or_app; right.
        now apply (list_pop_incl (Z.to_nat i)).
    + intros d0 Hd0. apply in_or_app; left; now apply Hdrag.
  - injection Hexec as <-. split; [intros l [] | discriminate].
Qed.

(** Every listed ball of the next state was listed before, unless the call
    is [add_ball] and the ball is the fresh one. *)
Lemma exec_members (s s' : GameLogic) (c : Command) :
  alloc_inv s -> exec s c = Some s' ->
  forall l, In l (balls s' ++ inventory s') ->
    In l (balls s ++ inventory s)
    \/ (exists x0 y0 r0 d, c = AddBall x0 y0 r0 d /\ l = next_loc s).
Proof.
  intros [Hmem Hdrag] Hexec l Hl.
  destruct c as [x0 y0 r0 d | dt | mx my | mx my | mx my | i d | ];
    cbn [exec] in Hexec.
  - injection Hexec as <-. cbn [add_ball snd] in Hl; heap_simpl.
    cbn [balls inventory with_balls with_next_loc with_heap] in Hl.
    rewrite <- app_assoc in Hl. apply in_app_or in Hl.
    destruct Hl as [Hl | [<- | Hl]].
    + left; apply in_or_app; now left.
    + right; now exists x0, y0, r0, d.
    + left; apply in_or_app; now right.
  - injection Hexec as <-.
    destruct (update_only s dt) as [(Hb & Hi & _) _].
    rewrite Hb, Hi in Hl; now left.
  - injection Hexec as <-. unfold start_drag in Hl.
    destruct (first_grabbable _ _ _ _); cbn [fst] in Hl; now left.
  - injection Hexec as <-. unfold drag_ball in Hl.
    destruct (dragged_ball s); [ | now left].
    destruct (is_BEING_DRAGGED _); now left.
  - left. unfold end_drag in Hexec.
    destruct (dragged_ball s) as [ball | ] eqn:E;
      [ | now injection Hexec as <-].
    destruct (is_in_delete_zone s mx my).
    + injection Hexec as <-.
      destruct (delete_ball_lists s ball) as (Hb & Hi & _).
      cbn [balls inventory with_dragged_ball] in Hl.
      apply in_app_or in Hl; apply in_or_app.
      destruct Hl; [left; now apply Hb | right; now apply Hi].
    + destruct (Rle_b _ 30).
      * destruct (add_to_inventory s ball) as [s1 | ] eqn:E1;
          [ | discriminate].
        injection Hexec as <-.
        apply add_to_inventory_some in E1 as (_ & Hb & Hi & _).
        cbn [balls inventory with_dragged_ball] in Hl. rewrite Hi in Hl.
        apply in_app_or in Hl. destruct Hl as [Hl | Hl].
        -- apply in_or_app; left; now apply Hb.
        -- apply in_app_or in Hl. destruct Hl as [Hl | [<- | []]].
           ++ apply in_or_app; now right.
           ++ apply in_or_app; left; now apply Hdrag.
      * injection Hexec as <-. exact Hl.
  - left. injection Hexec as <-. unfold eject_ball_from_inventory in Hl.
    destruct (index_in_range i (inventory s)) eqn:E; cbn [fst] in Hl;
      [ | exact Hl].
    cbn [balls inventory with_balls with_inventory modify with_heap] in Hl.
    rewrite <- app_assoc in Hl. apply in_app_or in Hl.
    destruct Hl as [Hl | [<- | Hl]].
    + apply in_or_app; now left.
    + apply in_or_app; right. now apply nth_in_range.
    + apply in_or_app; right. now apply (list_pop_incl (Z.to_nat i)).
  - injection Hexec as <-. destruct Hl.
Qed.

Lemma reachable_alloc_inv (w h : R) (s : GameLogic) :
  reachable w h s -> alloc_inv s.
Proof.
  induction 1 as [ | s c s' _ IH _ Hexec]; [apply alloc_inv_init | ].
  exact (exec_alloc_inv s s' c IH Hexec).
Qed.

Lemma reachable_idle_press_reachable (w h : R) (s : GameLogic) :
  reachable_idle_press w h s -> reachable w h s.
Proof.
  induction 1 as [ | s c s' _ IH Hv _ Hexec]; [constructor | ].
  exact (reach_step w h s c s' IH Hv Hexec).
Qed.

(** ** Identifiers *)

Lemma twin_draws_valid (s : GameLogic) :
  min_color_value s = 50%Z -> max_color_value s = 255%Z ->
  valid_add_draws s twin_draws.
Proof.
  intros Hmin Hmax; unfold valid_add_draws, unit_draw.
  rewrite Hmin, Hmax; cbn.
  repeat split; try lia; lra.
Qed.

Lemma one_ball_game_reachable : reachable_idle_press 800 600 one_ball_game.
Proof.
  apply (reach_ip_step 800 600 (GameLogic_init 800 600)
           (AddBall 0 0 20 twin_draws)).
  - constructor.
  - now apply twin_draws_valid.
  - exact I.
  - reflexivity.
Qed.

Lemma twin_game_reachable : reachable_idle_press 800 600 twin_game.
Proof.
  apply (reach_ip_step 800 600 one_ball_game (AddBall 100 0 20 twin_draws)).
  - exact one_ball_game_reachable.
  - now apply twin_draws_valid.
  - exact I.
  - reflexivity.
Qed.

(** C9, as the code has it.  A call changes the identifier of no ball that
    is in the active list or in the inventory, and every ball listed after
    the call either was listed before or is the ball [add_ball] has just
    created, whose identifier is the integer drawn from 1000..9999.
    Nothing makes the drawn identifiers distinct. *)
Theorem identifier_assigned_once
    (w h : R) (s s' : GameLogic) (c : Command) :
  reachable w h s -> valid_command s c -> exec s c = Some s' ->
  (forall l, In l (balls s ++ inventory s) ->
     id (heap s' l) = id (heap s l))
  /\ (forall l, In l (balls s' ++ inventory s') ->
     In l (balls s ++ inventory s)
     \/ (exists x0 y0 r0 d,
           c = AddBall x0 y0 r0 d /\ l = next_loc s
           /\ ~ In l (balls s ++ inventory s)
           /\ id (heap s' l) = draw_id d
           /\ (1000 <= id (heap s' l) <= 9999)%Z)).
Proof.
  intros Hreach Hvalid Hexec.
  pose proof (reachable_alloc_inv w h s Hreach) as Halloc.
  split.
  - intros l Hl. apply (exec_ids s s' c Hexec).
    intros x0 y0 r0 d _ ->. destruct Halloc as [Hmem _].
    apply Hmem in Hl; lia.
  - intros l Hl.
    destruct (exec_members s s' c Halloc Hexec l Hl)
      as [Hold | (x0 & y0 & r0 & d & -> & ->)]; [now left | right].
    exists x0, y0, r0, d.
    cbn [exec] in Hexec; injection Hexec as <-.
    cbn [add_ball snd]; heap_simpl.
    cbn [Ball_init id Z.eqb].
    repeat split.
    + intros Hin. destruct Halloc as [Hmem _]. apply Hmem in Hin; lia.
    + apply Hvalid.
    + apply Hvalid.
Qed.

Lemma identifier_assigned_once_witness :
  id (heap twin_game O) = id (heap one_ball_game O).
Proof.
  assert (Hreach : reachable 800 600 one_ball_game)
    by exact (reachable_idle_press_reachable _ _ _ one_ball_game_reachable).
  assert (Hvalid : valid_command one_ball_game (AddBall 100 0 20 twin_draws))
    by now apply twin_draws_valid.
  destruct (identifier_assigned_once 800 600 one_ball_game twin_game
              (AddBall 100 0 20 twin_draws) Hreach Hvalid eq_refl)
    as [Hkeep _].
  apply Hkeep. now left.
Defined.

(** Counterexample to C9 as stated: two [add_ball] calls that draw the
    same identifier leave two distinct balls with one identifier in the
    active list. *)
Lemma identifier_shared_by_two_balls :
  reachable 800 600 twin_game
  /\ balls twin_game = [0%nat; 1%nat]
  /\ id (heap twin_game 0%nat) = 1234%Z
  /\ id (heap twin_game 1%nat) = 1234%Z
  /\ ~ (forall l1 l2,
          In l1 (balls twin_game ++ inventory twin_game) ->
          In l2 (balls twin_game ++ inventory twin_game) ->
          id (heap twin_game l1) = id (heap twin_game l2) -> l1 = l2).
Proof.
  split; [exact (reachable_idle_press_reachable _ _ _ twin_game_reachable) | ].
  split; [reflexivity | ].
  split; [reflexivity | ].
  split; [reflexivity | ].
  intros H. specialize (H 0%nat 1%nat).
  assert (Habs : 0%nat = 1%nat); [ | discriminate].
  apply H; [now left | right; now left | reflexivity].
Qed.

(** ** The drag protocol *)

Lemma drag_inv_init (w h : R) : drag_inv (GameLogic_init w h).
Proof.
  unfold drag_inv; cbn.
  repeat split; try constructor; intros l [].
Qed.

Lemma drag_inv_states_kept (s s' : GameLogic) :
  states_kept s s' -> drag_inv s -> drag_inv s'.
Proof.
  intros [(Hb & Hi & Hd & _) Hst] (Hnd & Hndi & Hdisj & Hstored & Hdrag).
  unfold drag_inv; rewrite Hb, Hi, Hd.
  repeat split; try assumption.
  - intros l Hl; rewrite Hst; now apply Hstored.
  - destruct (dragged_ball s) as [d | ].
    + destruct Hdrag as (Hin & Hdst & Hfree).
      repeat split; [exact Hin | now rewrite Hst | ].
      intros l Hl Hne; rewrite Hst; now apply Hfree.
    + intros l Hl; rewrite Hst; now apply Hdrag.
Qed.

Lemma drag_ball_states_kept (s : GameLogic) (mx my : R) :
  states_kept s (drag_ball s mx my).
Proof.
  unfold drag_ball.
  destruct (dragged_ball s) as [ball | ]; [ | repeat split].
  destruct (is_BEING_DRAGGED _); [ | repeat split].
  split; [repeat split | ].
  intros l; heap_simpl.
  unfold upd; destruct (Nat.eqb l ball) eqn:E; [ | reflexivity].
  apply Nat.eqb_eq in E; now subst.
Qed.

Lemma add_ball_drag_inv (s : GameLogic) (x0 y0 r0 : R) (d : AddDraws) :
  alloc_inv s -> drag_inv s -> drag_inv (snd (add_ball s x0 y0 r0 d)).
Proof.
  intros [Hmem Hdin] (Hnd & Hndi & Hdisj & Hstored & Hdrag).
  assert (Hfresh : forall l, In l (balls s) \/ In l (inventory s) ->
                             l <> next_loc s).
  { intros l Hl Heq. assert (l < next_loc s)%nat; [ | lia].
    apply Hmem, in_or_app; exact Hl. }
  unfold drag_inv; cbn [add_ball snd]; heap_simpl.
  split; [ | split; [exact Hndi | split; [ | split]]].
  - apply NoDup_app; [exact Hnd | repeat constructor; intros [] | ].
    intros a Ha [<- | []].
    now apply (Hfresh (next_loc s) (or_introl Ha)).
  - intros l Hl Hinv. apply in_app_or in Hl. destruct Hl as [Hl | [<- | []]].
    + now apply (Hdisj l).
    + now apply (Hfresh (next_loc s) (or_intror Hinv)).
  - intros l Hl. rewrite upd_other by (apply Hfresh; now right).
    now apply Hstored.
  - destruct (dragged_ball s) as [b0 | ].
    + destruct Hdrag as (Hin & Hdst & Hfree).
      split; [apply in_or_app; now left | ].
      split; [rewrite upd_other by (apply Hfresh; now left); exact Hdst | ].
      intros l Hl Hne. apply in_app_or in Hl.
      destruct Hl as [Hl | [<- | []]].
      * rewrite upd_other by (apply Hfresh; now left). now apply Hfree.
      * now rewrite upd_same.
    + intros l Hl. apply in_app_or in Hl.
      destruct Hl as [Hl | [<- | []]].
      * rewrite upd_other by (apply Hfresh; now left). now apply Hdrag.
      * now rewrite upd_same.
Qed.

Lemma start_drag_drag_inv (s : GameLogic) (mx my : R) :
  dragged_ball s = None -> drag_inv s ->
  drag_inv (fst (start_drag s mx my)).
Proof.
  intros Hnone Hinv. pose proof Hinv as (Hnd & Hndi & Hdisj & Hstored & Hdrag).
  rewrite Hnone in Hdrag.
  unfold start_drag.
  destruct (first_grabbable _ _ _ _) as [ball | ] eqn:E; cbn [fst];
    [ | exact Hinv].
  apply first_grabbable_some in E as (Hin & Hfree & _).
  apply in_rev in Hin.
  unfold drag_inv; heap_simpl.
  repeat split; try assumption.
  - intros l Hl. rewrite upd_other; [now apply Hstored | ].
    intros ->. now apply (Hdisj ball).
  - intros l Hl Hne. rewrite upd_other by exact Hne. now apply Hdrag.
Qed.

Lemma end_drag_drag_inv (s s' : GameLogic) (mx my : R) (ret : bool) :
  drag_inv s -> end_drag s mx my = Some (s', ret) -> drag_inv s'.
Proof.
  intros Hinv Hend.
  pose proof Hinv as (Hnd & Hndi & Hdisj & Hstored & Hdrag).
  destruct (dragged_ball s) as [d | ] eqn:Hd.
  2:{ unfold end_drag in Hend; rewrite Hd in Hend.
      now injection Hend as <- _. }
  destruct Hdrag as (Hin & Hdst & Hfree).
  unfold end_drag in Hend; rewrite Hd in Hend.
  destruct (is_in_delete_zone s mx my).
  - rewrite (delete_ball_dragged s d Hinv Hd) in Hend.
    injection Hend as <- _.
    unfold drag_inv; heap_simpl.
    split; [now apply NoDup_remove_loc | split; [exact Hndi | ]].
    split; [ | split; [exact Hstored | ]].
    + intros l Hl. apply in_remove in Hl as [Hl _]. now apply Hdisj.
    + intros l Hl. apply in_remove in Hl as [Hl Hne]. now apply Hfree.
  - destruct (Rle_b _ 30).
    + rewrite (add_to_inventory_dragged s d Hinv Hd) in Hend.
      injection Hend as <- _.
      unfold drag_inv; heap_simpl.
      split; [now apply NoDup_remove_loc | ].
      split; [ | split; [ | split]].
      * apply NoDup_app; [exact Hndi | repeat constructor; intros [] | ].
        intros a Ha [<- | []]. now apply (Hdisj d).
      * intros l Hl Hl'. apply in_remove in Hl as [Hl Hne].
        apply in_app_or in Hl'. destruct Hl' as [Hl' | [Heq | []]].
        -- now apply (Hdisj l).
        -- congruence.
      * intros l Hl. apply in_app_or in Hl.
        destruct Hl as [Hl | [<- | []]].
        -- rewrite upd_other; [now apply Hstored | ].
           intros ->. now apply (Hdisj d).
        -- now rewrite upd_same.
      * intros l Hl. apply in_remove in Hl as [Hl Hne].
        rewrite upd_other by exact Hne. now apply Hfree.
    + injection Hend as <- _.
      unfold drag_inv; heap_simpl.
      split; [exact Hnd | split; [exact Hndi | split; [exact Hdisj | ]]].
      split.
      * intros l Hl. rewrite !upd_other; [now apply Hstored | | | ];
          intros ->; now apply (Hdisj d).
      * intros l Hl. destruct (Nat.eq_dec l d) as [-> | Hne].
        -- now rewrite upd_same.
        -- rewrite !upd_other by exact Hne. now apply Hfree.
Qed.

Lemma eject_drag_inv (s : GameLogic) (i : Z) (d : EjectDraws) :
  drag_inv s -> drag_inv (fst (eject_ball_from_inventory s i d)).
Proof.
  intros Hinv.
  pose proof Hinv as (Hnd & Hndi & Hdisj & Hstored & Hdrag).
  unfold eject_ball_from_inventory.
  destruct (index_in_range i (inventory s)) eqn:E; cbn [fst]; [ | exact Hinv].
  pose proof (nth_in_range i (inventory s) E) as Hball.
  apply index_in_range_spec in E.
  assert (Hi : (Z.to_nat i < length (inventory s))%nat) by lia.
  destruct (list_pop_NoDup (Z.to_nat i) (inventory s) Hi Hndi)
    as [Hpop Hgone].
  set (ball := nth (Z.to_nat i) (inventory s) O) in *.
  assert (Hnotactive : ~ In ball (balls s))
    by (intros Hin; now apply (Hdisj ball)).
  unfold drag_inv; heap_simpl.
  split; [ | split; [exact Hpop | split; [ | split]]].
  - apply NoDup_app; [exact Hnd | repeat constructor; intros [] | ].
    intros a Ha [<- | []]. contradiction.
  - intros l Hl Hl'. apply in_app_or in Hl. destruct Hl as [Hl | [<- | []]].
    + apply (Hdisj l Hl). now apply (list_pop_incl (Z.to_nat i)).
    + contradiction.
  - intros l Hl. rewrite !upd_other by (intros ->; contradiction).
    apply Hstored. now apply (list_pop_incl (Z.to_nat i)).
  - destruct (dragged_ball s) as [b0 | ].
    + destruct Hdrag as (Hin & Hdst & Hfree).
      assert (Hne0 : b0 <> ball) by (intros ->; contradiction).
      split; [apply in_or_app; now left | ].
      split; [rewrite !upd_other by exact Hne0; exact Hdst | ].
      intros l Hl Hne. apply in_app_or in Hl.
      destruct Hl as [Hl | [<- | []]].
      * rewrite !upd_other by (intros ->; contradiction). now apply Hfree.
      * now rewrite upd_same.
    + intros l Hl. apply in_app_or in Hl.
      destruct Hl as [Hl | [<- | []]].
      * rewrite !upd_other by (intros ->; contradiction). now apply Hdrag.
      * now rewrite upd_same.
Qed.

Lemma exec_drag_inv (s s' : GameLogic) (c : Command) :
  alloc_inv s -> drag_inv s -> press_only_when_idle s c ->
  exec s c = Some s' -> drag_inv s'.
Proof.
  intros Halloc Hinv Hidle Hexec.
  destruct c as [x0 y0 r0 d | dt | mx my | mx my | mx my | i d | ];
    cbn [exec] in Hexec.
  - injection Hexec as <-. now apply add_ball_drag_inv.
  - injection Hexec as <-.
    apply (drag_inv_states_kept s); [ | exact Hinv].
    apply physics_only_states_kept, update_only.
  - injection Hexec as <-. now apply start_drag_drag_inv.
  - injection Hexec as <-.
    apply (drag_inv_states_kept s); [ | exact Hinv].
    apply drag_ball_states_kept.
  - destruct (end_drag s mx my) as [[s1 ret] | ] eqn:E; [ | discriminate].
    injection Hexec as <-. now apply (end_drag_drag_inv s s1 mx my ret).
  - injection Hexec as <-. now apply eject_drag_inv.
  - injection Hexec as <-. unfold drag_inv; cbn.
    repeat split; try constructor; intros l [].
Qed.

Lemma reachable_idle_press_drag_inv (w h : R) (s : GameLogic) :
  reachable_idle_press w h s -> drag_inv s.
Proof.
  induction 1 as [ | s c s' Hreach IH _ Hidle Hexec];
    [apply drag_inv_init | ].
  apply (exec_drag_inv s s' c); try assumption.
  apply (reachable_alloc_inv w h), (reachable_idle_press_reachable w h).
  exact Hreach.
Qed.

(** ** Pressing the mouse button *)

Lemma start_drag_grabs (s : GameLogic) (mx my : R) (ball : loc) :
  first_grabbable (heap s) mx my (rev (balls s)) = Some ball ->
  start_drag s mx my =
    (with_drag_offset (x (heap s ball) - mx) (y (heap s ball) - my)
       (modify ball (with_state BEING_DRAGGED)
          (with_dragged_ball (Some ball) s)), true).
Proof.
  intros H; unfold start_drag; rewrite H; heap_simpl; reflexivity.
Qed.

Lemma start_drag_misses (s : GameLogic) (mx my : R) :
  first_grabbable (heap s) mx my (rev (balls s)) = None ->
  start_drag s mx my = (s, false).
Proof. intros H; unfold start_drag; now rewrite H. Qed.

Lemma grabbable_at_centre (h : Heap) (l : loc) :
  state (h l) = FREE -> 0 <= radius (h l) ->
  grabbable h (x (h l)) (y (h l)) l = true.
Proof.
  intros Hfree Hr; unfold grabbable.
  rewrite Hfree, distance_to_self; cbn [is_FREE andb].
  now apply Rle_b_true.
Qed.

Lemma grabbable_not_free (h : Heap) (mx my : R) (l : loc) :
  state (h l) <> FREE -> grabbable h mx my l = false.
Proof.
  intros Hst; unfold grabbable.
  destruct (state (h l)); [congruence | reflexivity | reflexivity].
Qed.

Lemma twin_game_first_press :
  start_drag twin_game 100 0 =
    (with_drag_offset (100 - 100) (0 - 0)
       (modify 1%nat (with_state BEING_DRAGGED)
          (with_dragged_ball (Some 1%nat) twin_game)), true).
Proof.
  apply (start_drag_grabs twin_game 100 0 1%nat).
  change (rev (balls twin_game)) with [1%nat; 0%nat].
  cbn [first_grabbable].
  assert (G : grabbable (heap twin_game) 100 0 1%nat = true).
  { apply (grabbable_at_centre (heap twin_game) 1%nat); [reflexivity | ].
    change (radius (heap twin_game 1%nat)) with 20. lra. }
  now rewrite G.
Qed.

Lemma first_drag_game_eq :
  first_drag_game =
    with_drag_offset (100 - 100) (0 - 0)
      (modify 1%nat (with_state BEING_DRAGGED)
         (with_dragged_ball (Some 1%nat) twin_game)).
Proof. unfold first_drag_game; now rewrite twin_game_first_press. Qed.

Lemma first_drag_game_second_press :
  start_drag first_drag_game 0 0 =
    (with_drag_offset (x (heap first_drag_game 0%nat) - 0)
       (y (heap first_drag_game 0%nat) - 0)
       (modify 0%nat (with_state BEING_DRAGGED)
          (with_dragged_ball (Some 0%nat) first_drag_game)), true).
Proof.
  apply (start_drag_grabs first_drag_game 0 0 0%nat).
  rewrite first_drag_game_eq.
  set (s3 := with_drag_offset _ _ _).
  change (rev (balls s3)) with [1%nat; 0%nat].
  cbn [first_grabbable].
  assert (G1 : grabbable (heap s3) 0 0 1%nat = false).
  { apply grabbable_not_free. change (state (heap s3 1%nat)) with BEING_DRAGGED.
    discriminate. }
  assert (G0 : grabbable (heap s3) 0 0 0%nat = true).
  { apply (grabbable_at_centre (heap s3) 0%nat); [reflexivity | ].
    change (radius (heap s3 0%nat)) with 20. lra. }
  now rewrite G1, G0.
Qed.

Lemma first_drag_game_reachable : reachable_idle_press 800 600 first_drag_game.
Proof.
  apply (reach_ip_step 800 600 twin_game (StartDrag 100 0)).
  - exact twin_game_reachable.
  - exact I.
  - reflexivity.
  - reflexivity.
Qed.


Lemma sqrt_above (a c : R) : 0 <= c -> c * c < a -> c < sqrt a.
Proof.
  intros Hc Hlt. rewrite <- (sqrt_square c Hc).
  apply sqrt_lt_1_alt. split; [nra | exact Hlt].
Qed.









(** C1, as the code has it.  [start_drag] does not look at the dragged
    reference: whenever a FREE ball lies under the cursor it grabs the
    top-most one and returns [True], also during a drag, and only when
    there is none it returns [False] and the state it was given.  When the
    caller presses only while nothing is dragged, every reachable state has
    at most one ball that is BEING_DRAGGED among the active and stored
    balls, and a listed ball is BEING_DRAGGED exactly when it is the dragged
    reference, which then is an active ball. *)
Theorem single_drag_when_pressed_idle (w h : R) (s : GameLogic) :
  reachable_idle_press w h s ->
  (forall l1 l2,
     In l1 (balls s ++ inventory s) -> In l2 (balls s ++ inventory s) ->
     state (heap s l1) = BEING_DRAGGED -> state (heap s l2) = BEING_DRAGGED ->
     l1 = l2)
  /\ (forall d, dragged_ball s = Some d ->
        In d (balls s) /\ state (heap s d) = BEING_DRAGGED)
  /\ (forall l, In l (balls s ++ inventory s) ->
        state (heap s l) = BEING_DRAGGED -> dragged_ball s = Some l)
  /\ (forall mx my,
        first_grabbable (heap s) mx my (rev (balls s)) = None ->
        start_drag s mx my = (s, false))
  /\ (forall mx my ball,
        first_grabbable (heap s) mx my (rev (balls s)) = Some ball ->
        snd (start_drag s mx my) = true
        /\ dragged_ball (fst (start_drag s mx my)) = Some ball
        /\ state (heap (fst (start_drag s mx my)) ball) = BEING_DRAGGED).
Proof.
  intros Hreach.
  pose proof (reachable_idle_press_drag_inv w h s Hreach)
    as (Hnd & Hndi & Hdisj & Hstored & Hdrag).
  assert (Hone : forall l, In l (balls s ++ inventory s) ->
                   state (heap s l) = BEING_DRAGGED ->
                   dragged_ball s = Some l).
  { intros l Hl Hst. apply in_app_or in Hl. destruct Hl as [Hl | Hl].
    - destruct (dragged_ball s) as [d | ].
      + destruct Hdrag as (_ & _ & Hfree).
        destruct (Nat.eq_dec l d) as [-> | Hne]; [reflexivity | ].
        rewrite (Hfree l Hl Hne) in Hst; discriminate.
      + rewrite (Hdrag l Hl) in Hst; discriminate.
    - rewrite (Hstored l Hl) in Hst; discriminate. }
  split; [ | split; [ | split; [exact Hone | split]]].
  - intros l1 l2 H1 H2 S1 S2.
    pose proof (Hone l1 H1 S1) as E1. pose proof (Hone l2 H2 S2) as E2.
    congruence.
  - intros d Hd. rewrite Hd in Hdrag. tauto.
  - intros mx my. apply start_drag_misses.
  - intros mx my ball Hg. rewrite (start_drag_grabs s mx my ball Hg).
    cbn [fst snd]; heap_simpl. repeat split.
Qed.

Lemma single_drag_when_pressed_idle_witness :
  In 1%nat (balls first_drag_game)
  /\ state (heap first_drag_game 1%nat) = BEING_DRAGGED.
Proof.
  destruct (single_drag_when_pressed_idle 800 600 first_drag_game
              first_drag_game_reachable) as (_ & H & _).
  apply H. rewrite first_drag_game_eq; reflexivity.
Defined.

(** Counterexample to C1 as stated: with the second ball of two being
    dragged, a press on the first ball is not rejected.  It returns [True]
    and marks the first ball as well, so a reachable state has two active
    balls that are BEING_DRAGGED. *)
Lemma second_press_during_drag_not_rejected :
  reachable 800 600 first_drag_game
  /\ dragged_ball first_drag_game = Some 1%nat
  /\ state (heap first_drag_game 0%nat) = FREE
  /\ snd (start_drag first_drag_game 0 0) = true
  /\ reachable 800 600 second_drag_game
  /\ balls second_drag_game = [0%nat; 1%nat]
  /\ state (heap second_drag_game 0%nat) = BEING_DRAGGED
  /\ state (heap second_drag_game 1%nat) = BEING_DRAGGED
  /\ dragged_ball second_drag_game = Some 0%nat.
Proof.
  assert (R1 : reachable 800 600 first_drag_game)
    by exact (reachable_idle_press_reachable _ _ _ first_drag_game_reachable).
  assert (R2 : reachable 800 600 second_drag_game)
    by (apply (reach_step 800 600 first_drag_game (StartDrag 0 0));
        [exact R1 | exact I | reflexivity]).
  split; [exact R1 | ].
  split; [rewrite first_drag_game_eq; reflexivity | ].
  split; [rewrite first_drag_game_eq; reflexivity | ].
  split; [now rewrite first_drag_game_second_press | ].
  split; [exact R2 | ].
  unfold second_drag_game.
  rewrite first_drag_game_second_press; cbn [fst snd].
  rewrite first_drag_game_eq.
  repeat split.
Qed.

(** * Further properties of the engine *)

(** ** Colours *)

(** The constructor saturates: every channel of the result is in 0..255,
    a channel below 0 becomes 0, one above 255 becomes 255, one in range is
    kept; so rebuilding a colour from its own channels gives it back. *)
Theorem Color_init_saturates (r0 g0 b0 : Z) :
  Color_ok (Color_init r0 g0 b0)
  /\ ((r0 < 0)%Z -> r (Color_init r0 g0 b0) = 0%Z)
  /\ ((255 < r0)%Z -> r (Color_init r0 g0 b0) = 255%Z)
  /\ (channel_ok r0 -> r (Color_init r0 g0 b0) = r0)
  /\ ((g0 < 0)%Z -> g (Color_init r0 g0 b0) = 0%Z)
  /\ ((255 < g0)%Z -> g (Color_init r0 g0 b0) = 255%Z)
  /\ (channel_ok g0 -> g (Color_init r0 g0 b0) = g0)
  /\ ((b0 < 0)%Z -> b (Color_init r0 g0 b0) = 0%Z)
  /\ ((255 < b0)%Z -> b (Color_init r0 g0 b0) = 255%Z)
  /\ (channel_ok b0 -> b (Color_init r0 g0 b0) = b0)
  /\ Color_init (r (Color_init r0 g0 b0)) (g (Color_init r0 g0 b0))
       (b (Color_init r0 g0 b0)) = Color_init r0 g0 b0.
Proof.
  split; [apply Color_init_ok | ].
  unfold Color_init, clamp_channel, channel_ok; cbn [r g b].
  repeat split; intros; try lia.
  f_equal; lia.
Qed.

Lemma Color_init_saturates_witness :
  r (Color_init (-7) 300 128) = 0%Z
  /\ g (Color_init (-7) 300 128) = 255%Z
  /\ b (Color_init (-7) 300 128) = 128%Z.
Proof.
  destruct (Color_init_saturates (-7) 300 128)
    as (_ & Hr & _ & _ & _ & Hg & _ & _ & _ & Hb & _).
  split; [apply Hr; lia | split; [apply Hg; lia | ]].
  apply Hb; unfold channel_ok; lia.
Defined.

(** Mixing a colour with itself gives the colour back; a mixed channel
    lies between the two channels it comes from; the result is a colour
    with channels in 0..255.  Truncation makes mixing non-associative. *)
Theorem mix_with_idempotent_between (a c : Color) :
  Color_ok a -> Color_ok c ->
  mix_with a a = a
  /\ Color_ok (mix_with a c)
  /\ (Z.min (r a) (r c) <= r (mix_with a c) <= Z.max (r a) (r c))%Z
  /\ (Z.min (g a) (g c) <= g (mix_with a c) <= Z.max (g a) (g c))%Z
  /\ (Z.min (b a) (b c) <= b (mix_with a c) <= Z.max (b a) (b c))%Z
  /\ mix_with (mix_with (mkColor 0 0 0) (mkColor 0 0 0)) (mkColor 2 0 0)
     <> mix_with (mkColor 0 0 0) (mix_with (mkColor 0 0 0) (mkColor 2 0 0)).
Proof.
  intros Ha Hc.
  pose proof Ha as (Har & Hag & Hab). pose proof Hc as (Hcr & Hcg & Hcb).
  assert (Hmix : forall u w, channel_ok u -> channel_ok w ->
            clamp_channel (half_sum u w) = ((u + w) / 2)%Z).
  { intros u w Hu Hw. rewrite clamp_channel_id by now apply half_sum_ok.
    now apply half_sum_floor. }
  split; [ | split; [apply mix_with_ok | ]].
  - destruct a as [ra ga ba]; cbn [r g b] in *.
    unfold mix_with, Color_init; cbn [r g b].
    rewrite !Hmix by assumption.
    assert (Hself : forall u, ((u + u) / 2)%Z = u).
    { intros u. replace (u + u)%Z with (u * 2)%Z by lia.
      apply Z.div_mul; lia. }
    now rewrite !Hself.
  - unfold mix_with, Color_init; cbn [r g b].
    rewrite !Hmix by assumption.
    unfold channel_ok in *.
    repeat split;
      try (apply Z.div_le_lower_bound; lia);
      try (apply Z.div_le_upper_bound; lia).
    cbv; discriminate.
Qed.

Lemma mix_with_idempotent_between_witness :
  mix_with (mkColor 10 200 255) (mkColor 10 200 255) = mkColor 10 200 255.
Proof.
  assert (H : Color_ok (mkColor 10 200 255))
    by (unfold Color_ok, channel_ok; cbn; lia).
  exact (proj1 (mix_with_idempotent_between _ _ H H)).
Defined.

Lemma get_saturation_formula (c : Color) :
  Color_ok c ->
  get_saturation c
  = IZR (max3 (r c) (g c) (b c) - min3 (r c) (g c) (b c)) / 255.
Proof.
  intros (Hr & Hg & Hb); unfold channel_ok in *.
  unfold get_saturation.
  destruct (0 <? max3 (r c) (g c) (b c))%Z eqn:E; [reflexivity | ].
  apply Z.ltb_ge in E.
  replace (max3 (r c) (g c) (b c) - min3 (r c) (g c) (b c))%Z with 0%Z
    by (unfold max3, min3 in *; lia).
  lra.
Qed.

Lemma get_brightness_zero (c : Color) :
  Color_ok c -> (get_brightness c = 0 <-> c = mkColor 0 0 0).
Proof.
  intros (Hr & Hg & Hb); unfold channel_ok in *.
  unfold get_brightness. split.
  - intros H0.
    assert (Hz : IZR (r c + g c + b c) = 0).
    { assert (Hd : IZR (3 * 255) = 765) by (cbn; lra).
      rewrite Hd in H0. lra. }
    apply eq_IZR_R0 in Hz. destruct c as [rc gc bc]; cbn [r g b] in *.
    f_equal; lia.
  - intros ->; cbn [r g b]. cbn. lra.
Qed.

(** Brightness and saturation of a colour with channels in 0..255 lie in
    [0, 1]; the saturation is [(max - min) / 255] also when the largest
    channel is 0, and it is 0 exactly for greys; the brightness is 0 only
    for black and 1 only for (255, 255, 255). *)
Theorem brightness_saturation_facts (c : Color) :
  Color_ok c ->
  0 <= get_brightness c <= 1
  /\ 0 <= get_saturation c <= 1
  /\ get_saturation c
     = IZR (max3 (r c) (g c) (b c) - min3 (r c) (g c) (b c)) / 255
  /\ (get_saturation c = 0 <-> r c = g c /\ g c = b c)
  /\ (get_brightness c = 0 <-> c = mkColor 0 0 0)
  /\ (get_brightness c = 1 <-> c = mkColor 255 255 255).
Proof.
  intros Hc. pose proof Hc as (Hr & Hg & Hb); unfold channel_ok in *.
  pose proof (get_saturation_formula c Hc) as Hsat.
  split; [now apply get_brightness_range | ].
  split; [now apply get_saturation_range | ].
  split; [exact Hsat | ].
  split; [ | split].
  - rewrite Hsat. split.
    + intros H0.
      assert (Hz : IZR (max3 (r c) (g c) (b c) - min3 (r c) (g c) (b c)) = 0)
        by lra.
      apply eq_IZR_R0 in Hz. unfold max3, min3 in Hz; lia.
    + intros [E1 E2].
      replace (max3 (r c) (g c) (b c) - min3 (r c) (g c) (b c))%Z with 0%Z
        by (unfold max3, min3; lia).
      lra.
  - now apply get_brightness_zero.
  - unfold get_brightness. split.
    + intros H1.
      assert (Hz : IZR (r c + g c + b c) = IZR 765).
      { assert (Hd : IZR (3 * 255) = 765) by (cbn; lra).
        rewrite Hd in H1. lra. }
      apply eq_IZR in Hz. destruct c as [rc gc bc]; cbn [r g b] in *.
      f_equal; lia.
    + intros ->; cbn [r g b]. cbn. lra.
Qed.

Lemma brightness_saturation_facts_witness :
  get_saturation (mkColor 90 90 90) = 0.
Proof.
  assert (H : Color_ok (mkColor 90 90 90))
    by (unfold Color_ok, channel_ok; cbn; lia).
  destruct (brightness_saturation_facts _ H) as (_ & _ & _ & Hs & _).
  apply Hs. split; reflexivity.
Defined.

(** ** Hue *)

Lemma float_mod_wrap (a : R) :
  -360 <= a < 360 ->
  float_mod (a + 360) 360 = if Rle_dec 0 a then a else a + 360.
Proof.
  intros [Hlo Hhi]; unfold float_mod.
  destruct (Rle_dec 0 a) as [Hpos | Hneg].
  - rewrite <- (Int_part_spec ((a + 360) / 360) 1); lra.
  - rewrite <- (Int_part_spec ((a + 360) / 360) 0); lra.
Qed.

Lemma ratio_in_unit (n d : R) : 0 < d -> - d <= n <= d -> -1 <= n / d <= 1.
Proof.
  intros Hd [Hlo Hhi]. unfold Rdiv.
  assert (Hi : 0 < / d) by now apply Rinv_0_lt_compat.
  assert (H1 : d * / d = 1) by (apply Rinv_r; lra).
  split; nra.
Qed.

Lemma Rmax3_bounds (a c d : R) :
  a <= Rmax3 a c d /\ c <= Rmax3 a c d /\ d <= Rmax3 a c d
  /\ Rmin3 a c d <= a /\ Rmin3 a c d <= c /\ Rmin3 a c d <= d.
Proof.
  unfold Rmax3, Rmin3.
  pose proof (Rmax_l (Rmax a c) d). pose proof (Rmax_r (Rmax a c) d).
  pose proof (Rmax_l a c). pose proof (Rmax_r a c).
  pose proof (Rmin_l (Rmin a c) d). pose proof (Rmin_r (Rmin a c) d).
  pose proof (Rmin_l a c). pose proof (Rmin_r a c).
  repeat split; lra.
Qed.

Lemma Rmax3_same (a : R) : Rmax3 a a a = a /\ Rmin3 a a a = a.
Proof.
  unfold Rmax3, Rmin3.
  rewrite (Rmax_left a a), (Rmax_left a a), (Rmin_left a a), (Rmin_left a a);
    try lra.
Qed.

Lemma raw_hue_range (c : Color) :
  r c <> g c \/ g c <> b c -> -60 <= raw_hue c <= 300.
Proof.
  intros Hne. unfold raw_hue.
  set (r' := IZR (r c) / 255). set (g' := IZR (g c) / 255).
  set (b' := IZR (b c) / 255).
  destruct (Rmax3_bounds r' g' b') as (M1 & M2 & M3 & m1 & m2 & m3).
  assert (Hdiff : 0 < Rmax3 r' g' b' - Rmin3 r' g' b').
  { destruct (Rle_lt_dec (Rmax3 r' g' b') (Rmin3 r' g' b')) as [Hle | Hlt];
      [ | lra].
    exfalso.
    assert (E1 : r' = g') by lra. assert (E2 : g' = b') by lra.
    subst r' g' b'.
    assert (E1' : IZR (r c) = IZR (g c)) by lra.
    assert (E2' : IZR (g c) = IZR (b c)) by lra.
    apply eq_IZR in E1', E2'. destruct Hne; contradiction. }
  set (diff := Rmax3 r' g' b' - Rmin3 r' g' b') in *.
  destruct (Req_EM_T (Rmax3 r' g' b') r') as [Er | Nr].
  - pose proof (ratio_in_unit (g' - b') diff Hdiff) as Hq.
    assert (Hb : - diff <= g' - b' <= diff) by (subst diff; lra).
    specialize (Hq Hb). lra.
  - destruct (Req_EM_T (Rmax3 r' g' b') g') as [Eg | Ng].
    + pose proof (ratio_in_unit (b' - r') diff Hdiff) as Hq.
      assert (Hb : - diff <= b' - r' <= diff) by (subst diff; lra).
      specialize (Hq Hb). lra.
    + pose proof (ratio_in_unit (r' - g') diff Hdiff) as Hq.
      assert (Hb : - diff <= r' - g' <= diff) by (subst diff; lra).
      specialize (Hq Hb). lra.
Qed.

(** [get_hue] returns an angle in [0, 360).  It is 0 for greys.  For any
    other colour the unwrapped angle lies in [-60, 300] and the result is
    that angle, plus 360 when it is negative. *)
Theorem get_hue_wraps (c : Color) :
  0 <= get_hue c < 360
  /\ (r c = g c /\ g c = b c -> get_hue c = 0)
  /\ (r c <> g c \/ g c <> b c ->
      -60 <= raw_hue c <= 300
      /\ get_hue c
         = if Rle_dec 0 (raw_hue c) then raw_hue c else raw_hue c + 360).
Proof.
  assert (Hgrey : r c = g c /\ g c = b c -> get_hue c = 0).
  { intros [E1 E2]. unfold get_hue. rewrite <- E2, <- E1.
    set (r' := IZR (r c) / 255).
    destruct (Req_EM_T (Rmax3 r' r' r' - Rmin3 r' r' r') 0) as [_ | N];
      [reflexivity | ].
    exfalso; apply N.
    destruct (Rmax3_same r') as [-> ->]. lra. }
  assert (Hcol : r c <> g c \/ g c <> b c ->
      -60 <= raw_hue c <= 300
      /\ get_hue c
         = if Rle_dec 0 (raw_hue c) then raw_hue c else raw_hue c + 360).
  { intros Hne. pose proof (raw_hue_range c Hne) as Hraw.
    split; [exact Hraw | ].
    unfold get_hue.
    set (r' := IZR (r c) / 255). set (g' := IZR (g c) / 255).
    set (b' := IZR (b c) / 255).
    destruct (Req_EM_T (Rmax3 r' g' b' - Rmin3 r' g' b') 0) as [E | _].
    - exfalso.
      destruct (Rmax3_bounds r' g' b') as (M1 & M2 & M3 & m1 & m2 & m3).
      assert (E1 : r' = g') by lra. assert (E2 : g' = b') by lra.
      subst r' g' b'.
      assert (E1' : IZR (r c) = IZR (g c)) by lra.
      assert (E2' : IZR (g c) = IZR (b c)) by lra.
      apply eq_IZR in E1', E2'. destruct Hne; contradiction.
    - apply float_mod_wrap; lra. }
  split; [ | split; assumption].
  destruct (Z.eq_dec (r c) (g c)) as [E1 | N1].
  - destruct (Z.eq_dec (g c) (b c)) as [E2 | N2].
    + rewrite Hgrey by tauto. lra.
    + destruct (Hcol (or_intror N2)) as [Hraw ->].
      destruct (Rle_dec 0 (raw_hue c)); lra.
  - destruct (Hcol (or_introl N1)) as [Hraw ->].
    destruct (Rle_dec 0 (raw_hue c)); lra.
Qed.

Lemma get_hue_wraps_witness : get_hue (mkColor 40 40 40) = 0.
Proof.
  apply (get_hue_wraps (mkColor 40 40 40)). split; reflexivity.
Defined.

(** ** More on the quality score *)

(** The score is 0 exactly for near-white colours.  For a colour that is
    neither near-white nor near-grey the cap at 1 is never reached: the
    balance is [1 - saturation], so the score is
    [brightness * sqrt saturation * (1 - 0.3 * saturation)], which is
    positive and at most the brightness. *)
Theorem quality_score_zero_iff_white (s : GameLogic) (ball : Ball) :
  Color_ok (color ball) ->
  let c := color ball in
  (get_ball_quality_score s ball = 0 <-> is_white c = true)
  /\ (is_white c = false -> ~ get_saturation c < 0.1 ->
      get_ball_quality_score s ball
      = get_brightness c * sqrt (get_saturation c)
        * (1 - 0.3 * get_saturation c)
      /\ 0 < get_ball_quality_score s ball <= get_brightness c).
Proof.
  intros Hc c.
  destruct (get_brightness_range c Hc) as (Hb0 & Hb1).
  destruct (get_saturation_range c Hc) as (Hs0 & Hs1).
  pose proof (get_saturation_formula c Hc) as Hsat.
  pose proof (get_brightness_zero c Hc) as Hblack.
  pose proof (spread_range c Hc) as Hspread.
  assert (Habs : Z.abs (max3 (r c) (g c) (b c) - min3 (r c) (g c) (b c))
                 = (max3 (r c) (g c) (b c) - min3 (r c) (g c) (b c))%Z)
    by (apply Z.abs_eq; lia).
  assert (Hcol : is_white c = false -> ~ get_saturation c < 0.1 ->
      get_ball_quality_score s ball
      = get_brightness c * sqrt (get_saturation c)
        * (1 - 0.3 * get_saturation c)
      /\ 0 < get_ball_quality_score s ball <= get_brightness c).
  { intros Hw Hs.
    assert (Hbpos : 0 < get_brightness c).
    { destruct Hb0 as [Hlt | Heq]; [exact Hlt | ].
      symmetry in Heq. apply Hblack in Heq.
      exfalso; apply Hs. rewrite Heq. unfold get_saturation; cbn. lra. }
    assert (Hq0 : 0 < sqrt (get_saturation c)) by (apply sqrt_lt_R0; lra).
    assert (Hq1 : sqrt (get_saturation c) <= 1).
    { rewrite <- sqrt_1. apply sqrt_le_1_alt; lra. }
    assert (Heq : get_ball_quality_score s ball
      = get_brightness c * sqrt (get_saturation c)
        * (1 - 0.3 * get_saturation c)).
    { unfold get_ball_quality_score, quality_of_color; fold c.
      rewrite Hw. apply Rlt_b_false in Hs; rewrite Hs.
      rewrite Habs, <- Hsat.
      replace (0.7 + 0.3 * (1 - get_saturation c))
        with (1 - 0.3 * get_saturation c) by lra.
      apply Rmin_right.
      assert (get_brightness c * sqrt (get_saturation c) <= 1) by nra.
      nra. }
    split; [exact Heq | rewrite Heq].
    split.
    - apply Rmult_lt_0_compat; [now apply Rmult_lt_0_compat | lra].
    - assert (get_brightness c * sqrt (get_saturation c)
              <= get_brightness c) by nra.
      nra. }
  split; [ | exact Hcol].
  split.
  - intros Hzero. destruct (is_white c) eqn:Hw; [reflexivity | exfalso].
    destruct (Rlt_dec (get_saturation c) 0.1) as [Hs | Hs].
    + unfold get_ball_quality_score, quality_of_color in Hzero.
      fold c in Hzero. rewrite Hw in Hzero.
      apply Rlt_b_true in Hs. rewrite Hs in Hzero. lra.
    + destruct (Hcol eq_refl Hs) as (_ & Hpos & _). lra.
  - intros Hw. unfold get_ball_quality_score, quality_of_color; fold c.
    now rewrite Hw.
Qed.

Lemma quality_score_zero_iff_white_witness :
  0 < get_ball_quality_score (GameLogic_init 800 600)
        (mkBall 0 0 0 0 20 (mkColor 255 0 0) FREE 1000).
Proof.
  assert (Hc : Color_ok (mkColor 255 0 0))
    by (unfold Color_ok, channel_ok; cbn; lia).
  destruct (quality_score_zero_iff_white (GameLogic_init 800 600)
              (mkBall 0 0 0 0 20 (mkColor 255 0 0) FREE 1000) Hc)
    as (_ & H).
  apply H.
  - reflexivity.
  - unfold get_saturation; cbn. lra.
Defined.

(** ** Random colours and spawning *)

Lemma int_of_float_below (v : R) :
  0 <= v -> (0 <= int_of_float v)%Z /\ IZR (int_of_float v) <= v.
Proof.
  intros Hv; unfold int_of_float.
  destruct (Rle_dec 0 v) as [_ | N]; [ | contradiction].
  destruct (base_Int_part v) as [Hle Hgt].
  split; [ | exact Hle].
  assert (Hlt : IZR (-1) < IZR (Int_part v)) by lra.
  apply lt_IZR in Hlt. lia.
Qed.

Lemma clamped_scaled_channel (c0 : Z) (k : R) :
  (0 <= c0)%Z -> 0 <= k ->
  IZR (clamp_channel (int_of_float (IZR c0 * k))) <= IZR c0 * k.
Proof.
  intros Hc Hk.
  assert (Hv : 0 <= IZR c0 * k)
    by (apply Rmult_le_pos; [now apply IZR_le | exact Hk]).
  destruct (int_of_float_below _ Hv) as [H0 Hle].
  apply Rle_trans with (2 := Hle). apply IZR_le.
  unfold clamp_channel; lia.
Qed.

(** [generate_random_color] returns a colour with channels in 0..255.  A
    drawn colour whose brightness already lies between the two bounds is
    returned as drawn.  With positive drawn channels the brightness of the
    result never exceeds [max_brightness] (rescaling truncates and clamps
    downward; the lower bound can be missed). *)
Theorem generate_random_color_brightness
    (s : GameLogic) (min_brightness max_brightness : R) (d : AddDraws) :
  0 <= min_brightness <= max_brightness ->
  (0 < min_color_value s)%Z -> valid_add_draws s d ->
  let drawn := Color_init (draw_r d) (draw_g d) (draw_b d) in
  let res := generate_random_color s min_brightness max_brightness d in
  Color_ok res
  /\ (min_brightness <= get_brightness drawn <= max_brightness ->
      res = drawn)
  /\ get_brightness res <= max_brightness.
Proof.
  intros [Hmin Hmm] Hpos (Hr & Hg & Hb & Ht & _) drawn res.
  assert (Hok : Color_ok drawn) by apply Color_init_ok.
  assert (Hres : Color_ok res).
  { subst res; unfold generate_random_color.
    destruct (_ || _); apply Color_init_ok. }
  split; [exact Hres | ].
  assert (Hkeep : min_brightness <= get_brightness drawn <= max_brightness ->
                  res = drawn).
  { intros [H1 H2]. subst res; unfold generate_random_color; fold drawn.
    assert (E1 : Rlt_b (get_brightness drawn) min_brightness = false)
      by (apply Rlt_b_false; lra).
    assert (E2 : Rgt_b (get_brightness drawn) max_brightness = false)
      by (apply Rlt_b_false; lra).
    now rewrite E1, E2. }
  split; [exact Hkeep | ].
  subst res; unfold generate_random_color; fold drawn.
  destruct (Rlt_b (get_brightness drawn) min_brightness
            || Rgt_b (get_brightness drawn) max_brightness) eqn:E.
  - set (cb := get_brightness drawn).
    set (target := uniform min_brightness max_brightness (draw_target d)).
    assert (Htarget : min_brightness <= target <= max_brightness)
      by (apply uniform_in_band; assumption).
    assert (Hch : (0 < r drawn)%Z /\ (0 <= g drawn)%Z /\ (0 <= b drawn)%Z).
    { subst drawn; unfold Color_init, clamp_channel; cbn [r g b]. lia. }
    destruct Hch as (Hr0 & Hg0 & Hb0).
    destruct Hok as (Hr1 & Hg1 & Hb1); unfold channel_ok in *.
    assert (Hd : IZR (3 * 255) = 765) by (cbn; lra).
    assert (Hsum : 0 < IZR (r drawn + g drawn + b drawn))
      by (apply IZR_lt; lia).
    assert (Hcb : 0 < cb).
    { subst cb; unfold get_brightness. rewrite Hd.
      apply Rmult_lt_0_compat; lra. }
    set (k := target / cb).
    assert (Hk : 0 <= k).
    { subst k; unfold Rdiv. apply Rmult_le_pos; [lra | ].
      left; now apply Rinv_0_lt_compat. }
    pose proof (clamped_scaled_channel (r drawn) k (Z.lt_le_incl _ _ Hr0) Hk)
      as Cr.
    pose proof (clamped_scaled_channel (g drawn) k Hg0 Hk) as Cg.
    pose proof (clamped_scaled_channel (b drawn) k Hb0 Hk) as Cb.
    unfold get_brightness at 1, Color_init; cbn [r g b].
    rewrite Hd, !plus_IZR.
    assert (Hkcb : k * cb = target)
      by (subst k; unfold Rdiv; rewrite Rmult_assoc, Rinv_l; lra).
    assert (Hcbsum : cb * 765
                     = IZR (r drawn) + IZR (g drawn) + IZR (b drawn)).
    { subst cb; unfold get_brightness. rewrite Hd, !plus_IZR.
      unfold Rdiv; rewrite Rmult_assoc, Rinv_l; lra. }
    assert (Hbound :
      IZR (clamp_channel (int_of_float (IZR (r drawn) * k)))
      + IZR (clamp_channel (int_of_float (IZR (g drawn) * k)))
      + IZR (clamp_channel (int_of_float (IZR (b drawn) * k)))
      <= target * 765).
    { rewrite <- Hkcb.
      replace (k * cb * 765) with (k * (cb * 765)) by ring.
      rewrite Hcbsum. lra. }
    lra.
  - apply orb_false_iff in E as [_ E2]. apply Rlt_b_false in E2. lra.
Qed.

Lemma generate_random_color_brightness_witness :
  generate_random_color (GameLogic_init 800 600) 0.4 0.9 twin_draws
  = mkColor 200 100 50.
Proof.
  assert (Hb : 0 <= 0.4 <= 0.9) by lra.
  assert (Hv : valid_add_draws (GameLogic_init 800 600) twin_draws)
    by (unfold valid_add_draws, unit_draw; cbn; repeat split; try lia; lra).
  destruct (generate_random_color_brightness (GameLogic_init 800 600)
              0.4 0.9 twin_draws Hb eq_refl Hv) as (_ & H & _).
  apply H. unfold get_brightness; cbn. lra.
Defined.

(** [add_ball] returns a fresh reference, appends it to the active list
    and touches nothing else: the new ball is FREE at the given position
    with the given radius, velocity components in -3..3, a colour with
    channels in 0..255 and an identifier in 1000..9999; the inventory, the
    dragged reference and every other object are as before. *)
Theorem add_ball_appends_free_ball
    (s : GameLogic) (x0 y0 radius0 : R) (d : AddDraws) :
  valid_add_draws s d ->
  let ball := fst (add_ball s x0 y0 radius0 d) in
  let s' := snd (add_ball s x0 y0 radius0 d) in
  ball = next_loc s
  /\ balls s' = balls s ++ [ball]
  /\ length (balls s') = S (length (balls s))
  /\ inventory s' = inventory s
  /\ dragged_ball s' = dragged_ball s
  /\ x (heap s' ball) = x0 /\ y (heap s' ball) = y0
  /\ radius (heap s' ball) = radius0
  /\ state (heap s' ball) = FREE
  /\ -3 <= vx (heap s' ball) <= 3 /\ -3 <= vy (heap s' ball) <= 3
  /\ Color_ok (color (heap s' ball))
  /\ (1000 <= id (heap s' ball) <= 9999)%Z
  /\ (forall l, l <> ball -> heap s' l = heap s l).
Proof.
  intros (_ & _ & _ & _ & Hvx & Hvy & Hid) ball s'.
  subst ball s'; cbn [add_ball fst snd]; heap_simpl.
  cbn [Ball_init x y vx vy radius color state id Z.eqb].
  assert (Hcol : Color_ok (generate_random_color s 0.4 0.9 d)).
  { unfold generate_random_color. destruct (_ || _); apply Color_init_ok. }
  pose proof (uniform_in_band (-3) 3 _ ltac:(lra) Hvx) as Bx.
  pose proof (uniform_in_band (-3) 3 _ ltac:(lra) Hvy) as By.
  split; [reflexivity | split; [reflexivity | ]].
  split; [rewrite length_app; cbn; lia | ].
  do 6 (split; [reflexivity | ]).
  split; [exact Bx | split; [exact By | ]].
  split; [exact Hcol | split; [exact Hid | ]].
  intros l Hl. now apply upd_other.
Qed.

Lemma add_ball_appends_free_ball_witness :
  balls one_ball_game = [0%nat] /\ state (heap one_ball_game 0%nat) = FREE.
Proof.
  assert (Hv : valid_add_draws (GameLogic_init 800 600) twin_draws)
    by (unfold valid_add_draws, unit_draw; cbn; repeat split; try lia; lra).
  destruct (add_ball_appends_free_ball (GameLogic_init 800 600) 0 0 20
              twin_draws Hv) as (_ & Hb & _ & _ & _ & _ & _ & _ & Hs & _).
  split; [exact Hb | exact Hs].
Defined.

(** ** What a frame can change *)

Lemma heap_only_refl (s : GameLogic) : heap_only s s.
Proof. unfold heap_only; now destruct s. Qed.

Lemma heap_only_trans (s1 s2 s3 : GameLogic) :
  heap_only s1 s2 -> heap_only s2 s3 -> heap_only s1 s3.
Proof. unfold heap_only; intros H1 H2; rewrite H2, H1; reflexivity. Qed.

Lemma modify_heap_only (l : loc) (f : Ball -> Ball) (s : GameLogic) :
  heap_only s (modify l f s).
Proof. reflexivity. Qed.

Lemma untouched_refl (ls : list loc) (s : GameLogic) :
  untouched_outside ls s s.
Proof. intros l _; reflexivity. Qed.

Lemma untouched_trans (ls : list loc) (s1 s2 s3 : GameLogic) :
  untouched_outside ls s1 s2 -> untouched_outside ls s2 s3 ->
  untouched_outside ls s1 s3.
Proof. intros H1 H2 l Hl; rewrite (H2 l Hl); now apply H1. Qed.

Lemma untouched_mono (ls ls' : list loc) (s s' : GameLogic) :
  incl ls ls' -> untouched_outside ls s s' -> untouched_outside ls' s s'.
Proof. intros Hincl H l Hl; apply H; intros Hin; apply Hl, Hincl, Hin. Qed.

Lemma modify_untouched (l : loc) (f : Ball -> Ball) (s : GameLogic)
    (ls : list loc) :
  In l ls -> untouched_outside ls s (modify l f s).
Proof.
  intros Hin l' Hl'; cbn [modify with_heap heap].
  apply upd_other; intros ->; contradiction.
Qed.

(** Both relations hold along a chain of assignments. *)
Ltac frame_chain :=
  repeat first
    [ apply heap_only_refl
    | apply untouched_refl
    | apply modify_heap_only
    | (apply modify_untouched; cbn; tauto)
    | (eapply heap_only_trans; [ | apply modify_heap_only])
    | (eapply untouched_trans; [ | apply modify_untouched; cbn; tauto]) ].

Lemma collide_with_frame (ball : loc) (s : GameLogic) (other : loc) :
  heap_only s (collide_with ball s other)
  /\ untouched_outside [ball; other] s (collide_with ball s other).
Proof.
  unfold collide_with.
  destruct (_ || _); [split; frame_chain | ].
  destruct (_ && _); [ | split; frame_chain].
  unfold mix_ball_colors. split; frame_chain.
Qed.

Lemma fold_collide_frame (ball : loc) (ls : list loc) (s : GameLogic) :
  heap_only s (fold_left (collide_with ball) ls s)
  /\ untouched_outside (ball :: ls) s (fold_left (collide_with ball) ls s).
Proof.
  revert s; induction ls as [ | other rest IH]; intros s; cbn [fold_left].
  - split; frame_chain.
  - destruct (collide_with_frame ball s other) as [H1 U1].
    destruct (IH (collide_with ball s other)) as [H2 U2].
    split; [exact (heap_only_trans _ _ _ H1 H2) | ].
    apply (untouched_trans _ _ (collide_with ball s other)).
    + apply (untouched_mono [ball; other]); [ | exact U1].
      intros a [<- | [<- | []]]; cbn; tauto.
    + apply (untouched_mono (ball :: rest)); [ | exact U2].
      intros a [<- | Ha]; cbn; tauto.
Qed.

Lemma bounce_x_frame (s : GameLogic) (ball : loc) :
  heap_only s (bounce_x s ball)
  /\ untouched_outside [ball] s (bounce_x s ball).
Proof.
  unfold bounce_x.
  destruct (Rlt_b _ 0); [split; frame_chain | ].
  destruct (Rgt_b _ _); split; frame_chain.
Qed.

Lemma bounce_y_frame (s : GameLogic) (ball : loc) :
  heap_only s (bounce_y s ball)
  /\ untouched_outside [ball] s (bounce_y s ball).
Proof.
  unfold bounce_y.
  destruct (Rlt_b _ 0); [split; frame_chain | ].
  destruct (Rgt_b _ _); split; frame_chain.
Qed.

Lemma update_one_frame (dt : R) (s : GameLogic) (ball : loc) :
  heap_only s (update_one dt s ball)
  /\ untouched_outside (ball :: balls s) s (update_one dt s ball).
Proof.
  unfold update_one.
  destruct (is_FREE _); [ | split; frame_chain].
  set (s1 := update_ball_physics s ball dt).
  assert (P1 : heap_only s s1 /\ untouched_outside [ball] s s1)
    by (subst s1; unfold update_ball_physics; split; frame_chain).
  destruct P1 as [H1 U1].
  assert (Hb : balls s1 = balls s) by (rewrite H1; reflexivity).
  destruct (fold_collide_frame ball (balls s1) s1) as [H2 U2].
  fold (check_collisions s1 ball) in H2, U2.
  destruct (bounce_x_frame (check_collisions s1 ball) ball) as [H3 U3].
  destruct (bounce_y_frame (bounce_x (check_collisions s1 ball) ball) ball)
    as [H4 U4].
  unfold check_boundaries. split.
  - exact (heap_only_trans _ _ _ H1
             (heap_only_trans _ _ _ H2 (heap_only_trans _ _ _ H3 H4))).
  - rewrite Hb in U2.
    assert (I1 : incl [ball] (ball :: balls s))
      by (intros a [<- | []]; now left).
    apply (untouched_trans _ _ s1); [exact (untouched_mono _ _ _ _ I1 U1) | ].
    apply (untouched_trans _ _ (check_collisions s1 ball)); [exact U2 | ].
    apply (untouched_trans _ _ (bounce_x (check_collisions s1 ball) ball)).
    + exact (untouched_mono _ _ _ _ I1 U3).
    + exact (untouched_mono _ _ _ _ I1 U4).
Qed.

Lemma fold_update_one_frame (dt : R) (ls : list loc) (s : GameLogic) :
  incl ls (balls s) ->
  heap_only s (fold_left (update_one dt) ls s)
  /\ untouched_outside (balls s) s (fold_left (update_one dt) ls s).
Proof.
  revert s; induction ls as [ | ball rest IH]; intros s Hincl;
    cbn [fold_left].
  - split; frame_chain.
  - destruct (update_one_frame dt s ball) as [H1 U1].
    assert (Hb : balls (update_one dt s ball) = balls s)
      by (rewrite H1; reflexivity).
    destruct (IH (update_one dt s ball)) as [H2 U2].
    { rewrite Hb. intros a Ha; apply Hincl; now right. }
    rewrite Hb in U2.
    split; [exact (heap_only_trans _ _ _ H1 H2) | ].
    apply (untouched_trans _ _ (update_one dt s ball)); [ | exact U2].
    apply (untouched_mono (ball :: balls s)); [ | exact U1].
    intros a [<- | Ha]; [apply Hincl; now left | exact Ha].
Qed.

Lemma update_frame (s : GameLogic) (dt : R) :
  heap_only s (update s dt) /\ untouched_outside (balls s) s (update s dt).
Proof.
  unfold update. exact (fold_update_one_frame dt (balls s) s (incl_refl _)).
Qed.

(** ** Object relations kept by a frame *)

Section Preservation.

Variable K : Ball -> Ball -> Prop.
Hypothesis K_refl : forall o, K o o.
Hypothesis K_trans : forall o1 o2 o3, K o1 o2 -> K o2 o3 -> K o1 o3.

Lemma kept_refl (s : GameLogic) : kept K s s.
Proof. intros l; apply K_refl. Qed.

Lemma kept_trans (s1 s2 s3 : GameLogic) :
  kept K s1 s2 -> kept K s2 s3 -> kept K s1 s3.
Proof. intros H1 H2 l; exact (K_trans _ _ _ (H1 l) (H2 l)). Qed.

Lemma modify_kept (l : loc) (f : Ball -> Ball) (s : GameLogic) :
  (forall o, K o (f o)) -> kept K s (modify l f s).
Proof.
  intros Hf l'; cbn [modify with_heap heap]; unfold upd.
  destruct (Nat.eqb_spec l' l) as [-> | _]; [apply Hf | apply K_refl].
Qed.

(** The assignments of the collision pass. *)
Hypothesis K_x : forall v o, K o (with_x v o).
Hypothesis K_y : forall v o, K o (with_y v o).
Hypothesis K_mix : forall c1 c2 o, K o (with_color (mix_with c1 c2) o).

Lemma collide_with_kept (ball : loc) (s : GameLogic) (other : loc) :
  kept K s (collide_with ball s other).
Proof.
  unfold collide_with.
  destruct (_ || _); [apply kept_refl | ].
  destruct (_ && _); [ | apply kept_refl].
  unfold mix_ball_colors.
  repeat (eapply kept_trans; [ | apply modify_kept; intros o; auto ]).
  apply kept_refl.
Qed.

Lemma check_collisions_kept (s : GameLogic) (ball : loc) :
  kept K s (check_collisions s ball).
Proof.
  unfold check_collisions. generalize (balls s) as ls.
  intros ls; revert s; induction ls as [ | other rest IH]; intros s;
    cbn [fold_left]; [apply kept_refl | ].
  eapply kept_trans; [apply collide_with_kept | apply IH].
Qed.

(** The assignments of integration and of the boundary pass. *)
Hypothesis K_vx : forall v o, K o (with_vx v o).
Hypothesis K_vy : forall v o, K o (with_vy v o).

Lemma update_ball_physics_kept (s : GameLogic) (ball : loc) (dt : R) :
  kept K s (update_ball_physics s ball dt).
Proof.
  unfold update_ball_physics.
  repeat (eapply kept_trans; [ | apply modify_kept; intros o; auto ]).
  apply kept_refl.
Qed.

Lemma check_boundaries_kept (s : GameLogic) (ball : loc) :
  kept K s (check_boundaries s ball).
Proof.
  unfold check_boundaries.
  apply (kept_trans _ (bounce_x s ball)).
  - unfold bounce_x. destruct (Rlt_b _ 0).
    + repeat (eapply kept_trans; [ | apply modify_kept; intros o; auto ]).
      apply kept_refl.
    + destruct (Rgt_b _ _); [ | apply kept_refl].
      repeat (eapply kept_trans; [ | apply modify_kept; intros o; auto ]).
      apply kept_refl.
  - unfold bounce_y. destruct (Rlt_b _ 0).
    + repeat (eapply kept_trans; [ | apply modify_kept; intros o; auto ]).
      apply kept_refl.
    + destruct (Rgt_b _ _); [ | apply kept_refl].
      repeat (eapply kept_trans; [ | apply modify_kept; intros o; auto ]).
      apply kept_refl.
Qed.

Lemma update_one_kept (dt : R) (s : GameLogic) (ball : loc) :
  kept K s (update_one dt s ball).
Proof.
  unfold update_one. destruct (is_FREE _); [ | apply kept_refl].
  eapply kept_trans; [apply update_ball_physics_kept | ].
  eapply kept_trans; [apply check_collisions_kept | ].
  apply check_boundaries_kept.
Qed.

Lemma update_kept (s : GameLogic) (dt : R) : kept K s (update s dt).
Proof.
  unfold update. generalize (balls s) as ls.
  intros ls; revert s; induction ls as [ | ball rest IH]; intros s;
    cbn [fold_left]; [apply kept_refl | ].
  eapply kept_trans; [apply update_one_kept | apply IH].
Qed.

End Preservation.

Lemma same_identity_refl (o : Ball) : same_identity o o.
Proof. repeat split. Qed.

Lemma same_identity_trans (o1 o2 o3 : Ball) :
  same_identity o1 o2 -> same_identity o2 o3 -> same_identity o1 o3.
Proof. unfold same_identity; intuition congruence. Qed.

Lemma same_velocity_refl (o : Ball) : same_velocity o o.
Proof. split; reflexivity. Qed.

Lemma same_velocity_trans (o1 o2 o3 : Ball) :
  same_velocity o1 o2 -> same_velocity o2 o3 -> same_velocity o1 o3.
Proof. unfold same_velocity; intuition congruence. Qed.

Lemma color_stays_ok_refl (o : Ball) : color_stays_ok o o.
Proof. intros H; exact H. Qed.

Lemma color_stays_ok_trans (o1 o2 o3 : Ball) :
  color_stays_ok o1 o2 -> color_stays_ok o2 o3 -> color_stays_ok o1 o3.
Proof. unfold color_stays_ok; auto. Qed.

Lemma update_same_identity (s : GameLogic) (dt : R) :
  kept same_identity s (update s dt).
Proof.
  apply update_kept;
    first [ apply same_identity_refl | apply same_identity_trans
          | intros; repeat split ].
Qed.

Lemma update_color_stays_ok (s : GameLogic) (dt : R) :
  kept color_stays_ok s (update s dt).
Proof.
  apply update_kept;
    first [ apply color_stays_ok_refl | apply color_stays_ok_trans
          | intros c1 c2 o _; apply mix_with_ok
          | intros v o H; exact H ].
Qed.

(** [update] moves and recolours only balls of the active list that are
    FREE.  It leaves the lists, the dragged reference and the parameters as
    they are, keeps every object's state, identifier and radius, keeps
    colour channels in 0..255, and does not touch an object that is outside
    the active list or not FREE; with an empty active list it is the
    identity. *)
Theorem update_moves_only_free_active_balls (s : GameLogic) (dt : R) :
  update s dt = with_heap (heap (update s dt)) s
  /\ (forall l,
        state (heap (update s dt) l) = state (heap s l)
        /\ id (heap (update s dt) l) = id (heap s l)
        /\ radius (heap (update s dt) l) = radius (heap s l))
  /\ (forall l, Color_ok (color (heap s l)) ->
                Color_ok (color (heap (update s dt) l)))
  /\ (forall l, ~ In l (balls s) -> heap (update s dt) l = heap s l)
  /\ (forall l, state (heap s l) <> FREE -> heap (update s dt) l = heap s l)
  /\ (balls s = [] -> update s dt = s).
Proof.
  destruct (update_frame s dt) as [Hheap Houtside].
  split; [exact Hheap | ].
  split; [intros l; apply (update_same_identity s dt l) | ].
  split; [intros l; apply (update_color_stays_ok s dt l) | ].
  split; [exact Houtside | ].
  split.
  - intros l Hl. destruct (update_only s dt) as [_ H]. now apply H.
  - intros Hb. unfold update. now rewrite Hb.
Qed.

Lemma update_moves_only_free_active_balls_witness :
  heap (update first_drag_game 1) 1%nat = heap first_drag_game 1%nat.
Proof.
  destruct (update_moves_only_free_active_balls first_drag_game 1)
    as (_ & _ & _ & _ & H & _).
  apply H. rewrite first_drag_game_eq. cbn. discriminate.
Defined.

Lemma check_collisions_same_velocity (s : GameLogic) (ball : loc) :
  kept same_velocity s (check_collisions s ball).
Proof.
  apply check_collisions_kept;
    first [ apply same_velocity_refl | apply same_velocity_trans
          | intros; split; reflexivity ].
Qed.

Lemma check_collisions_same_identity (s : GameLogic) (ball : loc) :
  kept same_identity s (check_collisions s ball).
Proof.
  apply check_collisions_kept;
    first [ apply same_identity_refl | apply same_identity_trans
          | intros; repeat split ].
Qed.

(** The collision pass only shifts positions and mixes colours: it never
    changes a velocity, radius, state or identifier, it leaves the lists
    and the parameters alone, and it does not touch an object that is
    neither the ball of the pass nor in the active list. *)
Theorem check_collisions_never_changes_velocity (s : GameLogic) (ball : loc) :
  check_collisions s ball = with_heap (heap (check_collisions s ball)) s
  /\ (forall l,
        vx (heap (check_collisions s ball) l) = vx (heap s l)
        /\ vy (heap (check_collisions s ball) l) = vy (heap s l)
        /\ radius (heap (check_collisions s ball) l) = radius (heap s l)
        /\ state (heap (check_collisions s ball) l) = state (heap s l)
        /\ id (heap (check_collisions s ball) l) = id (heap s l))
  /\ (forall l, ~ In l (ball :: balls s) ->
                heap (check_collisions s ball) l = heap s l).
Proof.
  destruct (fold_collide_frame ball (balls s) s) as [Hheap Houtside].
  fold (check_collisions s ball) in Hheap, Houtside.
  split; [exact Hheap | split; [ | exact Houtside]].
  intros l.
  destruct (check_collisions_same_velocity s ball l) as [V1 V2].
  destruct (check_collisions_same_identity s ball l) as (I1 & I2 & I3).
  repeat split; assumption.
Qed.

Lemma check_collisions_never_changes_velocity_witness :
  heap (check_collisions overlapping_game 0%nat) 7%nat
  = heap overlapping_game 7%nat.
Proof.
  destruct (check_collisions_never_changes_velocity overlapping_game 0%nat)
    as (_ & _ & H).
  apply H. cbn. intros [E | [E | [E | []]]]; discriminate.
Defined.

(** ** Collisions of any two balls *)



(** The loop body of the collision pass returns the state it was given
    when the other ball is not FREE, when the two centres coincide (so it
    never divides by zero), and when the balls do not overlap. *)
Theorem collide_with_skips (s : GameLogic) (ball other : loc) :
  let ob := heap s ball in
  let oo := heap s other in
  (state oo <> FREE -> collide_with ball s other = s)
  /\ (x oo = x ob -> y oo = y ob -> collide_with ball s other = s)
  /\ (radius ob + radius oo <= distance_to ob (x oo) (y oo) ->
      collide_with ball s other = s)
  /\ collide_with ball s ball = s.
Proof.
  intros ob oo. repeat split.
  - intros Hst. unfold collide_with, deref; fold oo.
    destruct (state oo); [congruence | | ];
      cbn [is_FREE negb]; now rewrite orb_true_r.
  - intros Ex Ey. unfold collide_with, deref; fold ob; fold oo.
    destruct (_ || _); [reflexivity | ].
    rewrite Ex, Ey, distance_to_self.
    assert (E : Rgt_b 0 0 = false) by (apply Rlt_b_false; lra).
    now rewrite E, andb_false_r.
  - intros Hfar. unfold collide_with, deref; fold ob; fold oo.
    destruct (_ || _); [reflexivity | ].
    assert (E : Rlt_b (distance_to ob (x oo) (y oo)) (radius ob + radius oo)
                = false) by (apply Rlt_b_false; lra).
    now rewrite E.
  - apply collide_with_self.
Qed.

Lemma collide_with_skips_witness :
  collide_with 0%nat (sample_game [red_ball; red_ball] [0%nat; 1%nat] [])
    1%nat
  = sample_game [red_ball; red_ball] [0%nat; 1%nat] [].
Proof.
  destruct (collide_with_skips
              (sample_game [red_ball; red_ball] [0%nat; 1%nat] [])
              0%nat 1%nat) as (_ & H & _).
  apply H; reflexivity.
Defined.

(** ** The arena *)

(** After the boundary pass a ball that fits into the arena lies inside
    it on each axis ([radius <= x <= width - radius], and the same for [y]
    and the height).  A ball that already lies inside is left alone: the
    pass returns the state it was given. *)
Theorem check_boundaries_contains (s : GameLogic) (ball : loc) :
  let o := heap s ball in
  let o' := heap (check_boundaries s ball) ball in
  (0 <= 2 * radius o <= screen_width s ->
     radius o <= x o' <= screen_width s - radius o)
  /\ (0 <= 2 * radius o <= screen_height s ->
     radius o <= y o' <= screen_height s - radius o)
  /\ (radius o <= x o <= screen_width s - radius o ->
      radius o <= y o <= screen_height s - radius o ->
      check_boundaries s ball = s).
Proof.
  intros o o'.
  set (ox := heap (bounce_x s ball) ball).
  destruct (bounce_y_keeps_x (bounce_x s ball) ball) as (Kx & _).
  fold ox in Kx.
  change (heap (bounce_y (bounce_x s ball) ball) ball) with o' in Kx.
  destruct (bounce_x_keeps_y s ball) as (Ly & Lvy & Lr & _).
  fold ox in Ly, Lvy, Lr; fold o in Ly, Lvy, Lr.
  pose proof (bounce_x_ball s ball) as Bx; cbv zeta in Bx.
  fold o in Bx; fold ox in Bx.
  pose proof (check_boundaries_ball s ball) as By; cbv zeta in By.
  fold ox in By; fold o' in By. rewrite Ly, Lvy, Lr in By.
  split; [ | split].
  - intros [Hr0 Hfit]. rewrite Kx, Bx. unfold Rgt_b.
    destruct (Rlt_b (x o - radius o) 0) eqn:E1;
      [cbn [x with_x with_vx]; lra | ].
    apply Rlt_b_false in E1.
    destruct (Rlt_b (screen_width s) (x o + radius o)) eqn:E2;
      [cbn [x with_x with_vx]; lra | ].
    apply Rlt_b_false in E2. lra.
  - intros [Hr0 Hfit]. rewrite By. unfold Rgt_b.
    destruct (Rlt_b (y o - radius o) 0) eqn:E1;
      [cbn [y with_y with_vy]; lra | ].
    apply Rlt_b_false in E1.
    destruct (Rlt_b (screen_height s) (y o + radius o)) eqn:E2;
      [cbn [y with_y with_vy]; lra | ].
    apply Rlt_b_false in E2. rewrite Ly. lra.
  - intros [Hx0 Hx1] [Hy0 Hy1].
    assert (Ex : bounce_x s ball = s).
    { unfold bounce_x, Rgt_b, deref; fold o.
      assert (E1 : Rlt_b (x o - radius o) 0 = false)
        by (apply Rlt_b_false; lra).
      assert (E2 : Rlt_b (screen_width s) (x o + radius o) = false)
        by (apply Rlt_b_false; lra).
      now rewrite E1, E2. }
    unfold check_boundaries. rewrite Ex.
    unfold bounce_y, Rgt_b, deref; fold o.
    assert (E1 : Rlt_b (y o - radius o) 0 = false)
      by (apply Rlt_b_false; lra).
    assert (E2 : Rlt_b (screen_height s) (y o + radius o) = false)
      by (apply Rlt_b_false; lra).
    now rewrite E1, E2.
Qed.

Lemma check_boundaries_contains_witness :
  check_boundaries demo_game 0%nat = demo_game.
Proof.
  destruct (check_boundaries_contains demo_game 0%nat) as (_ & _ & H).
  apply H; cbn; lra.
Defined.

(** ** Grabbing *)

Lemma grabbable_spec (h : Heap) (mx my : R) (l : loc) :
  grabbable h mx my l = true
  <-> state (h l) = FREE /\ distance_to (h l) mx my <= radius (h l).
Proof.
  unfold grabbable. rewrite andb_true_iff, Rle_b_true.
  destruct (state (h l)); cbn [is_FREE]; intuition congruence.
Qed.

Lemma first_grabbable_split (h : Heap) (mx my : R) (ls : list loc) (l : loc) :
  first_grabbable h mx my ls = Some l ->
  exists before after,
    ls = before ++ l :: after
    /\ grabbable h mx my l = true
    /\ forall l', In l' before -> grabbable h mx my l' = false.
Proof.
  induction ls as [ | l0 rest IH]; cbn [first_grabbable]; [discriminate | ].
  destruct (grabbable h mx my l0) eqn:G.
  - intros [= <-]. exists [], rest. repeat split; [exact G | intros l' []].
  - intros H. destruct (IH H) as (before & after & -> & Gl & Hb).
    exists (l0 :: before), after. repeat split; [exact Gl | ].
    intros l' [<- | Hl']; [exact G | now apply Hb].
Qed.

Lemma first_grabbable_none (h : Heap) (mx my : R) (ls : list loc) :
  first_grabbable h mx my ls = None
  <-> forall l, In l ls -> grabbable h mx my l = false.
Proof.
  induction ls as [ | l0 rest IH]; cbn [first_grabbable].
  - split; [intros _ l [] | reflexivity].
  - destruct (grabbable h mx my l0) eqn:G.
    + split; [discriminate | ].
      intros H. rewrite (H l0 (or_introl eq_refl)) in G. discriminate.
    + rewrite IH. split.
      * intros H l [<- | Hl]; [exact G | now apply H].
      * intros H l Hl. apply H. now right.
Qed.

(** [start_drag] fails exactly when no active ball is FREE with the cursor
    within its radius, and then returns the state it was given.  When it
    succeeds the grabbed ball is the last such ball of the active list (the
    top-most one): it becomes BEING_DRAGGED and the dragged reference, the
    offset is its position minus the cursor, and the lists and all other
    objects are as before. *)
Theorem start_drag_grabs_topmost (s : GameLogic) (mx my : R) :
  (snd (start_drag s mx my) = false
   <-> forall l, In l (balls s) ->
         ~ (state (heap s l) = FREE
            /\ distance_to (heap s l) mx my <= radius (heap s l)))
  /\ (snd (start_drag s mx my) = false -> fst (start_drag s mx my) = s)
  /\ (snd (start_drag s mx my) = true ->
      exists ball below above,
        let s' := fst (start_drag s mx my) in
        balls s = below ++ ball :: above
        /\ state (heap s ball) = FREE
        /\ distance_to (heap s ball) mx my <= radius (heap s ball)
        /\ (forall l, In l above ->
              ~ (state (heap s l) = FREE
                 /\ distance_to (heap s l) mx my <= radius (heap s l)))
        /\ dragged_ball s' = Some ball
        /\ heap s' ball = with_state BEING_DRAGGED (heap s ball)
        /\ drag_offset_x s' = x (heap s ball) - mx
        /\ drag_offset_y s' = y (heap s ball) - my
        /\ balls s' = balls s /\ inventory s' = inventory s
        /\ (forall l, l <> ball -> heap s' l = heap s l)).
Proof.
  destruct (first_grabbable (heap s) mx my (rev (balls s))) as [ball | ]
    eqn:E.
  - rewrite (start_drag_grabs s mx my ball E); cbn [fst snd].
    split; [ | split; [discriminate | ]].
    + split; [discriminate | ]. intros H. exfalso.
      apply first_grabbable_some in E as (Hin & Hfree & Hd).
      apply in_rev in Hin. exact (H ball Hin (conj Hfree Hd)).
    + intros _.
      apply first_grabbable_split in E as (before & after & Hrev & G & Hb).
      exists ball, (rev after), (rev before).
      apply grabbable_spec in G as [Gf Gd].
      cbv zeta; heap_simpl.
      split.
      { rewrite <- (rev_involutive (balls s)), Hrev, rev_app_distr.
        cbn [rev]. now rewrite <- app_assoc. }
      repeat split; try assumption.
      * intros l Hl Hgrab. apply in_rev in Hl.
        apply grabbable_spec in Hgrab. rewrite (Hb l Hl) in Hgrab.
        discriminate.
      * intros l Hl. now apply upd_other.
  - rewrite (start_drag_misses s mx my E); cbn [fst snd].
    split; [ | split; [reflexivity | discriminate]].
    split; [ | reflexivity]. intros _ l Hl Hgrab.
    apply grabbable_spec in Hgrab.
    rewrite (proj1 (first_grabbable_none _ _ _ _) E l) in Hgrab;
      [discriminate | now apply in_rev in Hl].
Qed.

Lemma start_drag_grabs_topmost_witness :
  fst (start_drag (GameLogic_init 800 600) 10 10) = GameLogic_init 800 600.
Proof.
  apply (start_drag_grabs_topmost (GameLogic_init 800 600) 10 10).
  reflexivity.
Defined.

(** ** Dragging and releasing *)

Lemma start_drag_success (s : GameLogic) (mx my : R) (ball : loc) :
  snd (start_drag s mx my) = true ->
  dragged_ball (fst (start_drag s mx my)) = Some ball ->
  first_grabbable (heap s) mx my (rev (balls s)) = Some ball.
Proof.
  intros Hret Hd.
  destruct (first_grabbable (heap s) mx my (rev (balls s))) as [b0 | ] eqn:E.
  - rewrite (start_drag_grabs s mx my b0 E) in Hd. cbn in Hd. exact Hd.
  - rewrite (start_drag_misses s mx my E) in Hret. discriminate.
Qed.

(** The state after a successful [start_drag] followed by [drag_ball]. *)
Lemma drag_after_grab (s : GameLogic) (mx my px py : R) (ball : loc) :
  first_grabbable (heap s) mx my (rev (balls s)) = Some ball ->
  drag_ball (fst (start_drag s mx my)) px py =
    let s1 :=
      with_drag_offset (x (heap s ball) - mx) (y (heap s ball) - my)
        (modify ball (with_state BEING_DRAGGED)
           (with_dragged_ball (Some ball) s)) in
    modify ball (with_y (py + (y (heap s ball) - my)))
      (modify ball (with_x (px + (x (heap s ball) - mx))) s1).
Proof.
  intros E. rewrite (start_drag_grabs s mx my ball E); cbn [fst].
  unfold drag_ball; heap_simpl. reflexivity.
Qed.

(** A grabbed ball follows the cursor at the offset of the grab: after a
    successful [start_drag] at [(mx, my)] and a [drag_ball] to [(px, py)]
    the ball has moved by [(px - mx, py - my)]; it is BEING_DRAGGED, keeps
    its velocity, radius, colour and identifier, and nothing else
    changes. *)
Theorem drag_follows_cursor (s : GameLogic) (mx my px py : R) (ball : loc) :
  snd (start_drag s mx my) = true ->
  dragged_ball (fst (start_drag s mx my)) = Some ball ->
  let s2 := drag_ball (fst (start_drag s mx my)) px py in
  x (heap s2 ball) = x (heap s ball) + (px - mx)
  /\ y (heap s2 ball) = y (heap s ball) + (py - my)
  /\ state (heap s2 ball) = BEING_DRAGGED
  /\ vx (heap s2 ball) = vx (heap s ball)
  /\ vy (heap s2 ball) = vy (heap s ball)
  /\ radius (heap s2 ball) = radius (heap s ball)
  /\ color (heap s2 ball) = color (heap s ball)
  /\ id (heap s2 ball) = id (heap s ball)
  /\ balls s2 = balls s /\ inventory s2 = inventory s
  /\ dragged_ball s2 = Some ball
  /\ (forall l, l <> ball -> heap s2 l = heap s l).
Proof.
  intros Hret Hd s2.
  pose proof (start_drag_success s mx my ball Hret Hd) as E.
  subst s2. rewrite (drag_after_grab s mx my px py ball E).
  cbv zeta; heap_simpl.
  repeat split; try lra.
  intros l Hl. now rewrite !upd_other by exact Hl.
Qed.

Lemma drag_follows_cursor_witness :
  x (heap (drag_ball first_drag_game 250 40) 1%nat)
  = x (heap twin_game 1%nat) + (250 - 100).
Proof.
  assert (Hret : snd (start_drag twin_game 100 0) = true)
    by (rewrite twin_game_first_press; reflexivity).
  assert (Hd : dragged_ball (fst (start_drag twin_game 100 0)) = Some 1%nat)
    by (rewrite twin_game_first_press; reflexivity).
  exact (proj1 (drag_follows_cursor twin_game 100 0 250 40 1%nat Hret Hd)).
Defined.

(** Releasing outside both zones at the point the ball was last dragged
    to: [end_drag] returns [False], the ball is FREE where it was dragged
    to, and its new velocity is [0.1 * (grab point - centre at the grab)];
    it depends on where the ball was grabbed, not on how far or how fast
    the cursor moved. *)
Theorem release_flicks_by_grab_offset
    (s : GameLogic) (mx my px py : R) (ball : loc) :
  snd (start_drag s mx my) = true ->
  dragged_ball (fst (start_drag s mx my)) = Some ball ->
  is_in_delete_zone s px py = false ->
  in_inventory_target s px py = false ->
  let s2 := drag_ball (fst (start_drag s mx my)) px py in
  exists s3,
    end_drag s2 px py = Some (s3, false)
    /\ dragged_ball s3 = None
    /\ state (heap s3 ball) = FREE
    /\ vx (heap s3 ball) = (mx - x (heap s ball)) * 0.1
    /\ vy (heap s3 ball) = (my - y (heap s ball)) * 0.1
    /\ x (heap s3 ball) = x (heap s ball) + (px - mx)
    /\ y (heap s3 ball) = y (heap s ball) + (py - my)
    /\ balls s3 = balls s /\ inventory s3 = inventory s
    /\ (forall l, l <> ball -> heap s3 l = heap s l).
Proof.
  intros Hret Hd Hzone Htarget s2.
  pose proof (start_drag_success s mx my ball Hret Hd) as E.
  subst s2. rewrite (drag_after_grab s mx my px py ball E).
  cbv zeta.
  set (s2 := modify ball _ (modify ball _ _)).
  assert (Z2 : is_in_delete_zone s2 px py = is_in_delete_zone s px py)
    by reflexivity.
  assert (T2 : in_inventory_target s2 px py = in_inventory_target s px py)
    by reflexivity.
  assert (D2 : dragged_ball s2 = Some ball) by reflexivity.
  unfold end_drag. rewrite D2, Z2, Hzone.
  fold (in_inventory_target s2 px py). rewrite T2, Htarget.
  eexists; split; [reflexivity | ].
  subst s2; heap_simpl.
  repeat split; try lra.
  intros l Hl. now rewrite !upd_other by exact Hl.
Qed.

Lemma release_flicks_by_grab_offset_witness :
  exists s3,
    end_drag (drag_ball first_drag_game 250 40) 250 40 = Some (s3, false)
    /\ vx (heap s3 1%nat) = (100 - x (heap twin_game 1%nat)) * 0.1.
Proof.
  assert (Hret : snd (start_drag twin_game 100 0) = true)
    by (rewrite twin_game_first_press; reflexivity).
  assert (Hd : dragged_ball (fst (start_drag twin_game 100 0)) = Some 1%nat)
    by (rewrite twin_game_first_press; reflexivity).
  assert (Hz : is_in_delete_zone twin_game 250 40 = false).
  { unfold is_in_delete_zone, Rge_b.
    assert (E : Rle_b (delete_zone_y twin_game) 40 = false)
      by (apply Rle_b_false; cbn; lra).
    now rewrite E. }
  assert (Ht : in_inventory_target twin_game 250 40 = false).
  { unfold in_inventory_target. apply Rle_b_false. intros Hle.
    assert (Hgt : 30 < sqrt ((250 - (screen_width twin_game - 100)) ^ 2
                             + (40 - 50) ^ 2))
      by (apply sqrt_above; cbn; lra).
    lra. }
  destruct (release_flicks_by_grab_offset twin_game 100 0 250 40 1%nat
              Hret Hd Hz Ht) as (s3 & Hend & _ & _ & Hvx & _).
  exists s3. split; [exact Hend | exact Hvx].
Defined.

(** ** Storing and ejecting *)

Lemma list_pop_last (ls : list loc) (d : loc) :
  list_pop (length ls) (ls ++ [d]) = ls /\ nth (length ls) (ls ++ [d]) O = d.
Proof.
  unfold list_pop. split.
  - rewrite firstn_app, firstn_all, Nat.sub_diag. cbn [firstn].
    rewrite skipn_all2 by (rewrite length_app; cbn; lia).
    now rewrite !app_nil_r.
  - rewrite app_nth2 by lia. now rewrite Nat.sub_diag.
Qed.

(** Dropping the dragged ball on the inventory target and ejecting the
    last inventory slot brings it back: both calls return [True], the
    inventory is what it was, the ball is FREE and active again with its
    radius, colour and identifier, but it is now the last (top-most) active
    ball, at the drawn position [(uniform(50, width - 50), uniform(50, 150))]
    with the drawn velocity [(uniform(-2, 2), uniform(-2, 2))]. *)
Theorem store_then_eject_round_trip
    (s : GameLogic) (mx my : R) (d : loc) (dr : EjectDraws) :
  drag_inv s -> dragged_ball s = Some d ->
  is_in_delete_zone s mx my = false ->
  in_inventory_target s mx my = true ->
  exists s1,
    end_drag s mx my = Some (s1, true)
    /\ let res :=
         eject_ball_from_inventory s1 (Z.of_nat (length (inventory s))) dr in
       snd res = true
       /\ inventory (fst res) = inventory s
       /\ balls (fst res) = remove Nat.eq_dec d (balls s) ++ [d]
       /\ dragged_ball (fst res) = None
       /\ state (heap (fst res) d) = FREE
       /\ radius (heap (fst res) d) = radius (heap s d)
       /\ color (heap (fst res) d) = color (heap s d)
       /\ id (heap (fst res) d) = id (heap s d)
       /\ x (heap (fst res) d) = uniform 50 (screen_width s - 50) (eject_x dr)
       /\ y (heap (fst res) d) = uniform 50 150 (eject_y dr)
       /\ vx (heap (fst res) d) = uniform (-2) 2 (eject_vx dr)
       /\ vy (heap (fst res) d) = uniform (-2) 2 (eject_vy dr)
       /\ (forall l, l <> d -> heap (fst res) l = heap s l).
Proof.
  intros Hinv Hd Hzone Htarget.
  unfold end_drag. rewrite Hd, Hzone.
  fold (in_inventory_target s mx my). rewrite Htarget.
  rewrite (add_to_inventory_dragged s d Hinv Hd).
  eexists; split; [reflexivity | ].
  cbv zeta. unfold eject_ball_from_inventory.
  cbn [inventory with_dragged_ball with_inventory].
  assert (Hin : index_in_range (Z.of_nat (length (inventory s)))
                  (inventory s ++ [d]) = true).
  { apply index_in_range_spec. rewrite length_app; cbn. lia. }
  rewrite Hin, Nat2Z.id.
  destruct (list_pop_last (inventory s) d) as [-> ->].
  cbn [fst snd]; heap_simpl.
  repeat split.
  intros l Hl. now rewrite !upd_other by exact Hl.
Qed.

Lemma first_drag_game_target :
  is_in_delete_zone first_drag_game 700 50 = false
  /\ in_inventory_target first_drag_game 700 50 = true.
Proof.
  rewrite first_drag_game_eq. split.
  - unfold is_in_delete_zone, Rge_b.
    assert (E : Rle_b (600 - 50) 50 = false) by (apply Rle_b_false; lra).
    cbn [delete_zone_y with_drag_offset modify with_heap with_dragged_ball
         twin_game one_ball_game add_ball snd with_balls with_next_loc
         GameLogic_init].
    now rewrite E.
  - unfold in_inventory_target. apply Rle_b_true.
    cbn [screen_width with_drag_offset modify with_heap with_dragged_ball
         twin_game one_ball_game add_ball snd with_balls with_next_loc
         GameLogic_init].
    replace ((700 - (800 - 100)) ^ 2 + (50 - 50) ^ 2) with 0 by ring.
    rewrite sqrt_0. lra.
Qed.

Lemma store_then_eject_round_trip_witness :
  exists s1,
    end_drag first_drag_game 700 50 = Some (s1, true)
    /\ inventory
         (fst (eject_ball_from_inventory s1
                 (Z.of_nat (length (inventory first_drag_game)))
                 middle_draws))
       = inventory first_drag_game.
Proof.
  assert (Hinv : drag_inv first_drag_game)
    by exact (reachable_idle_press_drag_inv _ _ _ first_drag_game_reachable).
  assert (Hd : dragged_ball first_drag_game = Some 1%nat)
    by (rewrite first_drag_game_eq; reflexivity).
  destruct first_drag_game_target as [Hz Ht].
  destruct (store_then_eject_round_trip first_drag_game 700 50 1%nat
              middle_draws Hinv Hd Hz Ht) as (s1 & Hend & _ & Hi & _).
  exists s1. split; [exact Hend | exact Hi].
Defined.

(** ** Clearing *)

(** [clear_all_balls] empties both lists and drops the dragged reference
    (objects and parameters are not touched).  In the cleared state a frame
    changes nothing, no press can grab anything, a release or a drag has no
    effect and no index can be ejected; the state keeps the drag
    protocol. *)
Theorem clear_all_balls_resets
    (s : GameLogic) (dt mx my : R) (i : Z) (dr : EjectDraws) :
  let s' := clear_all_balls s in
  balls s' = [] /\ inventory s' = [] /\ dragged_ball s' = None
  /\ heap s' = heap s /\ next_loc s' = next_loc s
  /\ update s' dt = s'
  /\ start_drag s' mx my = (s', false)
  /\ drag_ball s' mx my = s'
  /\ end_drag s' mx my = Some (s', false)
  /\ eject_ball_from_inventory s' i dr = (s', false)
  /\ drag_inv s'
  /\ clear_all_balls s' = s'.
Proof.
  intros s'. subst s'.
  repeat split; try reflexivity.
  - unfold eject_ball_from_inventory, index_in_range.
    cbn [clear_all_balls inventory with_dragged_ball with_inventory
         with_balls length Z.of_nat].
    destruct (0 <=? i)%Z eqn:E0; cbn [andb]; [ | reflexivity].
    apply Z.leb_le in E0.
    assert (E1 : (i <? 0)%Z = false) by (apply Z.ltb_ge; lia).
    now rewrite E1.
  - constructor.
  - constructor.
  - intros l [].
  - intros l [].
  - intros l [].
Qed.

(** ** The fixed parameters *)

Lemma same_params_refl (s : GameLogic) : same_params s s.
Proof. repeat split. Qed.

Lemma heap_only_same_params (s s' : GameLogic) :
  heap_only s s' -> same_params s s'.
Proof. unfold heap_only; intros ->; repeat split. Qed.

Lemma delete_ball_same_params (s : GameLogic) (ball : loc) :
  same_params s (delete_ball s ball).
Proof.
  unfold delete_ball.
  destruct (list_contains (heap s) (deref s ball) (balls s)).
  - destruct (list_remove (heap s) (deref s ball) (balls s));
      match goal with |- context [list_contains ?h ?v ?ls] =>
        destruct (list_contains h v ls) end;
      try (repeat split; fail);
      match goal with |- context [list_remove ?h ?v ?ls] =>
        destruct (list_remove h v ls) end; repeat split.
  - destruct (list_contains (heap s) (deref s ball) (inventory s));
      [ | repeat split].
    destruct (list_remove (heap s) (deref s ball) (inventory s));
      repeat split.
Qed.

Lemma add_to_inventory_same_params (s s1 : GameLogic) (ball : loc) :
  add_to_inventory s ball = Some s1 -> same_params s s1.
Proof.
  unfold add_to_inventory.
  destruct (list_remove _ _ _); [ | discriminate].
  intros [= <-]. repeat split.
Qed.

Lemma exec_same_params (s s' : GameLogic) (c : Command) :
  exec s c = Some s' -> same_params s s'.
Proof.
  intros Hexec.
  destruct c as [x0 y0 r0 d | dt | mx my | mx my | mx my | i d | ];
    cbn [exec] in Hexec.
  - injection Hexec as <-. repeat split.
  - injection Hexec as <-.
    apply heap_only_same_params, update_frame.
  - injection Hexec as <-. unfold start_drag.
    destruct (first_grabbable _ _ _ _); repeat split.
  - injection Hexec as <-. unfold drag_ball.
    destruct (dragged_ball s); [ | repeat split].
    destruct (is_BEING_DRAGGED _); repeat split.
  - unfold end_drag in Hexec.
    destruct (dragged_ball s) as [ball | ];
      [ | injection Hexec as <-; repeat split].
    destruct (is_in_delete_zone s mx my).
    + injection Hexec as <-.
      destruct (delete_ball_same_params s ball)
        as (P1 & P2 & P3 & P4 & P5 & P6 & P7 & P8 & P9).
      repeat split; assumption.
    + destruct (Rle_b _ 30).
      * destruct (add_to_inventory s ball) as [s1 | ] eqn:E; [ | discriminate].
        injection Hexec as <-.
        destruct (add_to_inventory_same_params s s1 ball E)
          as (P1 & P2 & P3 & P4 & P5 & P6 & P7 & P8 & P9).
        repeat split; assumption.
      * injection Hexec as <-. repeat split.
  - injection Hexec as <-. unfold eject_ball_from_inventory.
    destruct (index_in_range i (inventory s)); repeat split.
  - injection Hexec as <-. repeat split.
Qed.

Lemma sqrt_le_iff (a c : R) : 0 <= a -> 0 <= c -> (sqrt a <= c <-> a <= c * c).
Proof.
  intros Ha Hc. split.
  - intros H. rewrite <- (sqrt_sqrt a Ha).
    pose proof (sqrt_pos a). nra.
  - intros H. rewrite <- (sqrt_square c Hc). now apply sqrt_le_1_alt.
Qed.

(** No call changes a parameter: in every state reached from
    [GameLogic(w, h)] the arena is [w] by [h], the constants are those of
    the constructor, the delete zone is the band [h - 50 <= y <= h] at any
    [x], and the inventory target is the disc of radius 30 around
    [(w - 100, 50)]. *)
Theorem reachable_parameters_fixed (w h : R) (s : GameLogic) :
  reachable w h s ->
  screen_width s = w /\ screen_height s = h
  /\ delete_zone_y s = h - 50 /\ delete_zone_height s = 50
  /\ friction s = 0.98 /\ bounce_damping s = 0.8 /\ gravity s = 0.2
  /\ min_color_value s = 50%Z /\ max_color_value s = 255%Z
  /\ (forall px py,
        is_in_delete_zone s px py = true <-> h - 50 <= py <= h)
  /\ (forall px py,
        in_inventory_target s px py = true
        <-> (px - (w - 100)) ^ 2 + (py - 50) ^ 2 <= 900).
Proof.
  intros Hreach.
  assert (Hp : same_params (GameLogic_init w h) s).
  { induction Hreach as [ | s c s' _ IH _ Hexec]; [apply same_params_refl | ].
    destruct IH as (P1 & P2 & P3 & P4 & P5 & P6 & P7 & P8 & P9).
    destruct (exec_same_params s s' c Hexec)
      as (Q1 & Q2 & Q3 & Q4 & Q5 & Q6 & Q7 & Q8 & Q9).
    repeat split; congruence. }
  destruct Hp as (P1 & P2 & P3 & P4 & P5 & P6 & P7 & P8 & P9).
  cbn in P1, P2, P3, P4, P5, P6, P7, P8, P9.
  do 9 (split; [assumption | ]).
  split.
  - intros px py. rewrite is_in_delete_zone_spec, P3, P4.
    split; intros; lra.
  - intros px py. unfold in_inventory_target. rewrite Rle_b_true, P1.
    rewrite sqrt_le_iff; [split; intros; lra | | lra].
    assert (H1 := pow2_ge_0 (px - (w - 100))).
    assert (H2 := pow2_ge_0 (py - 50)). lra.
Qed.

Lemma reachable_parameters_fixed_witness :
  bounce_damping first_drag_game = 0.8.
Proof.
  assert (Hr : reachable 800 600 first_drag_game)
    by exact (reachable_idle_press_reachable _ _ _ first_drag_game_reachable).
  destruct (reachable_parameters_fixed 800 600 first_drag_game Hr)
    as (_ & _ & _ & _ & _ & H & _).
  exact H.
Defined.

(** ** The lists under any caller *)

Lemma list_remove_NoDup (h : Heap) (v : Ball) (ls ls' : list loc) :
  NoDup ls -> list_remove h v ls = Some ls' -> NoDup ls'.
Proof.
  intros Hnd; revert ls'.
  induction Hnd as [ | l rest Hnotin Hnd IH]; intros ls' H; cbn in H.
  - discriminate.
  - destruct (Ball_eqb (h l) v); [now injection H as <- | ].
    destruct (list_remove h v rest) as [rest' | ] eqn:E; [ | discriminate].
    injection H as <-. constructor; [ | now apply IH].
    intros Hin. apply Hnotin. now apply (list_remove_incl h v rest rest' E).
Qed.

Lemma list_remove_found (h : Heap) (d : loc) (ls : list loc) :
  In d ls -> exists ls', list_remove h (h d) ls = Some ls'.
Proof.
  induction ls as [ | l rest IH]; intros Hin; [contradiction | ].
  cbn. destruct (Ball_eqb (h l) (h d)) eqn:E; [now exists rest | ].
  destruct Hin as [-> | Hin]; [rewrite Ball_eqb_refl in E; discriminate | ].
  destruct (IH Hin) as (rest' & ->). now exists (l :: rest').
Qed.

Lemma store_inv_init (w h : R) : store_inv (GameLogic_init w h).
Proof.
  unfold store_inv; cbn.
  split; [constructor | split; [constructor | ]].
  repeat split; try (intros l []); discriminate.
Qed.

Lemma store_inv_states_kept (s s' : GameLogic) :
  states_kept s s' -> store_inv s -> store_inv s'.
Proof.
  intros [(Hb & Hi & Hd & _) Hst] (Hnd & Hndi & Hdisj & Hstored & Hact & Hdrag).
  unfold store_inv; rewrite Hb, Hi, Hd.
  repeat split; try assumption.
  - intros l Hl; rewrite Hst; now apply Hstored.
  - intros l Hl; rewrite Hst; now apply Hact.
  - now apply Hdrag.
  - rewrite Hst. now apply Hdrag.
Qed.

Lemma add_to_inventory_active (s : GameLogic) (d : loc) :
  store_inv s -> In d (balls s) ->
  add_to_inventory s d =
    Some (with_inventory (inventory s ++ [d])
            (with_balls (remove Nat.eq_dec d (balls s))
               (modify d (with_state IN_INVENTORY) s))).
Proof.
  intros (Hnd & _ & _ & _ & Hact & _) Hin.
  unfold add_to_inventory, deref.
  cbn [modify with_heap heap balls].
  rewrite (list_remove_unique _ _ d (balls s) Hnd Hin eq_refl);
    [reflexivity | ].
  intros l Hl Hne. rewrite upd_same, upd_other by exact Hne.
  intros Heq. destruct (Hact l Hl) as [Hs | Hs];
    rewrite Heq in Hs; cbn in Hs; discriminate.
Qed.

Lemma delete_ball_dragged_any (s : GameLogic) (d : loc) :
  store_inv s -> dragged_ball s = Some d ->
  exists ls',
    delete_ball s d = with_balls ls' s
    /\ NoDup ls' /\ incl ls' (balls s).
Proof.
  intros (Hnd & _ & _ & Hstored & _ & Hdrag) Hd.
  destruct (Hdrag d Hd) as [Hin Hst].
  unfold delete_ball, deref.
  rewrite (list_contains_present (heap s) (heap s d) d (balls s) Hin eq_refl).
  destruct (list_remove_found (heap s) d (balls s) Hin) as (ls' & E).
  rewrite E. cbn [heap with_balls inventory].
  rewrite list_contains_absent.
  - exists ls'. split; [reflexivity | ].
    split; [exact (list_remove_NoDup _ _ _ _ Hnd E) | ].
    exact (list_remove_incl _ _ _ _ E).
  - intros l Hl Heq. apply Hstored in Hl. rewrite Heq in Hl. congruence.
Qed.

Lemma exec_store_inv (s s' : GameLogic) (c : Command) :
  alloc_inv s -> store_inv s -> exec s c = Some s' -> store_inv s'.
Proof.
  intros [Hmem Hdin] Hinv Hexec.
  pose proof Hinv as (Hnd & Hndi & Hdisj & Hstored & Hact & Hdrag).
  destruct c as [x0 y0 r0 d | dt | mx my | mx my | mx my | i d | ];
    cbn [exec] in Hexec.
  - injection Hexec as <-.
    assert (Hfresh : forall l, In l (balls s) \/ In l (inventory s) ->
                               l <> next_loc s).
    { intros l Hl Heq. assert (l < next_loc s)%nat; [ | lia].
      apply Hmem, in_or_app; exact Hl. }
    unfold store_inv; cbn [add_ball snd]; heap_simpl.
    split; [ | split; [exact Hndi | split; [ | split; [ | split]]]].
    + apply NoDup_app; [exact Hnd | repeat constructor; intros [] | ].
      intros a Ha [<- | []].
      now apply (Hfresh (next_loc s) (or_introl Ha)).
    + intros l Hl Hin. apply in_app_or in Hl.
      destruct Hl as [Hl | [<- | []]].
      * now apply (Hdisj l).
      * now apply (Hfresh (next_loc s) (or_intror Hin)).
    + intros l Hl. rewrite upd_other by (apply Hfresh; now right).
      now apply Hstored.
    + intros l Hl. apply in_app_or in Hl.
      destruct Hl as [Hl | [<- | []]].
      * rewrite upd_other by (apply Hfresh; now left). now apply Hact.
      * rewrite upd_same. now left.
    + intros d0 Hd0. destruct (Hdrag d0 Hd0) as [Hin Hst].
      split; [apply in_or_app; now left | ].
      rewrite upd_other by (apply Hfresh; now left). exact Hst.
  - injection Hexec as <-.
    apply (store_inv_states_kept s); [ | exact Hinv].
    apply physics_only_states_kept, update_only.
  - injection Hexec as <-. unfold start_drag.
    destruct (first_grabbable _ _ _ _) as [ball | ] eqn:E; cbn [fst];
      [ | exact Hinv].
    apply first_grabbable_some in E as (Hin & Hfree & _).
    apply in_rev in Hin.
    unfold store_inv; heap_simpl.
    repeat split; try assumption.
    + intros l Hl. rewrite upd_other; [now apply Hstored | ].
      intros ->. now apply (Hdisj ball).
    + intros l Hl. destruct (Nat.eq_dec l ball) as [-> | Hne].
      * rewrite upd_same. now right.
      * rewrite upd_other by exact Hne. now apply Hact.
    + now injection H as <-.
    + injection H as <-. now rewrite upd_same.
  - injection Hexec as <-.
    apply (store_inv_states_kept s); [ | exact Hinv].
    apply drag_ball_states_kept.
  - unfold end_drag in Hexec.
    destruct (dragged_ball s) as [ball | ] eqn:Hd;
      [ | now injection Hexec as <-].
    destruct (Hdrag ball eq_refl) as [Hin Hst].
    destruct (is_in_delete_zone s mx my).
    + destruct (delete_ball_dragged_any s ball Hinv Hd)
        as (ls' & E & Hnd' & Hincl).
      rewrite E in Hexec. injection Hexec as <-.
      unfold store_inv; heap_simpl.
      repeat split; try assumption.
      * intros l Hl. apply Hdisj. now apply Hincl.
      * intros l Hl. apply Hact. now apply Hincl.
      * discriminate.
      * discriminate.
    + destruct (Rle_b _ 30).
      * rewrite (add_to_inventory_active s ball Hinv Hin) in Hexec.
        injection Hexec as <-.
        unfold store_inv; heap_simpl.
        split; [now apply NoDup_remove_loc | ].
        split; [ | split; [ | split; [ | split]]].
        -- apply NoDup_app; [exact Hndi | repeat constructor; intros [] | ].
           intros a Ha [<- | []]. now apply (Hdisj ball).
        -- intros l Hl Hl'. apply in_remove in Hl as [Hl Hne].
           apply in_app_or in Hl'. destruct Hl' as [Hl' | [Heq | []]].
           ++ now apply (Hdisj l).
           ++ congruence.
        -- intros l Hl. apply in_app_or in Hl.
           destruct Hl as [Hl | [<- | []]].
           ++ rewrite upd_other; [now apply Hstored | ].
              intros ->. now apply (Hdisj ball).
           ++ now rewrite upd_same.
        -- intros l Hl. apply in_remove in Hl as [Hl Hne].
           rewrite upd_other by exact Hne. now apply Hact.
        -- discriminate.
      * injection Hexec as <-.
        unfold store_inv; heap_simpl.
        split; [exact Hnd | split; [exact Hndi | split; [exact Hdisj | ]]].
        split; [ | split; [ | discriminate]].
        -- intros l Hl. rewrite !upd_other; [now apply Hstored | | | ];
             intros ->; now apply (Hdisj ball).
        -- intros l Hl. destruct (Nat.eq_dec l ball) as [-> | Hne].
           ++ rewrite upd_same. now left.
           ++ rewrite !upd_other by exact Hne. now apply Hact.
  - injection Hexec as <-. unfold eject_ball_from_inventory.
    destruct (index_in_range i (inventory s)) eqn:E; cbn [fst];
      [ | exact Hinv].
    pose proof (nth_in_range i (inventory s) E) as Hball.
    apply index_in_range_spec in E.
    assert (Hi : (Z.to_nat i < length (inventory s))%nat) by lia.
    destruct (list_pop_NoDup (Z.to_nat i) (inventory s) Hi Hndi)
      as [Hpop Hgone].
    set (ball := nth (Z.to_nat i) (inventory s) O) in *.
    assert (Hnotactive : ~ In ball (balls s))
      by (intros Hin; now apply (Hdisj ball)).
    unfold store_inv; heap_simpl.
    split; [ | split; [exact Hpop | split; [ | split; [ | split]]]].
    + apply NoDup_app; [exact Hnd | repeat constructor; intros [] | ].
      intros a Ha [<- | []]. contradiction.
    + intros l Hl Hl'. apply in_app_or in Hl.
      destruct Hl as [Hl | [<- | []]].
      * apply (Hdisj l Hl). now apply (list_pop_incl (Z.to_nat i)).
      * contradiction.
    + intros l Hl. rewrite !upd_other by (intros ->; contradiction).
      apply Hstored. now apply (list_pop_incl (Z.to_nat i)).
    + intros l Hl. apply in_app_or in Hl.
      destruct Hl as [Hl | [<- | []]].
      * rewrite !upd_other by (intros ->; contradiction). now apply Hact.
      * rewrite upd_same. now left.
    + intros d0 Hd0. destruct (Hdrag d0 Hd0) as [Hin Hst].
      split; [apply in_or_app; now left | ].
      rewrite !upd_other by (intros ->; contradiction). exact Hst.
  - injection Hexec as <-. unfold store_inv; cbn.
    split; [constructor | split; [constructor | ]].
    repeat split; try (intros l []); discriminate.
Qed.

Lemma reachable_store_inv (w h : R) (s : GameLogic) :
  reachable w h s -> store_inv s.
Proof.
  induction 1 as [ | s c s' Hreach IH _ Hexec]; [apply store_inv_init | ].
  apply (exec_store_inv s s' c); try assumption.
  exact (reachable_alloc_inv w h s Hreach).
Qed.

(** In every state the engine can reach, whatever the caller does, no
    ball occurs twice in a list or in both lists, all listed balls are
    allocated, stored balls are IN_INVENTORY, active balls are FREE or
    BEING_DRAGGED, and a non-null dragged reference is an active ball that
    is BEING_DRAGGED. *)
Theorem reachable_lists_well_formed (w h : R) (s : GameLogic) :
  reachable w h s ->
  NoDup (balls s ++ inventory s)
  /\ (forall l, In l (balls s ++ inventory s) -> (l < next_loc s)%nat)
  /\ (forall l, In l (inventory s) -> state (heap s l) = IN_INVENTORY)
  /\ (forall l, In l (balls s) ->
        state (heap s l) = FREE \/ state (heap s l) = BEING_DRAGGED)
  /\ (forall d, dragged_ball s = Some d ->
        In d (balls s) /\ state (heap s d) = BEING_DRAGGED).
Proof.
  intros Hreach.
  destruct (reachable_store_inv w h s Hreach)
    as (Hnd & Hndi & Hdisj & Hstored & Hact & Hdrag).
  destruct (reachable_alloc_inv w h s Hreach) as [Hmem _].
  split; [now apply NoDup_app | ].
  repeat split; try assumption; now apply Hdrag.
Qed.

Lemma reachable_lists_well_formed_witness :
  NoDup (balls second_drag_game ++ inventory second_drag_game).
Proof.
  assert (R1 : reachable 800 600 first_drag_game)
    by exact (reachable_idle_press_reachable _ _ _ first_drag_game_reachable).
  assert (R2 : reachable 800 600 second_drag_game)
    by (apply (reach_step 800 600 first_drag_game (StartDrag 0 0));
        [exact R1 | exact I | reflexivity]).
  exact (proj1 (reachable_lists_well_formed 800 600 second_drag_game R2)).
Defined.

(** The [ValueError] of [list.remove] never occurs in a reachable state.
    The unguarded [self.balls.remove(ball)] of [_add_to_inventory] finds
    its element for every active ball, so no call ends in that error (the
    only exception of the model; the OverflowError of [**] on floats
    beyond the range of squares is outside it, floats being reals).
    [end_drag] always clears the dragged reference, and it returns [True]
    exactly when a ball was being dragged and the cursor was in the delete
    zone or on the inventory target. *)
Theorem reachable_no_ValueError
    (w h : R) (s : GameLogic) (c : Command) (mx my : R) :
  reachable w h s ->
  (forall ball, In ball (balls s) ->
     exists s', add_to_inventory s ball = Some s')
  /\ (exists s', exec s c = Some s')
  /\ exists s' ret,
       end_drag s mx my = Some (s', ret)
       /\ dragged_ball s' = None
       /\ ret = match dragged_ball s with
                | None => false
                | Some _ =>
                    is_in_delete_zone s mx my || in_inventory_target s mx my
                end.
Proof.
  intros Hreach.
  pose proof (reachable_store_inv w h s Hreach) as Hinv.
  split.
  { intros ball Hin. rewrite (add_to_inventory_active s ball Hinv Hin).
    eexists; reflexivity. }
  assert (Hend : forall px py, exists s' ret,
       end_drag s px py = Some (s', ret)
       /\ dragged_ball s' = None
       /\ ret = match dragged_ball s with
                | None => false
                | Some _ =>
                    is_in_delete_zone s px py || in_inventory_target s px py
                end).
  { intros px py. unfold end_drag.
    fold (in_inventory_target s px py).
    destruct (dragged_ball s) as [ball | ] eqn:Hd.
    - destruct Hinv as (_ & _ & _ & _ & _ & Hdrag).
      destruct (Hdrag ball Hd) as [Hin _].
      destruct (is_in_delete_zone s px py); cbn [orb].
      + eexists; eexists; repeat split.
      + destruct (in_inventory_target s px py).
        * rewrite (add_to_inventory_active s ball
                     (reachable_store_inv w h s Hreach) Hin).
          eexists; eexists; repeat split.
        * eexists; eexists; repeat split.
    - exists s, false. repeat split. exact Hd. }
  split; [ | apply Hend].
  destruct c as [x0 y0 r0 d | dt | px py | px py | px py | i d | ];
    cbn [exec]; try (eexists; reflexivity).
  destruct (Hend px py) as (s' & ret & -> & _). now exists s'.
Qed.

Lemma reachable_no_ValueError_witness :
  exists s', exec second_drag_game (EndDrag 700 50) = Some s'.
Proof.
  assert (R1 : reachable 800 600 first_drag_game)
    by exact (reachable_idle_press_reachable _ _ _ first_drag_game_reachable).
  assert (R2 : reachable 800 600 second_drag_game)
    by (apply (reach_step 800 600 first_drag_game (StartDrag 0 0));
        [exact R1 | exact I | reflexivity]).
  exact (proj1 (proj2 (reachable_no_ValueError 800 600 second_drag_game
                         (EndDrag 700 50) 0 0 R2))).
Defined.

(** ** Radius and colour over time *)

Lemma exec_radius_color (s s' : GameLogic) (c : Command) :
  exec s c = Some s' ->
  forall l, (forall x0 y0 r0 d, c = AddBall x0 y0 r0 d -> l <> next_loc s) ->
            radius (heap s' l) = radius (heap s l)
            /\ color_stays_ok (heap s l) (heap s' l).
Proof.
  intros Hexec l Hfresh.
  assert (Hsame : forall o : Ball,
            radius o = radius o /\ color_stays_ok o o)
    by (intros o; split; [reflexivity | apply color_stays_ok_refl]).
  destruct c as [x0 y0 r0 d | dt | mx my | mx my | mx my | i d | ];
    cbn [exec] in Hexec.
  - injection Hexec as <-. cbn [add_ball snd heap with_balls with_next_loc
                                 with_heap].
    rewrite upd_other by exact (Hfresh x0 y0 r0 d eq_refl). apply Hsame.
  - injection Hexec as <-. split.
    + apply (update_same_identity s dt l).
    + apply (update_color_stays_ok s dt l).
  - injection Hexec as <-. unfold start_drag.
    destruct (first_grabbable _ _ _ _); [ | apply Hsame].
    cbn [fst]; heap_simpl.
    unfold upd; destruct (Nat.eqb l l0) eqn:E; [ | apply Hsame].
    apply Nat.eqb_eq in E; subst. split; [reflexivity | intros H; exact H].
  - injection Hexec as <-. unfold drag_ball.
    destruct (dragged_ball s) as [ball | ]; [ | apply Hsame].
    destruct (is_BEING_DRAGGED _); [ | apply Hsame].
    heap_simpl. unfold upd; destruct (Nat.eqb l ball) eqn:E; [ | apply Hsame].
    apply Nat.eqb_eq in E; subst. split; [reflexivity | intros H; exact H].
  - unfold end_drag in Hexec.
    destruct (dragged_ball s) as [ball | ];
      [ | injection Hexec as <-; apply Hsame].
    destruct (is_in_delete_zone s mx my).
    + injection Hexec as <-. cbn [heap with_dragged_ball].
      rewrite delete_ball_heap. apply Hsame.
    + destruct (Rle_b _ 30).
      * destruct (add_to_inventory s ball) as [s1 | ] eqn:E; [ | discriminate].
        injection Hexec as <-. cbn [heap with_dragged_ball].
        apply add_to_inventory_some in E as (-> & _).
        unfold upd; destruct (Nat.eqb l ball) eqn:E; [ | apply Hsame].
        apply Nat.eqb_eq in E; subst.
        split; [reflexivity | intros H; exact H].
      * injection Hexec as <-. heap_simpl.
        unfold upd; destruct (Nat.eqb l ball) eqn:E; [ | apply Hsame].
        apply Nat.eqb_eq in E; subst.
        split; [reflexivity | intros H; exact H].
  - injection Hexec as <-. unfold eject_ball_from_inventory.
    destruct (index_in_range i (inventory s)); [ | apply Hsame].
    cbn [fst]; heap_simpl.
    unfold upd; destruct (Nat.eqb l _) eqn:E; [ | apply Hsame].
    apply Nat.eqb_eq in E; subst. split; [reflexivity | intros H; exact H].
  - injection Hexec as <-. apply Hsame.
Qed.

(** The radius of a ball is the one it was created with: no call changes
    the radius of a ball that is in the active list or in the inventory. *)
Theorem radius_never_changes (w h : R) (s s' : GameLogic) (c : Command) :
  reachable w h s -> exec s c = Some s' ->
  forall l, In l (balls s ++ inventory s) ->
            radius (heap s' l) = radius (heap s l).
Proof.
  intros Hreach Hexec l Hl.
  apply (exec_radius_color s s' c Hexec).
  intros x0 y0 r0 d _ ->.
  destruct (reachable_alloc_inv w h s Hreach) as [Hmem _].
  apply Hmem in Hl. lia.
Qed.

Lemma radius_never_changes_witness :
  radius (heap first_drag_game 1%nat) = radius (heap twin_game 1%nat).
Proof.
  assert (Hr : reachable 800 600 twin_game)
    by exact (reachable_idle_press_reachable _ _ _ twin_game_reachable).
  apply (radius_never_changes 800 600 twin_game first_drag_game
           (StartDrag 100 0) Hr eq_refl).
  right; now left.
Defined.

Lemma reachable_colors_ok (w h : R) (s : GameLogic) :
  reachable w h s -> forall l, Color_ok (color (heap s l)).
Proof.
  intros Hreach.
  induction Hreach as [ | s c s' _ IH _ Hexec].
  - intros l; cbn. unfold Color_ok, channel_ok; cbn. lia.
  - intros l.
    destruct c as [x0 y0 r0 d | dt | mx my | mx my | mx my | i d | ];
      try (apply (exec_radius_color s s' _ Hexec l);
           [intros; discriminate | apply IH]).
    destruct (Nat.eq_dec l (next_loc s)) as [-> | Hne].
    + cbn [exec] in Hexec. injection Hexec as <-.
      cbn [add_ball snd]; heap_simpl. cbn [Ball_init color].
      unfold generate_random_color. destruct (_ || _); apply Color_init_ok.
    + apply (exec_radius_color s s' _ Hexec l);
        [intros x1 y1 r1 d1 _; exact Hne | apply IH].
Qed.

Lemma quality_in_unit (s : GameLogic) (ball : Ball) :
  Color_ok (color ball) -> 0 <= get_ball_quality_score s ball <= 1.
Proof.
  intros Hc.
  unfold get_ball_quality_score, quality_of_color.
  destruct (is_white _); [lra | ].
  destruct (Rlt_b _ 0.1); [lra | ].
  split; [ | apply Rmin_l].
  apply Rmin_glb; [lra | ].
  pose proof (get_brightness_range _ Hc) as [Hb0 _].
  pose proof (sqrt_pos (get_saturation (color ball))) as Hs0.
  pose proof (spread_range _ Hc) as [H0 H1].
  rewrite Z.abs_eq by lia.
  pose proof (balance_range _ Hc) as [Hbal0 _].
  apply Rmult_le_pos; [apply Rmult_le_pos; assumption | lra].
Qed.

(** Colour channels stay in 0..255: in every reachable state every object
    has a colour with channels in 0..255, so its quality score is defined
    by the three cases and lies in [0, 1]. *)
Theorem reachable_colors_valid (w h : R) (s : GameLogic) :
  reachable w h s ->
  forall l, Color_ok (color (heap s l))
            /\ 0 <= get_ball_quality_score s (heap s l) <= 1.
Proof.
  intros Hreach l.
  pose proof (reachable_colors_ok w h s Hreach l) as Hc.
  split; [exact Hc | now apply quality_in_unit].
Qed.

Lemma reachable_colors_valid_witness :
  Color_ok (color (heap twin_game 0%nat)).
Proof.
  assert (Hr : reachable 800 600 twin_game)
    by exact (reachable_idle_press_reachable _ _ _ twin_game_reachable).
  exact (proj1 (reachable_colors_valid 800 600 twin_game Hr 0%nat)).
Defined.

(** ** Read accessors *)

Lemma enumerate_from_length (n : nat) (ls : list loc) :
  length (enumerate_from n ls) = length ls.
Proof.
  revert n; induction ls as [ | l rest IH]; intros n; cbn;
    [reflexivity | now rewrite IH].
Qed.

Lemma enumerate_from_nth (n i : nat) (ls : list loc) :
  nth_error (enumerate_from n ls) i
  = option_map (fun l => ((n + i)%nat, l)) (nth_error ls i).
Proof.
  revert n i; induction ls as [ | l rest IH]; intros n i.
  - now destruct i.
  - destruct i as [ | i]; cbn [enumerate_from nth_error option_map].
    + now rewrite Nat.add_0_r.
    + rewrite IH. now rewrite Nat.add_succ_r.
Qed.

(** In a reachable state the two info lists mirror the two lists of the
    engine, in order.  Entry [i] of [get_inventory_info] has index [i] and
    the colour and radius of the ball in slot [i]; [get_balls_info] reports
    only the states "free" and "being_dragged"; every reported quality lies
    in [0, 1]. *)
Theorem info_lists_mirror_reachable_state (w h : R) (s : GameLogic) :
  reachable w h s ->
  length (get_inventory_info s) = length (inventory s)
  /\ length (get_balls_info s) = length (balls s)
  /\ (forall i e, nth_error (get_inventory_info s) i = Some e ->
        info_index e = i /\ 0 <= info_quality e <= 1
        /\ exists l, nth_error (inventory s) i = Some l
                     /\ info_color e = color_tuple (color (heap s l))
                     /\ info_radius e = radius (heap s l))
  /\ (forall i e, nth_error (get_balls_info s) i = Some e ->
        (info_state e = "free"%string
         \/ info_state e = "being_dragged"%string)
        /\ 0 <= info_ball_quality e <= 1
        /\ exists l, nth_error (balls s) i = Some l
                     /\ info_id e = id (heap s l)
                     /\ info_x e = x (heap s l) /\ info_y e = y (heap s l)).
Proof.
  intros Hreach.
  pose proof (reachable_colors_ok w h s Hreach) as Hcol.
  destruct (reachable_store_inv w h s Hreach) as (_ & _ & _ & _ & Hact & _).
  unfold get_inventory_info, get_balls_info.
  rewrite !length_map, enumerate_from_length.
  split; [reflexivity | split; [reflexivity | split]].
  - intros i e He. rewrite nth_error_map, enumerate_from_nth in He.
    destruct (nth_error (inventory s) i) as [l | ] eqn:El; [ | discriminate].
    cbn in He. injection He as <-. cbn [info_index info_quality info_color
                                        info_radius fst snd].
    split; [reflexivity | split; [apply quality_in_unit, Hcol | ]].
    exists l. repeat split.
  - intros i e He. rewrite nth_error_map in He.
    destruct (nth_error (balls s) i) as [l | ] eqn:El; [ | discriminate].
    cbn in He. injection He as <-.
    cbn [info_state info_ball_quality info_id info_x info_y].
    split; [ | split; [apply quality_in_unit, Hcol | ]].
    + apply nth_error_In in El.
      unfold deref. destruct (Hact l El) as [-> | ->]; [now left | now right].
    + exists l. repeat split.
Qed.

Lemma info_lists_mirror_reachable_state_witness :
  length (get_balls_info twin_game) = length (balls twin_game).
Proof.
  assert (Hr : reachable 800 600 twin_game)
    by exact (reachable_idle_press_reachable _ _ _ twin_game_reachable).
  destruct (info_lists_mirror_reachable_state 800 600 twin_game Hr)
    as (_ & H & _).
  exact H.
Defined.

(** * The window *)

(** ** Events as engine calls *)

Lemma spawn_fold_exec (g : BallGame) (draws : nat -> R * AddDraws)
    (ls : list nat) (gl : GameLogic) :
  exec_list gl (map (spawn_command g draws) ls)
  = Some (fold_left (spawn_initial g draws) ls gl).
Proof.
  revert gl; induction ls as [ | i rest IH]; intros gl; cbn [map exec_list
    fold_left]; [reflexivity | ].
  unfold spawn_command at 1; cbn [exec]. apply IH.
Qed.

Lemma end_drag_total (s : GameLogic) (mx my : R) :
  store_inv s -> exists s' ret, end_drag s mx my = Some (s', ret).
Proof.
  intros Hinv. unfold end_drag.
  destruct (dragged_ball s) as [ball | ] eqn:Hd; [ | now exists s, false].
  destruct (is_in_delete_zone s mx my); [eexists; eexists; reflexivity | ].
  destruct (Rle_b _ 30); [ | eexists; eexists; reflexivity].
  pose proof Hinv as (_ & _ & _ & _ & _ & Hdrag).
  destruct (Hdrag ball Hd) as [Hin _].
  rewrite (add_to_inventory_active s ball Hinv Hin).
  eexists; eexists; reflexivity.
Qed.

Lemma end_drag_clears (s s' : GameLogic) (mx my : R) (ret : bool) :
  end_drag s mx my = Some (s', ret) -> dragged_ball s' = None.
Proof.
  unfold end_drag.
  destruct (dragged_ball s) as [ball | ] eqn:Hd;
    [ | intros [= <- _]; exact Hd].
  destruct (is_in_delete_zone s mx my); [now intros [= <- _] | ].
  destruct (Rle_b _ 30); [ | now intros [= <- _]].
  destruct (add_to_inventory s ball); [now intros [= <- _] | discriminate].
Qed.

(** The engine of the window after an event is the engine before it run
    through the calls of the event; the handler raises only if one of them
    does. *)
Lemma handle_event_engine (g : BallGame) (ev : Event * EventDraws) :
  match handle_event as_script g ev with
  | Some (g', _) =>
      exec_list (game_logic g) (event_commands g ev) = Some (game_logic g')
  | None => exec_list (game_logic g) (event_commands g ev) = None
  end.
Proof.
  destruct ev as [e d]. unfold handle_event, event_commands; cbn [fst snd].
  destruct e as [ | k | button pos | button pos | pos | ]; try reflexivity.
  - destruct k; try reflexivity.
    cbn [exec_list exec]. unfold initialize_game_body; cbn [game_logic
      with_game_logic]. apply spawn_fold_exec.
  - destruct (button =? 1)%Z; [ | reflexivity].
    unfold handle_mouse_down; cbn [exec_list exec].
    destruct (snd (start_drag _ _ _)); reflexivity.
  - destruct (button =? 1)%Z; cbn [andb]; [ | reflexivity].
    unfold handle_mouse_up. destruct (is_dragging g); [ | reflexivity].
    cbn [exec_list exec].
    destruct (end_drag _ _ _) as [[gl ret] | ]; reflexivity.
  - unfold handle_mouse_drag. destruct (is_dragging g); reflexivity.
Qed.

Section CallsKeep.

Variable P : GameLogic -> Prop.
Hypothesis P_exec :
  forall s c s', not_a_press c -> P s -> exec s c = Some s' -> P s'.

Lemma exec_list_keeps (cs : list Command) (s s' : GameLogic) :
  Forall not_a_press cs -> P s -> exec_list s cs = Some s' -> P s'.
Proof.
  revert s; induction cs as [ | c rest IH]; intros s Hall Hs Hexec;
    cbn [exec_list] in Hexec.
  - now injection Hexec as <-.
  - inversion Hall as [ | c0 l0 Hc Hrest]; subst.
    destruct (exec s c) as [s1 | ] eqn:E; [ | discriminate].
    apply (IH s1); [exact Hrest | exact (P_exec s c s1 Hc Hs E) | exact Hexec].
Qed.

End CallsKeep.

Lemma event_commands_no_press (g : BallGame) (ev : Event * EventDraws) :
  is_left_press (fst ev) = false -> Forall not_a_press (event_commands g ev).
Proof.
  destruct ev as [e d]; cbn [fst]. unfold event_commands; cbn [fst snd].
  destruct e as [ | k | button pos | button pos | pos | ]; cbn [is_left_press];
    intros Hp; try constructor.
  - destruct k; repeat constructor.
    apply Forall_forall. intros c Hc. apply in_map_iff in Hc.
    destruct Hc as (i & <- & _). exact I.
  - rewrite Hp. constructor.
  - destruct (_ && _); repeat constructor.
  - destruct (is_dragging g); repeat constructor.
Qed.

Lemma event_commands_press (g : BallGame) (ev : Event * EventDraws) :
  is_left_press (fst ev) = true ->
  exists mx my, event_commands g ev = [StartDrag mx my].
Proof.
  destruct ev as [e d]; cbn [fst]. unfold event_commands; cbn [fst snd].
  destruct e as [ | k | button pos | button pos | pos | ]; cbn [is_left_press];
    intros Hp; try discriminate.
  rewrite Hp. now exists (IZR (fst pos)), (IZR (snd pos)).
Qed.

(** ** What the window keeps *)

Lemma exec_total (s : GameLogic) (c : Command) :
  store_inv s -> exists s', exec s c = Some s'.
Proof.
  intros Hinv.
  destruct c as [x0 y0 r0 d | dt | px py | px py | px py | i d | ];
    cbn [exec]; try (eexists; reflexivity).
  destruct (end_drag_total s px py Hinv) as (s' & ret & ->). now exists s'.
Qed.

Lemma exec_list_engine_inv (cs : list Command) (s : GameLogic) :
  alloc_inv s -> store_inv s ->
  exists s', exec_list s cs = Some s' /\ alloc_inv s' /\ store_inv s'.
Proof.
  revert s; induction cs as [ | c rest IH]; intros s Ha Hs; cbn [exec_list].
  - now exists s.
  - destruct (exec_total s c Hs) as (s1 & E). rewrite E.
    apply IH; [exact (exec_alloc_inv s s1 c Ha E) | ].
    exact (exec_store_inv s s1 c Ha Hs E).
Qed.

Lemma same_params_trans (s1 s2 s3 : GameLogic) :
  same_params s1 s2 -> same_params s2 s3 -> same_params s1 s3.
Proof.
  intros (P1 & P2 & P3 & P4 & P5 & P6 & P7 & P8 & P9)
         (Q1 & Q2 & Q3 & Q4 & Q5 & Q6 & Q7 & Q8 & Q9).
  repeat split; congruence.
Qed.

Lemma exec_list_same_params (cs : list Command) (s s' : GameLogic) :
  exec_list s cs = Some s' -> same_params s s'.
Proof.
  revert s; induction cs as [ | c rest IH]; intros s H; cbn [exec_list] in H.
  - injection H as <-. apply same_params_refl.
  - destruct (exec s c) as [s1 | ] eqn:E; [ | discriminate].
    exact (same_params_trans _ _ _ (exec_same_params s s1 c E) (IH s1 H)).
Qed.

Lemma spawn_fold_dragged (g : BallGame) (draws : nat -> R * AddDraws)
    (ls : list nat) (gl : GameLogic) :
  dragged_ball (fold_left (spawn_initial g draws) ls gl) = dragged_ball gl.
Proof.
  revert gl; induction ls as [ | i rest IH]; intros gl; cbn [fold_left];
    [reflexivity | ].
  now rewrite IH.
Qed.

Lemma start_drag_failure (s : GameLogic) (mx my : R) :
  snd (start_drag s mx my) = false -> fst (start_drag s mx my) = s.
Proof.
  unfold start_drag. destruct (first_grabbable _ _ _ _); cbn [fst snd];
    [discriminate | reflexivity].
Qed.

(** The fields of the window that no handler assigns. *)
Lemma handle_event_static (g g' : BallGame) (ev : Event * EventDraws)
    (b : bool) :
  handle_event as_script g ev = Some (g', b) ->
  width g' = width g /\ height g' = height g /\ fps g' = fps g
  /\ initial_balls g' = initial_balls g.
Proof.
  destruct ev as [e d]. unfold handle_event; cbn [fst snd].
  destruct e as [ | k | button pos | button pos | pos | ].
  - intros [= <- _]; repeat split.
  - destruct k; intros [= <- _]; repeat split.
  - destruct (button =? 1)%Z; intros [= <- _]; [ | repeat split].
    unfold handle_mouse_down. destruct (snd (start_drag _ _ _)); repeat split.
  - destruct (button =? 1)%Z; [ | intros [= <- _]; repeat split].
    unfold handle_mouse_up. destruct (is_dragging g);
      [ | intros [= <- _]; repeat split].
    destruct (end_drag _ _ _) as [[gl ret] | ]; [ | discriminate].
    intros [= <- _]; repeat split.
  - unfold handle_mouse_drag.
    destruct (is_dragging g); intros [= <- _]; repeat split.
  - intros [= <- _]; repeat split.
Qed.

Lemma handle_event_flag (g g' : BallGame) (ev : Event * EventDraws)
    (b : bool) :
  (forall d, dragged_ball (game_logic g) = Some d -> is_dragging g = true) ->
  handle_event as_script g ev = Some (g', b) ->
  forall d, dragged_ball (game_logic g') = Some d -> is_dragging g' = true.
Proof.
  intros Hflag. destruct ev as [e dr]. unfold handle_event; cbn [fst snd].
  destruct e as [ | k | button pos | button pos | pos | ].
  - intros [= <- _]; exact Hflag.
  - destruct k; intros [= <- _]; try exact Hflag.
    intros d. unfold initialize_game_body; cbn [game_logic with_game_logic].
    rewrite spawn_fold_dragged. discriminate.
  - destruct (button =? 1)%Z; intros [= <- _]; [ | exact Hflag].
    unfold handle_mouse_down.
    destruct (snd (start_drag _ _ _)) eqn:E; [reflexivity | ].
    cbn [game_logic with_game_logic is_dragging].
    rewrite (start_drag_failure _ _ _ E). exact Hflag.
  - destruct (button =? 1)%Z; [ | intros [= <- _]; exact Hflag].
    unfold handle_mouse_up. destruct (is_dragging g) eqn:Ed;
      [ | intros [= <- _]; rewrite Ed; exact Hflag].
    destruct (end_drag _ _ _) as [[gl ret] | ] eqn:E; [ | discriminate].
    intros [= <- _] d. cbn [game_logic with_game_logic with_dragging].
    rewrite (end_drag_clears _ _ _ _ _ E). discriminate.
  - unfold handle_mouse_drag.
    destruct (is_dragging g) eqn:Ed; intros [= <- _];
      [ | rewrite Ed; exact Hflag].
    intros d _. exact Ed.
  - intros [= <- _]; exact Hflag.
Qed.

Lemma handle_event_window_inv (g : BallGame) (ev : Event * EventDraws) :
  window_inv g ->
  exists g' b, handle_event as_script g ev = Some (g', b) /\ window_inv g'
               /\ same_params (game_logic g) (game_logic g').
Proof.
  intros (Ha & Hs & Hflag).
  pose proof (handle_event_engine g ev) as Heng.
  destruct (exec_list_engine_inv (event_commands g ev) (game_logic g) Ha Hs)
    as (gl' & Hexec & Ha' & Hs').
  destruct (handle_event as_script g ev) as [[g' b] | ] eqn:E;
    [ | rewrite Hexec in Heng; discriminate].
  rewrite Hexec in Heng. injection Heng as ->.
  exists g', b. split; [reflexivity | ].
  split; [ | exact (exec_list_same_params _ _ _ Hexec)].
  split; [exact Ha' | split; [exact Hs' | ]].
  exact (handle_event_flag g g' ev b Hflag E).
Qed.

Lemma handle_events_window_inv (events : list (Event * EventDraws))
    (g : BallGame) :
  window_inv g ->
  exists g' b, handle_events as_script g events = Some (g', b) /\ window_inv g'
               /\ same_params (game_logic g) (game_logic g')
               /\ width g' = width g /\ height g' = height g
               /\ fps g' = fps g /\ initial_balls g' = initial_balls g.
Proof.
  revert g; induction events as [ | ev rest IH]; intros g Hw;
    cbn [handle_events].
  - exists g, true.
    split; [reflexivity | split; [exact Hw | ]].
    split; [apply same_params_refl | repeat split].
  - destruct (handle_event_window_inv g ev Hw) as (g1 & b & E & Hw1 & Hp1).
    destruct (handle_event_static g g1 ev b E) as (S1 & S2 & S3 & S4).
    rewrite E. destruct b.
    + destruct (IH g1 Hw1) as (g' & b' & E' & Hw' & Hp' & T1 & T2 & T3 & T4).
      exists g', b'. split; [exact E' | split; [exact Hw' | ]].
      split; [exact (same_params_trans _ _ _ Hp1 Hp') | ].
      repeat split; congruence.
    + exists g1, false.
      split; [reflexivity | split; [exact Hw1 | ]].
      split; [exact Hp1 | repeat split; assumption].
Qed.

Lemma update_window_inv (g : BallGame) (dt : R) :
  window_inv g -> window_inv (with_game_logic (update (game_logic g) dt) g).
Proof.
  intros (Ha & Hs & Hflag). unfold window_inv; cbn [game_logic
    with_game_logic is_dragging].
  split; [exact (exec_alloc_inv _ _ (Update dt) Ha eq_refl) | ].
  split; [exact (exec_store_inv _ _ (Update dt) Ha Hs eq_refl) | ].
  destruct (update_only (game_logic g) dt) as [(_ & _ & Hd & _) _].
  rewrite Hd. exact Hflag.
Qed.

Lemma run_window_inv (frames : list (list (Event * EventDraws)))
    (g : BallGame) :
  window_inv g ->
  exists g', run as_script g frames = Some g' /\ window_inv g'
             /\ same_params (game_logic g) (game_logic g')
             /\ width g' = width g /\ height g' = height g
             /\ fps g' = fps g /\ initial_balls g' = initial_balls g.
Proof.
  revert g; induction frames as [ | events rest IH]; intros g Hw;
    cbn [run].
  - exists g.
    split; [reflexivity | split; [exact Hw | ]].
    split; [apply same_params_refl | repeat split].
  - unfold run_frame.
    destruct (handle_events_window_inv events g Hw)
      as (g1 & b & E & Hw1 & Hp1 & S1 & S2 & S3 & S4).
    rewrite E.
    set (g2 := with_game_logic (update (game_logic g1) (1 / IZR (fps g1))) g1).
    assert (Hw2 : window_inv g2) by now apply update_window_inv.
    assert (Hp2 : same_params (game_logic g) (game_logic g2)).
    { apply (same_params_trans _ _ _ Hp1).
      exact (exec_same_params _ _ (Update _) eq_refl). }
    destruct b.
    + destruct (IH g2 Hw2) as (g' & E' & Hw' & Hp' & T1 & T2 & T3 & T4).
      exists g'. split; [exact E' | split; [exact Hw' | ]].
      split; [exact (same_params_trans _ _ _ Hp2 Hp') | ].
      cbn [width height fps initial_balls g2 with_game_logic] in T1, T2, T3, T4.
      repeat split; congruence.
    + exists g2. split; [reflexivity | split; [exact Hw2 | ]].
      split; [exact Hp2 | ]. repeat split; assumption.
Qed.

Lemma initialize_game_window_inv (g : BallGame)
    (draws : nat -> R * AddDraws) :
  alloc_inv (game_logic g) -> store_inv (game_logic g) ->
  alloc_inv (game_logic (initialize_game_body g draws))
  /\ store_inv (game_logic (initialize_game_body g draws))
  /\ dragged_ball (game_logic (initialize_game_body g draws)) = None
  /\ same_params (game_logic g) (game_logic (initialize_game_body g draws)).
Proof.
  intros Ha Hs.
  set (cs := ClearAll
               :: map (spawn_command g draws) (seq 0 (initial_balls g))).
  assert (E : exec_list (game_logic g) cs
              = Some (game_logic (initialize_game_body g draws))).
  { subst cs; cbn [exec_list exec]. unfold initialize_game_body; cbn [game_logic
      with_game_logic]. apply spawn_fold_exec. }
  destruct (exec_list_engine_inv cs (game_logic g) Ha Hs)
    as (gl' & E' & Ha' & Hs').
  rewrite E in E'. injection E' as <-.
  split; [exact Ha' | split; [exact Hs' | split]].
  - unfold initialize_game_body; cbn [game_logic with_game_logic].
    now rewrite spawn_fold_dragged.
  - exact (exec_list_same_params _ _ _ E).
Qed.

Lemma BallGame_built_window_inv (width0 height0 : Z)
    (draws : nat -> R * AddDraws) :
  window_inv (BallGame_built width0 height0 draws)
  /\ same_params (GameLogic_init (IZR width0) (IZR (height0 - 100)))
       (game_logic (BallGame_built width0 height0 draws)).
Proof.
  unfold BallGame_built.
  set (g0 := BallGame_fields _ _).
  destruct (initialize_game_window_inv g0 draws)
    as (Ha & Hs & Hd & Hp);
    [apply alloc_inv_init | apply store_inv_init | ].
  split; [ | exact Hp].
  split; [exact Ha | split; [exact Hs | ]].
  intros d Hsome. rewrite Hd in Hsome. discriminate.
Qed.

(** ** The main loop *)

Lemma BallGame_init_some (m : Loaded) (width0 height0 : Z)
    (draws : nat -> R * AddDraws) (g : BallGame) :
  BallGame_init m width0 height0 draws = Some g ->
  m = as_script /\ g = BallGame_built width0 height0 draws.
Proof.
  destruct m; cbn; [ | discriminate].
  intros [= <-]. split; reflexivity.
Qed.

(** When [game.py] is run as the script, the constructor returns and,
    whatever events arrive and whatever the generator draws, no handler
    and no engine call of the loop of [run] raises (the drawing calls are
    outside the model).  The window keeps its size, its
    engine keeps the arena [width] by [height - 100] with the delete zone
    at [height - 150 <= y <= height - 100], the engine's lists stay free of
    duplicates, and whenever the engine drags a ball the flag [is_dragging]
    of the window is set. *)
Theorem run_never_raises (width0 height0 : Z)
    (draws : nat -> R * AddDraws)
    (frames : list (list (Event * EventDraws))) :
  exists g0 g',
    BallGame_init as_script width0 height0 draws = Some g0
    /\ run as_script g0 frames = Some g'
    /\ width g' = width0 /\ height g' = height0
    /\ screen_width (game_logic g') = IZR width0
    /\ screen_height (game_logic g') = IZR (height0 - 100)
    /\ delete_zone_y (game_logic g') = IZR (height0 - 100) - 50
    /\ delete_zone_height (game_logic g') = 50
    /\ NoDup (balls (game_logic g') ++ inventory (game_logic g'))
    /\ (forall d, dragged_ball (game_logic g') = Some d ->
          is_dragging g' = true
          /\ In d (balls (game_logic g'))
          /\ state (heap (game_logic g') d) = BEING_DRAGGED).
Proof.
  destruct (BallGame_built_window_inv width0 height0 draws) as [Hw Hp0].
  destruct (run_window_inv frames _ Hw)
    as (g' & E & (Ha & Hs & Hflag) & Hp & S1 & S2 & _).
  exists (BallGame_built width0 height0 draws), g'.
  split; [reflexivity | split; [exact E | ]].
  destruct (same_params_trans _ _ _ Hp0 Hp)
    as (P1 & P2 & P3 & P4 & _).
  cbn in P1, P2, P3, P4.
  destruct Hs as (Hnd & Hndi & Hdisj & _ & _ & Hdrag).
  split; [rewrite S1; reflexivity | split; [rewrite S2; reflexivity | ]].
  do 4 (split; [assumption | ]).
  split; [now apply NoDup_app | ].
  intros d Hd. split; [exact (Hflag d Hd) | exact (Hdrag d Hd)].
Qed.

Lemma spawn_fold_layout (g : BallGame) (draws : nat -> R * AddDraws)
    (n a : nat) (gl : GameLogic) :
  let gl' := fold_left (spawn_initial g draws) (seq a n) gl in
  balls gl' = balls gl ++ seq (next_loc gl) n
  /\ inventory gl' = inventory gl
  /\ next_loc gl' = (next_loc gl + n)%nat
  /\ (forall l, (l < next_loc gl)%nat -> heap gl' l = heap gl l)
  /\ (forall j, (j < n)%nat ->
        let o := heap gl' (next_loc gl + j)%nat in
        x o = IZR (spawn_x g (a + j)%nat) /\ y o = IZR (spawn_y (a + j)%nat)
        /\ radius o = uniform 18 25 (fst (draws (a + j)%nat))
        /\ state o = FREE).
Proof.
  revert a gl; induction n as [ | n IH]; intros a gl; cbn [seq fold_left].
  - cbv zeta. rewrite app_nil_r, Nat.add_0_r.
    split; [reflexivity | ].
    split; [reflexivity | ].
    split; [reflexivity | ].
    split; [reflexivity | ].
    intros j Hj; lia.
  - specialize (IH (S a) (spawn_initial g draws gl a)).
    cbv zeta in IH. destruct IH as (Hb & Hi & Hn & Hold & Hnew).
    cbv zeta.
    assert (Hb1 : balls (spawn_initial g draws gl a)
                  = balls gl ++ [next_loc gl]) by reflexivity.
    assert (Hn1 : next_loc (spawn_initial g draws gl a) = S (next_loc gl))
      by reflexivity.
    rewrite Hb1, Hn1 in *.
    split; [rewrite Hb, <- app_assoc; reflexivity | ].
    split; [rewrite Hi; reflexivity | ].
    split; [rewrite Hn; lia | ].
    split.
    + intros l Hl. rewrite Hold by lia.
      unfold spawn_initial; cbn [add_ball snd heap with_balls with_next_loc
        with_heap]. apply upd_other. lia.
    + intros [ | j] Hj.
      * rewrite !Nat.add_0_r. rewrite Hold by lia.
        unfold spawn_initial; cbn [add_ball snd heap with_balls with_next_loc
          with_heap]. rewrite upd_same. repeat split.
      * replace (next_loc gl + S j)%nat with (S (next_loc gl) + j)%nat by lia.
        replace (a + S j)%nat with (S a + j)%nat by lia.
        apply Hnew. lia.
Qed.

Lemma BallGame_built_balls (width0 height0 : Z)
    (draws : nat -> R * AddDraws) :
  balls (game_logic (BallGame_built width0 height0 draws)) = seq 0 8.
Proof.
  destruct (spawn_fold_layout (BallGame_fields width0 height0) draws 8 0
              (clear_all_balls
                 (game_logic (BallGame_fields width0 height0))))
    as (Hb & _).
  exact Hb.
Qed.

(** ** One drag at a time *)

Lemma flag_off_nothing_dragged (g : BallGame) :
  window_inv g -> is_dragging g = false ->
  dragged_ball (game_logic g) = None.
Proof.
  intros (_ & _ & Hflag) Hoff.
  destruct (dragged_ball (game_logic g)) as [d | ] eqn:E; [ | reflexivity].
  rewrite (Hflag d eq_refl) in Hoff. discriminate.
Qed.

Lemma exec_keeps_protocol (s : GameLogic) (c : Command) (s' : GameLogic) :
  not_a_press c -> alloc_inv s /\ drag_inv s -> exec s c = Some s' ->
  alloc_inv s' /\ drag_inv s'.
Proof.
  intros Hc [Ha Hd] E. split; [exact (exec_alloc_inv s s' c Ha E) | ].
  apply (exec_drag_inv s s' c Ha Hd); [ | exact E].
  destruct c; try exact I. contradiction.
Qed.

Lemma handle_event_protocol (g g' : BallGame) (ev : Event * EventDraws)
    (b : bool) :
  window_inv g -> drag_inv (game_logic g) ->
  (is_left_press (fst ev) = true -> is_dragging g = false) ->
  handle_event as_script g ev = Some (g', b) -> drag_inv (game_logic g').
Proof.
  intros Hw Hd Hpress E.
  pose proof (handle_event_engine g ev) as Heng. rewrite E in Heng.
  pose proof Hw as (Ha & _ & _).
  destruct (is_left_press (fst ev)) eqn:Ep.
  - destruct (event_commands_press g ev Ep) as (mx & my & Hcs).
    rewrite Hcs in Heng. cbn [exec_list exec] in Heng.
    injection Heng as <-.
    apply start_drag_drag_inv; [ | exact Hd].
    apply flag_off_nothing_dragged; [exact Hw | now apply Hpress].
  - apply (exec_list_keeps (fun s => alloc_inv s /\ drag_inv s)
             exec_keeps_protocol (event_commands g ev) (game_logic g)
             (game_logic g')).
    + now apply event_commands_no_press.
    + split; assumption.
    + exact Heng.
Qed.

Lemma handle_events_protocol (events : list (Event * EventDraws))
    (g g' : BallGame) (b : bool) :
  window_inv g -> drag_inv (game_logic g) ->
  presses_while_idle as_script g events ->
  handle_events as_script g events = Some (g', b) ->
  window_inv g' /\ drag_inv (game_logic g').
Proof.
  revert g; induction events as [ | ev rest IH]; intros g Hw Hd Hidle E;
    cbn [handle_events] in E.
  - injection E as <- _. split; assumption.
  - cbn [presses_while_idle] in Hidle. destruct Hidle as [Hpress Hrest].
    destruct (handle_event_window_inv g ev Hw) as (g1 & b1 & E1 & Hw1 & _).
    rewrite E1 in E, Hrest.
    pose proof (handle_event_protocol g g1 ev b1 Hw Hd Hpress E1) as Hd1.
    destruct b1.
    + exact (IH g1 Hw1 Hd1 Hrest E).
    + injection E as <- _. split; assumption.
Qed.

Lemma run_protocol (frames : list (list (Event * EventDraws)))
    (g g' : BallGame) :
  window_inv g -> drag_inv (game_logic g) ->
  frames_press_while_idle as_script g frames ->
  run as_script g frames = Some g' ->
  window_inv g' /\ drag_inv (game_logic g').
Proof.
  revert g; induction frames as [ | events rest IH]; intros g Hw Hd Hidle E;
    cbn [run] in E.
  - injection E as <-. split; assumption.
  - cbn [frames_press_while_idle] in Hidle. destruct Hidle as [Hev Hrest].
    unfold run_frame in E, Hrest.
    destruct (handle_events as_script g events) as [[g1 b] | ] eqn:E1;
      [ | discriminate].
    destruct (handle_events_protocol events g g1 b Hw Hd Hev E1)
      as [Hw1 Hd1].
    set (g2 := with_game_logic (update (game_logic g1) (1 / IZR (fps g1))) g1)
      in *.
    assert (Hw2 : window_inv g2) by now apply update_window_inv.
    assert (Hd2 : drag_inv (game_logic g2)).
    { apply (drag_inv_states_kept (game_logic g1)); [ | exact Hd1].
      apply physics_only_states_kept, update_only. }
    destruct b.
    + exact (IH g2 Hw2 Hd2 Hrest E).
    + injection E as <-. split; assumption.
Qed.

Lemma BallGame_built_protocol (width0 height0 : Z)
    (draws : nat -> R * AddDraws) :
  drag_inv (game_logic (BallGame_built width0 height0 draws)).
Proof.
  unfold BallGame_built.
  set (g0 := BallGame_fields _ _).
  set (cs := ClearAll
               :: map (spawn_command g0 draws) (seq 0 (initial_balls g0))).
  assert (E : exec_list (game_logic g0) cs
              = Some (game_logic (initialize_game_body g0 draws))).
  { subst cs; cbn [exec_list exec]. unfold initialize_game_body; cbn [game_logic
      with_game_logic]. apply spawn_fold_exec. }
  apply (exec_list_keeps (fun s => alloc_inv s /\ drag_inv s)
           exec_keeps_protocol cs (game_logic g0)
           (game_logic (initialize_game_body g0 draws))); [ | | exact E].
  - subst cs. constructor; [exact I | ].
    apply Forall_forall. intros c Hc. apply in_map_iff in Hc.
    destruct Hc as (i & <- & _). exact I.
  - split; [apply alloc_inv_init | apply drag_inv_init].
Qed.

(** When every left press arrives while the window is not dragging (the
    mouse alternates press and release), the engine of a window that was
    built never holds two dragged balls: after any number of frames at most
    one active ball is BEING_DRAGGED, it is the engine's dragged reference,
    and all other active balls are FREE. *)
Theorem window_drags_one_ball (m : Loaded) (width0 height0 : Z)
    (draws : nat -> R * AddDraws)
    (frames : list (list (Event * EventDraws))) (g0 g' : BallGame) :
  BallGame_init m width0 height0 draws = Some g0 ->
  frames_press_while_idle m g0 frames ->
  run m g0 frames = Some g' ->
  let gl := game_logic g' in
  (forall l1 l2, In l1 (balls gl) -> In l2 (balls gl) ->
     state (heap gl l1) = BEING_DRAGGED ->
     state (heap gl l2) = BEING_DRAGGED -> l1 = l2)
  /\ (forall l, In l (balls gl) ->
        (state (heap gl l) = BEING_DRAGGED <-> dragged_ball gl = Some l)
        /\ (state (heap gl l) = BEING_DRAGGED \/ state (heap gl l) = FREE))
  /\ (is_dragging g' = false -> forall l, In l (balls gl) ->
        state (heap gl l) = FREE).
Proof.
  intros Hinit Hidle E gl.
  destruct (BallGame_init_some _ _ _ _ _ Hinit) as [-> ->].
  destruct (BallGame_built_window_inv width0 height0 draws) as [Hw0 _].
  destruct (run_protocol frames _ g' Hw0
              (BallGame_built_protocol width0 height0 draws) Hidle E)
    as [Hw (Hnd & _ & _ & _ & Hdrag)].
  fold gl in Hdrag, Hnd.
  assert (Hchar : forall l, In l (balls gl) ->
        (state (heap gl l) = BEING_DRAGGED <-> dragged_ball gl = Some l)
        /\ (state (heap gl l) = BEING_DRAGGED \/ state (heap gl l) = FREE)).
  { intros l Hl. destruct (dragged_ball gl) as [d | ] eqn:Ed.
    - destruct Hdrag as (Hin & Hst & Hfree).
      destruct (Nat.eq_dec l d) as [-> | Hne].
      + split; [tauto | now left].
      + rewrite (Hfree l Hl Hne). split; [ | now right].
        split; [discriminate | intros [= ->]; contradiction].
    - rewrite (Hdrag l Hl). split; [ | now right].
      split; discriminate. }
  split; [ | split; [exact Hchar | ]].
  - intros l1 l2 H1 H2 S1 S2.
    apply (Hchar l1 H1) in S1. apply (Hchar l2 H2) in S2. congruence.
  - intros Hoff l Hl.
    pose proof (flag_off_nothing_dragged g' Hw Hoff) as Hnone.
    fold gl in Hnone. rewrite Hnone in Hdrag. now apply Hdrag.
Qed.

Lemma steady_window_last_ball :
  let gl := game_logic steady_window in
  balls gl = seq 0 8
  /\ x (heap gl 7%nat) = 680 /\ y (heap gl 7%nat) = 230
  /\ radius (heap gl 7%nat) = uniform 18 25 0.5
  /\ state (heap gl 7%nat) = FREE.
Proof.
  intros gl.
  destruct (spawn_fold_layout (BallGame_fields 1000 700) steady_draws 8 0
              (clear_all_balls (game_logic (BallGame_fields 1000 700))))
    as (Hb & _ & _ & _ & Hnew).
  assert (H7 : (7 < 8)%nat) by lia.
  destruct (Hnew 7%nat H7) as (Hx & Hy & Hr & Hs).
  split; [exact Hb | ].
  split; [exact Hx | split; [exact Hy | split; [exact Hr | exact Hs]]].
Qed.

Lemma steady_window_press :
  exists g1,
    handle_event as_script steady_window
      (MOUSEBUTTONDOWN 1 (680, 230)%Z, steady_event_draws) = Some (g1, true)
    /\ dragged_ball (game_logic g1) = Some 7%nat
    /\ balls (game_logic g1) = seq 0 8.
Proof.
  destruct steady_window_last_ball as (Hb & Hx & Hy & Hr & Hs).
  set (gl := game_logic steady_window) in *.
  assert (G : first_grabbable (heap gl) (IZR 680) (IZR 230) (rev (balls gl))
              = Some 7%nat).
  { rewrite Hb. cbn [seq rev app first_grabbable].
    assert (G7 : grabbable (heap gl) 680 230 7%nat = true).
    { unfold grabbable, distance_to. rewrite Hs, Hx, Hy, Hr.
      cbn [is_FREE andb]. apply Rle_b_true.
      replace ((680 - 680) ^ 2 + (230 - 230) ^ 2) with 0 by ring.
      rewrite sqrt_0. unfold uniform. lra. }
    now rewrite G7. }
  unfold handle_event; cbn [fst snd Z.eqb Pos.eqb].
  unfold handle_mouse_down; cbn [fst snd]. fold gl.
  rewrite (start_drag_grabs gl _ _ 7%nat G). cbn [fst snd].
  eexists. split; [reflexivity | ].
  cbn [game_logic with_dragging with_game_logic]. heap_simpl.
  split; [reflexivity | exact Hb].
Qed.

Lemma press_frames_run :
  exists g',
    run as_script steady_window press_frames = Some g'
    /\ dragged_ball (game_logic g') = Some 7%nat
    /\ balls (game_logic g') = seq 0 8.
Proof.
  destruct steady_window_press as (g1 & E & Hd & Hb).
  unfold press_frames. cbn [run]. unfold run_frame. cbn [handle_events].
  rewrite E. cbn [handle_events].
  eexists. split; [reflexivity | ].
  cbn [game_logic with_game_logic].
  destruct (update_only (game_logic g1) (1 / IZR (fps g1)))
    as [(Hb' & _ & Hd' & _) _].
  rewrite Hd', Hb'. split; assumption.
Qed.

Lemma press_frames_idle :
  frames_press_while_idle as_script steady_window press_frames.
Proof.
  unfold press_frames.
  cbn [frames_press_while_idle presses_while_idle fst].
  split; [split; [intros _; reflexivity | ] | ].
  - destruct (handle_event as_script steady_window _) as [[g1 [ | ]] | ];
      exact I.
  - destruct (run_frame as_script steady_window _) as [[g1 [ | ]] | ];
      exact I.
Qed.

Lemma window_drags_one_ball_witness :
  exists g',
    run as_script steady_window press_frames = Some g'
    /\ dragged_ball (game_logic g') = Some 7%nat
    /\ state (heap (game_logic g') 7%nat) = BEING_DRAGGED
    /\ state (heap (game_logic g') 0%nat) = FREE.
Proof.
  destruct press_frames_run as (g' & E & Hd & Hb).
  exists g'. split; [exact E | split; [exact Hd | ]].
  destruct (window_drags_one_ball as_script 1000 700 steady_draws
              press_frames steady_window g' eq_refl press_frames_idle E)
    as (_ & H & _).
  assert (H7 : In 7%nat (balls (game_logic g')))
    by (rewrite Hb; cbn; tauto).
  assert (H0 : In 0%nat (balls (game_logic g')))
    by (rewrite Hb; cbn; tauto).
  split.
  - apply (H 7%nat H7). exact Hd.
  - destruct (H 0%nat H0) as [Hiff [Hdrag | Hfree]]; [ | exact Hfree].
    apply Hiff in Hdrag. rewrite Hd in Hdrag. discriminate.
Defined.

(** ** Loading the module *)

(** [initialize_game] raises exactly when the name [random] is unbound and
    there is a ball to spawn.  The constructor sets [initial_balls] to 8,
    so a window can be built only when [game.py] is the script: [main.py],
    which imports the module, never gets a window, runs no frame and ends
    in its error report, whatever the events and draws would have been. *)
Theorem window_built_only_as_script (m : Loaded) (g : BallGame)
    (width0 height0 : Z) (draws : nat -> R * AddDraws)
    (frames : list (list (Event * EventDraws))) :
  (initialize_game m g draws = None
   <-> m = as_module /\ initial_balls g <> 0%nat)
  /\ (BallGame_init m width0 height0 draws = None <-> m = as_module)
  /\ (play m width0 height0 draws frames = None <-> m = as_module)
  /\ main_py draws frames = error_reported.
Proof.
  split; [ | split; [ | split; [ | reflexivity]]].
  - unfold initialize_game.
    destruct m; cbn [random_bound orb].
    + split; [discriminate | intros [[=] _]].
    + destruct (initial_balls g) as [ | n]; cbn [Nat.eqb].
      * split; [discriminate | intros [_ H]; now contradiction H].
      * split; [intros _; split; [reflexivity | discriminate] | reflexivity].
  - destruct m; cbn; split; try reflexivity; discriminate.
  - destruct m; [ | cbn; split; reflexivity].
    split; [ | discriminate].
    unfold play. change (BallGame_init as_script width0 height0 draws)
      with (Some (BallGame_built width0 height0 draws)).
    destruct (BallGame_built_window_inv width0 height0 draws) as [Hw _].
    destruct (run_window_inv frames _ Hw) as (g' & E & _).
    rewrite E. discriminate.
Qed.

(** ** Restarting *)

(** [initialize_game], when it returns, has dropped all balls and spawned
    [initial_balls] new ones: the active list holds exactly the new balls
    in order, the inventory is empty and the engine drags nothing; ball
    [i] is FREE at
    [(width // 2 + (i - initial_balls // 2) * 60, 150 + (i % 3) * 80)] with
    a radius between 18 and 25.  The handler does not reset the window's
    own drag state: [is_dragging] and the window's dragged reference are
    left as they were. *)
Theorem initialize_game_spawns (m : Loaded) (g g' : BallGame)
    (draws : nat -> R * AddDraws) :
  initialize_game m g draws = Some g' ->
  let gl' := game_logic g' in
  let first := next_loc (game_logic g) in
  balls gl' = seq first (initial_balls g)
  /\ length (balls gl') = initial_balls g
  /\ inventory gl' = []
  /\ dragged_ball gl' = None
  /\ is_dragging g' = is_dragging g
  /\ ui_dragged_ball g' = ui_dragged_ball g
  /\ (forall i, (i < initial_balls g)%nat ->
        let o := heap gl' (first + i)%nat in
        x o = IZR (width g / 2
                   + (Z.of_nat i - Z.of_nat (initial_balls g) / 2) * 60)
        /\ y o = IZR (150 + (Z.of_nat i mod 3) * 80)
        /\ state o = FREE
        /\ radius o = uniform 18 25 (fst (draws i))
        /\ (unit_draw (fst (draws i)) -> 18 <= radius o <= 25)).
Proof.
  intros Hret gl' first. unfold initialize_game in Hret.
  destruct (random_bound m || (initial_balls g =? 0)%nat); [ | discriminate].
  injection Hret as Hret. subst g'.
  destruct (spawn_fold_layout g draws (initial_balls g) 0
              (clear_all_balls (game_logic g)))
    as (Hb & Hi & _ & _ & Hnew).
  fold (game_logic (initialize_game_body g draws)) in Hb, Hi, Hnew.
  change (fold_left (spawn_initial g draws) (seq 0 (initial_balls g))
            (clear_all_balls (game_logic g))) with gl' in Hb, Hi, Hnew.
  cbn [clear_all_balls balls inventory next_loc with_dragged_ball
       with_inventory with_balls app] in Hb, Hi, Hnew.
  fold first in Hb, Hnew.
  split; [exact Hb | ].
  split; [rewrite Hb; apply length_seq | ].
  split; [exact Hi | ].
  split.
  { subst gl'. unfold initialize_game_body;
      cbn [game_logic with_game_logic].
    now rewrite spawn_fold_dragged. }
  split; [reflexivity | split; [reflexivity | ]].
  intros i Hi'. destruct (Hnew i Hi') as (Hx & Hy & Hr & Hs).
  cbn [Nat.add] in Hx, Hy, Hr.
  cbv zeta. rewrite Hx, Hy, Hr, Hs.
  split; [reflexivity | ].
  split; [reflexivity | ].
  split; [reflexivity | ].
  split; [reflexivity | ].
  intros Hu; apply (uniform_in_band 18 25); [lra | exact Hu].
Qed.

Lemma initialize_game_spawns_witness :
  18 <= radius (heap (game_logic (BallGame_built 1000 700
                                    (fun _ => (0.5, twin_draws)))) 3%nat)
     <= 25.
Proof.
  assert (Hu : unit_draw 0.5) by (unfold unit_draw; lra).
  destruct (initialize_game_spawns as_script (BallGame_fields 1000 700)
              (BallGame_built 1000 700 (fun _ => (0.5, twin_draws)))
              (fun _ => (0.5, twin_draws)) eq_refl)
    as (_ & _ & _ & _ & _ & _ & H).
  assert (H3 : (3 < 8)%nat) by lia.
  destruct (H 3%nat H3) as (_ & _ & _ & _ & Hr).
  exact (Hr Hu).
Defined.

(** ** The inventory circle on screen *)

Lemma is_in_delete_zone_above (s : GameLogic) (px py : R) :
  py < delete_zone_y s -> is_in_delete_zone s px py = false.
Proof.
  intros H. unfold is_in_delete_zone, Rge_b.
  assert (E : Rle_b (delete_zone_y s) py = false)
    by (apply Rle_b_false; lra).
  now rewrite E.
Qed.

(** [draw_ui] draws the inventory circle around [(width - 80, 20)], while
    [end_drag] accepts a drop within 30 of [(width - 100, 50)].  The two
    discs overlap, but the centre of the drawn circle is not inside the
    target of the engine.  In a window higher than 170, whatever happened
    before, a left release exactly at the centre of the drawn circle
    stores nothing: the handler returns, both lists are as before, and a
    ball that was dragged is FREE again. *)
Theorem release_on_drawn_inventory_centre (m : Loaded)
    (width0 height0 : Z) (draws : nat -> R * AddDraws)
    (frames : list (list (Event * EventDraws))) (g0 g' : BallGame) :
  BallGame_init m width0 height0 draws = Some g0 ->
  run m g0 frames = Some g' ->
  (170 < height0)%Z ->
  let cx := IZR (ui_inventory_x g') in
  let cy := IZR ui_inventory_y in
  in_drawn_inventory g' cx cy = true
  /\ in_inventory_target (game_logic g') cx cy = false
  /\ in_drawn_inventory g' (cx - 10) (cy + 15) = true
  /\ in_inventory_target (game_logic g') (cx - 10) (cy + 15) = true
  /\ exists g'',
       handle_mouse_up g' (ui_inventory_x g', ui_inventory_y) = Some g''
       /\ balls (game_logic g'') = balls (game_logic g')
       /\ inventory (game_logic g'') = inventory (game_logic g')
       /\ (forall d, dragged_ball (game_logic g') = Some d ->
             state (heap (game_logic g'') d) = FREE).
Proof.
  intros Hinit E Hhigh cx cy.
  destruct (BallGame_init_some _ _ _ _ _ Hinit) as [-> ->].
  destruct (BallGame_built_window_inv width0 height0 draws) as [Hw Hp0].
  destruct (run_window_inv frames _ Hw)
    as (g1 & E1 & (_ & _ & Hflag) & Hp & S1 & _).
  rewrite E in E1. injection E1 as <-.
  destruct (same_params_trans _ _ _ Hp0 Hp) as (P1 & _ & P3 & _).
  cbn in P1, P3.
  assert (Hx : cx = IZR width0 - 80).
  { unfold cx, ui_inventory_x. rewrite S1. cbn [width BallGame_built
      initialize_game_body with_game_logic BallGame_fields].
    now rewrite minus_IZR. }
  assert (Hy : cy = 20) by reflexivity.
  assert (Htarget : in_inventory_target (game_logic g') cx cy = false).
  { unfold in_inventory_target. rewrite P1, Hx, Hy.
    apply Rle_b_false. intros Hle.
    assert (Hgt : 30 < sqrt ((IZR width0 - 80 - (IZR width0 - 100)) ^ 2
                             + (20 - 50) ^ 2))
      by (apply sqrt_above; lra).
    lra. }
  assert (Hzone : is_in_delete_zone (game_logic g') cx cy = false).
  { apply is_in_delete_zone_above. rewrite P3, Hy, minus_IZR.
    apply IZR_lt in Hhigh. lra. }
  split.
  { unfold in_drawn_inventory, ui_inventory_radius. fold cx cy.
    apply Rle_b_true. apply sqrt_le_iff; nra. }
  split; [exact Htarget | ].
  split.
  { unfold in_drawn_inventory, ui_inventory_radius. fold cx cy.
    apply Rle_b_true. apply sqrt_le_iff; nra. }
  split.
  { unfold in_inventory_target. rewrite P1, Hx, Hy.
    apply Rle_b_true. apply sqrt_le_iff; nra. }
  unfold handle_mouse_up; cbn [fst snd]. fold cx cy.
  destruct (is_dragging g') eqn:Ed.
  - unfold end_drag.
    destruct (dragged_ball (game_logic g')) as [ball | ] eqn:Eb.
    + rewrite Hzone. unfold in_inventory_target in Htarget.
      cbv zeta. rewrite Htarget.
      eexists. split; [reflexivity | ].
      cbn [game_logic with_dragging with_game_logic]. heap_simpl.
      split; [reflexivity | split; [reflexivity | ]].
      intros d [= <-]. rewrite !upd_same. reflexivity.
    + eexists. split; [reflexivity | ].
      cbn [game_logic with_dragging with_game_logic].
      split; [reflexivity | split; [reflexivity | ]].
      intros d Hd. discriminate.
  - exists g'. split; [reflexivity | ].
    split; [reflexivity | split; [reflexivity | ]].
    intros d Hd. discriminate (Hflag d Hd).
Qed.

Lemma release_on_drawn_inventory_centre_witness :
  in_inventory_target
    (game_logic (BallGame_built 1000 700 (fun _ => (0.5, twin_draws))))
    (IZR (ui_inventory_x (BallGame_built 1000 700
                            (fun _ => (0.5, twin_draws)))))
    (IZR ui_inventory_y) = false.
Proof.
  assert (Hhigh : (170 < 700)%Z) by lia.
  destruct (release_on_drawn_inventory_centre as_script 1000 700
              (fun _ => (0.5, twin_draws)) []
              (BallGame_built 1000 700 (fun _ => (0.5, twin_draws)))
              (BallGame_built 1000 700 (fun _ => (0.5, twin_draws)))
              eq_refl eq_refl Hhigh)
    as (_ & H & _).
  exact H.
Defined.
